(** * strudel-lorenz: a Lorenz attractor mapped to musical control series

    A shallow embedding of the two scripts of the repository,
    [src/lorenz-funky.js] and the second, unnamed script (module
    [Part000] below), and the proofs of their specified properties.

    JavaScript numbers are IEEE-754 binary64 values.  They are modelled
    by the Standard Library's [spec_float] at precision 53 and maximal
    exponent 1024, whose operations round to nearest, ties to even, as
    ECMAScript prescribes for [+], [-], [*], [/] and [Math.sqrt]. *)

From Stdlib Require Import ZArith Bool String List Lia Floats.SpecFloat.
Import ListNotations.

Local Open Scope Z_scope.

(** ** JavaScript numbers *)

Module JS.

Definition prec : Z := 53.
Definition emax : Z := 1024.

Definition number : Type := spec_float.

Definition NaN : number := S754_nan.
Definition Infinity : number := S754_infinity false.
Definition neg_Infinity : number := S754_infinity true.
Definition pos_zero : number := S754_zero false.

Definition add : number -> number -> number := SFadd prec emax.
Definition sub : number -> number -> number := SFsub prec emax.
Definition mul : number -> number -> number := SFmul prec emax.
Definition div : number -> number -> number := SFdiv prec emax.
Definition Math_sqrt : number -> number := SFsqrt prec emax.

(** The number denoted by an integer literal. *)
Definition of_Z (n : Z) : number := binary_normalize prec emax n 0 false.

(** The number denoted by the decimal literal [n / d], [d] a power of
    ten: both are below [2^53], so the correctly rounded quotient is
    the double nearest to the decimal. *)
Definition lit (n d : Z) : number := div (of_Z n) (of_Z d).

(** [x < y], [x <= y] and [x === y] on numbers. *)
Definition lt (x y : number) : bool := SFltb x y.
Definition le (x y : number) : bool := SFleb x y.
Definition strict_eq (x y : number) : bool := SFeqb x y.

Definition is_nan (x : number) : bool :=
  match x with S754_nan => true | _ => false end.

(** [isFinite] and [Number.isFinite] agree on numbers. *)
Definition isFinite (x : number) : bool :=
  match x with
  | S754_zero _ | S754_finite _ _ _ => true
  | S754_infinity _ | S754_nan => false
  end.

Definition is_pos_zero (x : number) : bool :=
  match x with S754_zero false => true | _ => false end.
Definition is_neg_zero (x : number) : bool :=
  match x with S754_zero true => true | _ => false end.

(** [Math.min(...args)] and [Math.max(...args)] as ECMAScript defines
    them: NaN if any argument is NaN, otherwise a left-to-right scan
    from the neutral infinity in which -0 counts as below +0. *)
Definition min_step (lowest n : number) : number :=
  if (is_neg_zero n && is_pos_zero lowest) || lt n lowest then n else lowest.
Definition max_step (highest n : number) : number :=
  if (is_pos_zero n && is_neg_zero highest) || lt highest n then n else highest.

Definition Math_min (args : list number) : number :=
  if existsb is_nan args then NaN else fold_left min_step args Infinity.
Definition Math_max (args : list number) : number :=
  if existsb is_nan args then NaN else fold_left max_step args neg_Infinity.

(** A value read from an array at an index that may be out of range is
    [undefined]; [ToNumber(undefined)] is NaN. *)
Definition to_number (v : option number) : number :=
  match v with Some x => x | None => NaN end.

(** [v || 0] on an array read: NaN, both zeros and [undefined] are falsy. *)
Definition or_zero (v : option number) : number :=
  match v with
  | Some (S754_zero _) | Some S754_nan | None => pos_zero
  | Some x => x
  end.

(** [Math.floor]: a finite number with a negative exponent has the
    integer part [q] of its magnitude and is an integer when shifting
    [q] back gives the mantissa; a result of zero is [+0]. *)
Definition Math_floor (x : number) : number :=
  match x with
  | S754_finite s m (Zneg k) =>
      let q := Z.shiftr (Zpos m) (Zpos k) in
      let integral := Z.eqb (Z.shiftl q (Zpos k)) (Zpos m) in
      let n := if s then (if integral then Z.opp q else Z.opp (q + 1)) else q in
      binary_normalize prec emax n 0 s
  | _ => x
  end.

(** [Math.round]: the nearest integer, ties towards plus infinity,
    that is the floor of [x + 1/2] computed exactly; a result of zero
    keeps the sign of the argument. *)
Definition Math_round (x : number) : number :=
  match x with
  | S754_finite s m (Zneg k) =>
      let twice := if s then Z.opp (Zpos m~0) else Zpos m~0 in
      let r := Z.shiftr (twice + Z.shiftl 1 (Zpos k)) (Zpos k + 1) in
      binary_normalize prec emax r 0 s
  | _ => x
  end.

(** [Math.sign]. *)
Definition Math_sign (x : number) : number :=
  match x with
  | S754_finite s _ _ | S754_infinity s => of_Z (if s then -1 else 1)
  | _ => x
  end.

(** The non-negative integer a number denotes as a property key, if
    it denotes one: the key of [-0] is ["0"]. *)
Definition index_of (k : number) : option Z :=
  match k with
  | S754_zero _ => Some 0
  | S754_finite false m e =>
      match e with
      | Zneg j =>
          let q := Z.shiftr (Zpos m) (Zpos j) in
          if Z.eqb (Z.shiftl q (Zpos j)) (Zpos m) then Some q else None
      | _ => Some (Z.shiftl (Zpos m) e)
      end
  | _ => None
  end.

(** [arr[k]] for a number [k]; [None] is [undefined]. *)
Definition get (arr : list number) (k : number) : option number :=
  match index_of k with
  | Some q =>
      if Z.ltb q (Z.of_nat (length arr)) then nth_error arr (Z.to_nat q) else None
  | None => None
  end.

(** [arr[k]] where [k] was itself read from an array: the key
    ["undefined"] names no element. *)
Definition get_at (arr : list number) (k : option number) : option number :=
  match k with Some n => get arr n | None => None end.

(** An omitted argument takes the default of its parameter. *)
Definition default_arg {A : Type} (v : option A) (d : A) : A :=
  match v with Some a => a | None => d end.

(** [arr.map((v, i) => f(v, i))]. *)
Fixpoint mapi_from {A B : Type} (i : nat) (f : A -> nat -> B) (l : list A) : list B :=
  match l with
  | [] => []
  | v :: l' => f v i :: mapi_from (S i) f l'
  end.
Definition mapi {A B : Type} (f : A -> nat -> B) (l : list A) : list B :=
  mapi_from O f l.

(** [arr.filter((_, i) => i % k === 0)]. *)
Definition every_nth {A : Type} (k : nat) (l : list A) : list A :=
  concat (mapi (fun v i => if Nat.eqb (Nat.modulo i k) 0 then [v] else []) l).

End JS.

Declare Scope js_scope.
Delimit Scope js_scope with js.
Infix "+" := JS.add : js_scope.
Infix "-" := JS.sub : js_scope.
Infix "*" := JS.mul : js_scope.
Infix "/" := JS.div : js_scope.

(** A point of the trajectory, the object [{x, y, z}]. *)
Record point : Type := Point { px : JS.number; py : JS.number; pz : JS.number }.

(** An argument that is either an array of numbers or a single number,
    as [Array.isArray] tells them apart. *)
Inductive value : Type :=
  | Num (x : JS.number)
  | Arr (l : list JS.number).

(** ** Calls to [Math.random]

    The values [Math.random()] returns are not determined by the
    program: [random k] is the value of the [k]-th call of a run, and a
    computation that may draw threads the number of calls made so far. *)

Definition Rand (A : Type) : Type := nat -> A * nat.

Definition ret {A : Type} (a : A) : Rand A := fun k => (a, k).
Definition bind {A B : Type} (c : Rand A) (f : A -> Rand B) : Rand B :=
  fun k => let (a, k') := c k in f a k'.
Definition draw (random : nat -> JS.number) : Rand JS.number :=
  fun k => (random k, S k).

(** [arr.map((v, i) => f(v, i))] for a callback that may draw. *)
Fixpoint mapi_rand_from {A B : Type} (i : nat) (f : A -> nat -> Rand B)
    (l : list A) : Rand (list B) :=
  match l with
  | [] => ret []
  | v :: l' =>
      bind (f v i) (fun b => bind (mapi_rand_from (S i) f l') (fun bs => ret (b :: bs)))
  end.
Definition mapi_rand {A B : Type} (f : A -> nat -> Rand B) (l : list A) : Rand (list B) :=
  mapi_rand_from O f l.

(** ** Calls that may raise

    A spread call [f(...args)] passes every element of [args] as an
    argument of its own.  An engine accepts only so many arguments in
    one call, [max_arguments] below, and raises a RangeError for a call
    with more.  The other operations the scripts apply to numbers and
    arrays of numbers (arithmetic, comparisons, [map], [filter], [push],
    array reads, [Math.floor] and the like) raise nothing. *)

Inductive error : Type := RangeError.

Inductive outcome (A : Type) : Type :=
  | Returned (a : A)
  | Raised (e : error).
Arguments Returned {A} a.
Arguments Raised {A} e.

Definition and_then {A B : Type} (c : outcome A) (f : A -> outcome B) : outcome B :=
  match c with
  | Returned a => f a
  | Raised e => Raised e
  end.

(** [f(...args)] on an engine that accepts [max_arguments] arguments. *)
Definition spread (max_arguments : nat) (f : list JS.number -> JS.number)
    (args : list JS.number) : outcome JS.number :=
  if Nat.leb (length args) max_arguments then Returned (f args) else Raised RangeError.

(** ** The script [src/lorenz-funky.js] *)

Module LorenzFunky.
Import JS.
Local Open Scope js_scope.
Local Open Scope string_scope.

Section Registry.
(** The keys of [globalThis.strudel.sounds], none if it is absent. *)
Variable avail : list string.

Definition pick (cands : list string) : string :=
  match find (fun n => existsb (String.eqb n) avail) cands with
  | Some n => if String.eqb n "" then "sine" else n
  | None => "sine"
  end.

Definition LEAD_SYNTH : string := pick ["tri"; "pluck"; "sine"].
Definition PAD_SYNTH : string := pick ["saw"; "pulse"; "tri"; "sine"].
End Registry.

(** *** Safety helpers *)

Definition safeNum (v : number) (def : option number) : number :=
  let def := default_arg def (of_Z 0) in
  let n := v in
  if isFinite n then n else def.

Definition safeArr (arr : value) (def : option number) : list number :=
  let def := default_arg def (of_Z 0) in
  map (fun v => safeNum v (Some def))
      (match arr with Arr l => l | Num x => [x] end).

Definition clampArr (arr : value) (lo hi : number) : list number :=
  map (fun v => Math_max [lo; Math_min [hi; v]]) (safeArr arr None).

(** *** 1) Lorenz integrator (RK4) *)

Section Integrator.
Variables dt sigma rho beta : number.

Definition dx (x y : number) : number := sigma * (y - x).
Definition dy (x y z : number) : number := x * (rho - z) - y.
Definition dz (x y z : number) : number := x * y - beta * z.

(** One pass through the body of the loop: the new [x], [y], [z]. *)
Definition body (x y z : number) : point :=
  let k1x := dx x y in
  let k1y := dy x y z in
  let k1z := dz x y z in
  let k2x := dx (x + lit 5 10 * dt * k1x) (y + lit 5 10 * dt * k1y) in
  let k2y := dy (x + lit 5 10 * dt * k1x) (y + lit 5 10 * dt * k1y) (z + lit 5 10 * dt * k1z) in
  let k2z := dz (x + lit 5 10 * dt * k1x) (y + lit 5 10 * dt * k1y) (z + lit 5 10 * dt * k1z) in
  let k3x := dx (x + lit 5 10 * dt * k2x) (y + lit 5 10 * dt * k2y) in
  let k3y := dy (x + lit 5 10 * dt * k2x) (y + lit 5 10 * dt * k2y) (z + lit 5 10 * dt * k2z) in
  let k3z := dz (x + lit 5 10 * dt * k2x) (y + lit 5 10 * dt * k2y) (z + lit 5 10 * dt * k2z) in
  let k4x := dx (x + dt * k3x) (y + dt * k3y) in
  let k4y := dy (x + dt * k3x) (y + dt * k3y) (z + dt * k3z) in
  let k4z := dz (x + dt * k3x) (y + dt * k3y) (z + dt * k3z) in
  let x' := x + (dt / of_Z 6) * (k1x + of_Z 2 * k2x + of_Z 2 * k3x + k4x) in
  let y' := y + (dt / of_Z 6) * (k1y + of_Z 2 * k2y + of_Z 2 * k3y + k4y) in
  let z' := z + (dt / of_Z 6) * (k1z + of_Z 2 * k2z + of_Z 2 * k3z + k4z) in
  Point x' y' z'.

(** The [for] loop with [steps - i] iterations left. *)
Fixpoint loop (left : nat) (x y z : number) (pts : list point) : list point :=
  match left with
  | O => pts
  | S left' =>
      let p := body x y z in
      loop left' (px p) (py p) (pz p) (pts ++ [p])
  end.
End Integrator.

Definition lorenz (steps : option nat) (dt sigma rho beta : option number) : list point :=
  let steps := default_arg steps 4096%nat in
  let dt := default_arg dt (lit 1 100) in
  let sigma := default_arg sigma (of_Z 10) in
  let rho := default_arg rho (of_Z 28) in
  let beta := default_arg beta (of_Z 8 / of_Z 3) in
  loop dt sigma rho beta steps (of_Z 1) (of_Z 1) (of_Z 1) [].

(** *** 2) Data processing *)

Definition norm (arr : list number) : list number :=
  let finite := filter isFinite arr in
  if Nat.eqb (length finite) 0 then map (fun _ => lit 5 10) arr else
  let mn := Math_min finite in
  let mx := Math_max finite in
  if strict_eq mn mx || negb (isFinite mn) || negb (isFinite mx)
  then map (fun _ => lit 5 10) arr
  else map (fun v =>
         if negb (isFinite v) then lit 5 10 else
         let normalized := (v - mn) / (mx - mn) in
         if isFinite normalized then normalized else lit 5 10) arr.

(** [norm] with its two spread calls, [Math.min(...finite)] and
    [Math.max(...finite)], made on an engine that accepts
    [max_arguments] arguments: [norm] above is what it returns when
    both calls are accepted. *)
Definition norm_call (max_arguments : nat) (arr : list number) : outcome (list number) :=
  let finite := filter isFinite arr in
  if Nat.eqb (length finite) 0 then Returned (map (fun _ => lit 5 10) arr) else
  and_then (spread max_arguments Math_min finite) (fun mn =>
  and_then (spread max_arguments Math_max finite) (fun mx =>
  if strict_eq mn mx || negb (isFinite mn) || negb (isFinite mx)
  then Returned (map (fun _ => lit 5 10) arr)
  else Returned (map (fun v =>
         if negb (isFinite v) then lit 5 10 else
         let normalized := (v - mn) / (mx - mn) in
         if isFinite normalized then normalized else lit 5 10) arr))).

Definition diff (arr : list number) : list number :=
  mapi (fun v i =>
          match i with
          | S j => v - to_number (nth_error arr j)
          | O => of_Z 0
          end) arr.

(** *** The run of the script

    [Math.sin], [Math.atan2] and [Math.pow] are approximations that
    ECMAScript leaves to the implementation; the run is taken relative
    to them and to the values [Math.random] returns. *)

Section Script.
Variable Math_sin : number -> number.
Variable Math_atan2 : number -> number -> number.
Variable Math_pow : number -> number -> number.
Variable random : nat -> number.

Definition pts : list point := lorenz (Some 4096%nat) (Some (lit 1 100)) None None None.

(** Normalized coordinates *)
Definition xs : list number := norm (map px pts).
Definition ys : list number := norm (map py pts).
Definition zs : list number := norm (map pz pts).

(** Differences for velocity/energy *)
Definition dxs : list number := diff (map px pts).
Definition dys : list number := diff (map py pts).
Definition dzs : list number := diff (map pz pts).

(** Speed/energy calculation *)
Definition rawSpd : list number :=
  mapi (fun _ i =>
          Math_sqrt (Math_pow (or_zero (nth_error dxs i)) (of_Z 2)
                     + Math_pow (or_zero (nth_error dys i)) (of_Z 2)
                     + Math_pow (or_zero (nth_error dzs i)) (of_Z 2))) pts.
Definition spd : list number := norm rawSpd.

(** *** 3) Musical mapping *)

Definition scale : list number := [of_Z 0; of_Z 3; of_Z 5; of_Z 7; of_Z 10].
Definition octaves : list number := [of_Z 0; of_Z 12; of_Z 24; of_Z 36].

Definition scaleDegree_of (xs : list number) : list number :=
  map (fun v => Math_floor (v * of_Z (Z.of_nat (length scale)))) xs.
Definition octave_of (ys : list number) : list number :=
  map (fun v => Math_floor (v * of_Z (Z.of_nat (length octaves)))) ys.

(** [notes] as a function of the normalized coordinates it reads. *)
Definition notes_of (xs ys : list number) : list number :=
  let scaleDegree := scaleDegree_of xs in
  let octave := octave_of ys in
  mapi (fun deg i =>
          let baseNote := of_Z 48 in
          let note := baseNote + to_number (get_at octaves (nth_error octave i))
                      + to_number (get scale deg) in
          note) scaleDegree.

Definition scaleDegree : list number := scaleDegree_of xs.
Definition octave : list number := octave_of ys.
Definition notes : list number := notes_of xs ys.

Definition cut : list number := map (fun v => of_Z 300 + v * of_Z 8000) zs.

Definition pan : list number :=
  mapi (fun x i =>
          let angle := Math_atan2 (to_number (nth_error ys i) - lit 5 10) (x - lit 5 10) in
          Math_sin angle) xs.

Definition gain : list number :=
  mapi (fun s i =>
          let base := lit 3 10 + lit 5 10 * s in
          let modulation := lit 1 10 * Math_sin (of_Z (Z.of_nat i) * lit 5 100) in
          base + modulation) spd.

(** Percussion: each callback draws only when the tests before the
    call to [Math.random] in its conjunction hold. *)
Definition kicks_rand : Rand (list string) :=
  mapi_rand (fun s i =>
               if lt (lit 7 10) s && Nat.eqb (Nat.modulo i 4) 0
               then bind (draw random) (fun r => ret (if lt r (lit 8 10) then "bd" else "~"))
               else ret "~") spd.

Definition snares_rand : Rand (list string) :=
  mapi_rand (fun z i =>
               if Nat.ltb 0 i && lt (SFabs (z - lit 5 10)) (lit 1 10)
                  && Nat.eqb (Nat.modulo i 3) 0
               then bind (draw random) (fun r => ret (if lt r (lit 4 10) then "sd" else "~"))
               else ret "~") zs.

Definition hats_rand : Rand (list string) :=
  mapi_rand (fun x i =>
               if Nat.eqb (Nat.modulo i 2) 0 && lt (lit 6 10) x
               then bind (draw random) (fun r => ret (if lt r (lit 6 10) then "hh" else "~"))
               else ret "~") xs.

(** The three percussion series, in the order the script builds them. *)
Definition percussion : list string * list string * list string :=
  fst (bind kicks_rand (fun kicks =>
       bind snares_rand (fun snares =>
       bind hats_rand (fun hats => ret (kicks, snares, hats)))) O).

Definition kicks : list string := fst (fst percussion).
Definition snares : list string := snd (fst percussion).
Definition hats : list string := snd percussion.

(** *** 4) Safe arrays *)

Definition NOTES_SAFE : list number := clampArr (Arr notes) (of_Z 36) (of_Z 96).
Definition CUT_SAFE : list number := clampArr (Arr cut) (of_Z 100) (of_Z 12000).
Definition PAN_SAFE : list number := clampArr (Arr pan) (of_Z (-1)) (of_Z 1).
Definition GAIN_SAFE : list number := clampArr (Arr gain) (lit 1 10) (lit 9 10).

(** Ambient pad following slower trajectory *)
Definition padNotes : list number := every_nth 16 notes.
Definition padCut : list number := every_nth 16 cut.
Definition PAD_NOTES_SAFE : list number := clampArr (Arr padNotes) (of_Z 36) (of_Z 84).
Definition PAD_CUT_SAFE : list number := clampArr (Arr padCut) (of_Z 200) (of_Z 3000).

(** *** 5) Playback: each numeric series handed to the pattern
    engine, with the bounds it is clamped to. *)
Definition handed_off : list (list number * (number * number)) :=
  [ (NOTES_SAFE, (of_Z 36, of_Z 96));
    (CUT_SAFE, (of_Z 100, of_Z 12000));
    (PAN_SAFE, (of_Z (-1), of_Z 1));
    (GAIN_SAFE, (lit 1 10, lit 9 10));
    (PAD_NOTES_SAFE, (of_Z 36, of_Z 84));
    (PAD_CUT_SAFE, (of_Z 200, of_Z 3000)) ].
End Script.

End LorenzFunky.

(** ** The second script (its file name is not recorded) *)

Module Part000.
Import JS.
Local Open Scope js_scope.
Local Open Scope string_scope.

Section Registry.
Variable avail : list string.

Definition pick (cands : list string) : string :=
  match find (fun n => existsb (String.eqb n) avail) cands with
  | Some n => if String.eqb n "" then "sine" else n
  | None => "sine"
  end.

Definition LEAD_SYNTH : string := pick ["tri"; "pluck"; "sine"].
Definition PAD_SYNTH : string := pick ["saw"; "pulse"; "tri"; "sine"].
End Registry.

(** *** Safety helper to ensure finite values *)

(** An element of the array given to [ensureFinite]: a number or an
    array of numbers. *)
Inductive item : Type :=
  | Scalar (v : number)
  | Nested (v : list number).

(** [arr] is [None] when the argument is not an array. *)
Definition ensureFinite (arr : option (list item)) (defaultVal : option number) : list item :=
  let defaultVal := default_arg defaultVal (lit 5 10) in
  match arr with
  | None => [Scalar defaultVal]
  | Some arr =>
      map (fun v =>
             match v with
             | Nested v => Nested (map (fun x => if isFinite x then x else defaultVal) v)
             | Scalar v => Scalar (if isFinite v then v else defaultVal)
             end) arr
  end.

Definition clamp (val min max : number) : number :=
  let v := if isFinite val then val else (min + max) / of_Z 2 in
  Math_max [min; Math_min [max; v]].

(** *** 1) Lorenz integrator (RK4) *)

Section Integrator.
Variables dt sigma rho beta : number.

Definition dx (x y : number) : number := sigma * (y - x).
Definition dy (x y z : number) : number := x * (rho - z) - y.
Definition dz (x y z : number) : number := x * y - beta * z.

Definition body (x y z : number) : point :=
  (* k1 is calculated from (x, y, z) *)
  let k1x := dx x y in
  let k1y := dy x y z in
  let k1z := dz x y z in
  (* k2 is calculated from the half-step prediction *)
  let k2x := dx (x + lit 5 10 * dt * k1x) (y + lit 5 10 * dt * k1y) in
  let k2y := dy (x + lit 5 10 * dt * k1x) (y + lit 5 10 * dt * k1y) (z + lit 5 10 * dt * k1z) in
  let k2z := dz (x + lit 5 10 * dt * k1x) (y + lit 5 10 * dt * k1y) (z + lit 5 10 * dt * k1z) in
  (* k3 is calculated from another half-step prediction *)
  let k3x := dx (x + lit 5 10 * dt * k2x) (y + lit 5 10 * dt * k2y) in
  let k3y := dy (x + lit 5 10 * dt * k2x) (y + lit 5 10 * dt * k2y) (z + lit 5 10 * dt * k2z) in
  let k3z := dz (x + lit 5 10 * dt * k2x) (y + lit 5 10 * dt * k2y) (z + lit 5 10 * dt * k2z) in
  (* k4 is calculated from the full-step prediction *)
  let k4x := dx (x + dt * k3x) (y + dt * k3y) in
  let k4y := dy (x + dt * k3x) (y + dt * k3y) (z + dt * k3z) in
  let k4z := dz (x + dt * k3x) (y + dt * k3y) (z + dt * k3z) in
  (* Update coordinates *)
  let x' := x + (dt / of_Z 6) * (k1x + of_Z 2 * k2x + of_Z 2 * k3x + k4x) in
  let y' := y + (dt / of_Z 6) * (k1y + of_Z 2 * k2y + of_Z 2 * k3y + k4y) in
  let z' := z + (dt / of_Z 6) * (k1z + of_Z 2 * k2z + of_Z 2 * k3z + k4z) in
  Point x' y' z'.

Fixpoint loop (left : nat) (x y z : number) (pts : list point) : list point :=
  match left with
  | O => pts
  | S left' =>
      let p := body x y z in
      loop left' (px p) (py p) (pz p) (pts ++ [p])
  end.
End Integrator.

Definition lorenz (steps : option nat) (dt sigma rho beta : option number) : list point :=
  let steps := default_arg steps 1536%nat in
  let dt := default_arg dt (lit 1 100) in
  let sigma := default_arg sigma (of_Z 10) in
  let rho := default_arg rho (of_Z 28) in
  let beta := default_arg beta (of_Z 8 / of_Z 3) in
  loop dt sigma rho beta steps (of_Z 1) (of_Z 1) (of_Z 1) [].

(** *** 2) Data processing *)

Definition norm (arr : list number) : list number :=
  let finite := filter isFinite arr in
  if Nat.eqb (length finite) 0 then map (fun _ => lit 5 10) arr else
  let mn := Math_min finite in
  let mx := Math_max finite in
  if strict_eq mn mx || negb (isFinite mn) || negb (isFinite mx)
  then map (fun _ => lit 5 10) arr
  else map (fun v =>
         if negb (isFinite v) then lit 5 10 else
         let normalized := (v - mn) / (mx - mn) in
         if isFinite normalized then normalized else lit 5 10) arr.

(** [norm] with its two spread calls, [Math.min(...finite)] and
    [Math.max(...finite)], made on an engine that accepts
    [max_arguments] arguments: [norm] above is what it returns when
    both calls are accepted. *)
Definition norm_call (max_arguments : nat) (arr : list number) : outcome (list number) :=
  let finite := filter isFinite arr in
  if Nat.eqb (length finite) 0 then Returned (map (fun _ => lit 5 10) arr) else
  and_then (spread max_arguments Math_min finite) (fun mn =>
  and_then (spread max_arguments Math_max finite) (fun mx =>
  if strict_eq mn mx || negb (isFinite mn) || negb (isFinite mx)
  then Returned (map (fun _ => lit 5 10) arr)
  else Returned (map (fun v =>
         if negb (isFinite v) then lit 5 10 else
         let normalized := (v - mn) / (mx - mn) in
         if isFinite normalized then normalized else lit 5 10) arr))).

(** diff returns an array of length N, where the first element is 0 *)
Definition diff (arr : list number) : list number :=
  mapi (fun v i =>
          match i with
          | S j => v - to_number (nth_error arr j)
          | O => of_Z 0
          end) arr.

(** *** Final safety net *)

Definition safeNum (v : number) (def : option number) : number :=
  let def := default_arg def (of_Z 0) in
  let n := v in
  if isFinite n then n else def.

Definition safeArr (arr : value) (def : option number) : list number :=
  let def := default_arg def (of_Z 0) in
  map (fun v => safeNum v (Some def))
      (match arr with Arr l => l | Num x => [x] end).

Definition clampArr (arr : value) (lo hi : number) : list number :=
  map (fun v => Math_max [lo; Math_min [hi; v]]) (safeArr arr None).

Section Script.
Variable Math_pow : number -> number -> number.
Variable random : nat -> number.

Definition pts : list point := lorenz (Some 1536%nat) (Some (lit 1 100)) None None None.

(** pre-calculate all difference arrays *)
Definition dxs : list number := diff (map px pts).
Definition dys : list number := diff (map py pts).
Definition dzs : list number := diff (map pz pts).

(** normalized coords *)
Definition xs : list number := norm (map px pts).
Definition ys : list number := norm (map py pts).
Definition zs : list number := norm (map pz pts).

(** maps (MIDI, Filter Cutoff, Pan, Gain) *)
Definition midiBase : number := of_Z 60.
Definition span : number := of_Z 24.
Definition notes : list number :=
  map (fun v => clamp (Math_round (midiBase + v * span)) (of_Z 36) (of_Z 96)) xs.
Definition cut : list number :=
  map (fun v => clamp (of_Z 200 + v * of_Z 5000) (of_Z 200) (of_Z 8000)) ys.
Definition pan : list number :=
  map (fun v => clamp (v * of_Z 2 - of_Z 1) (of_Z (-1)) (of_Z 1)) zs.

Definition rawSpd : list number :=
  mapi (fun _ i =>
          Math_sqrt (Math_pow (or_zero (nth_error dxs i)) (of_Z 2)
                     + Math_pow (or_zero (nth_error dys i)) (of_Z 2)
                     + Math_pow (or_zero (nth_error dzs i)) (of_Z 2))) pts.

Definition spd : list number := norm rawSpd.
Definition gain : list number :=
  map (fun v => clamp (lit 2 10 + lit 6 10 * v) (lit 1 10) (of_Z 1)) spd.

(** percussion events *)
Definition cross : list number :=
  map (fun d => if isFinite d then Math_sign d else of_Z 0) dxs.
Definition crossings : list number :=
  mapi (fun v i =>
          match i with
          | S j =>
              match nth_error cross j with
              | Some w => if negb (strict_eq v w) then of_Z 1 else of_Z 0
              | None => of_Z 1
              end
          | O => of_Z 0
          end) cross.

Definition kicks_rand : Rand (list string) :=
  mapi_rand (fun c _ =>
               match c with
               | S754_zero _ | S754_nan => ret "~"
               | _ => bind (draw random) (fun r => ret (if lt r (lit 6 10) then "bd" else "~"))
               end) crossings.
Definition snares_rand : Rand (list string) :=
  mapi_rand (fun v _ =>
               if lt v (lit 15 100)
               then bind (draw random) (fun r => ret (if lt r (lit 25 100) then "sd" else "~"))
               else ret "~") spd.
Definition hats_rand : Rand (list string) :=
  mapi_rand (fun v _ =>
               if lt (lit 7 10) v
               then bind (draw random) (fun r => ret (if lt r (lit 5 10) then "hh" else "~"))
               else ret "~") zs.

Definition percussion : list string * list string * list string :=
  fst (bind kicks_rand (fun kicks =>
       bind snares_rand (fun snares =>
       bind hats_rand (fun hats => ret (kicks, snares, hats)))) O).

Definition kicks : list string := fst (fst percussion).
Definition snares : list string := snd (fst percussion).
Definition hats : list string := snd percussion.

(** Build sanitized, clamped patterns for audio params *)
Definition NOTES_SAFE : list number := clampArr (Arr notes) (of_Z 36) (of_Z 96).
Definition CUT_SAFE : list number :=
  clampArr (Arr (map (fun v => of_Z 200 + v * of_Z 5000) ys)) (of_Z 20) (of_Z 12000).
Definition PAN_SAFE : list number :=
  clampArr (Arr (map (fun v => v * of_Z 2 - of_Z 1) zs)) (of_Z (-1)) (of_Z 1).
Definition SPD_SAFE : list number := safeArr (Arr spd) (Some (of_Z 0)).
Definition GAIN_SAFE : list number :=
  clampArr (Arr (map (fun v => lit 2 10 + lit 6 10 * v) SPD_SAFE)) (of_Z 0) (of_Z 1).

(** Optional chord wash: three mono voices *)
Definition roots : list number :=
  map (fun n => clamp n (of_Z 36) (of_Z 84)) (every_nth 8 notes).
Definition thirds : list number :=
  map (fun r => clamp (r + of_Z 4) (of_Z 36) (of_Z 96)) roots.
Definition fifths : list number :=
  map (fun r => clamp (r + of_Z 7) (of_Z 36) (of_Z 96)) roots.

Definition ROOTS_SAFE : list number := clampArr (Arr roots) (of_Z 36) (of_Z 96).
Definition THIRDS_SAFE : list number := clampArr (Arr thirds) (of_Z 36) (of_Z 96).
Definition FIFTHS_SAFE : list number := clampArr (Arr fifths) (of_Z 36) (of_Z 96).

(** Each numeric series handed to the pattern engine, with the
    bounds it is clamped to. *)
Definition handed_off : list (list number * (number * number)) :=
  [ (NOTES_SAFE, (of_Z 36, of_Z 96));
    (CUT_SAFE, (of_Z 20, of_Z 12000));
    (PAN_SAFE, (of_Z (-1), of_Z 1));
    (GAIN_SAFE, (of_Z 0, of_Z 1));
    (ROOTS_SAFE, (of_Z 36, of_Z 96));
    (THIRDS_SAFE, (of_Z 36, of_Z 96));
    (FIFTHS_SAFE, (of_Z 36, of_Z 96)) ].
End Script.

End Part000.

(** ** The classic Runge-Kutta update, as the specification words it *)

Module RK4.
Import JS.
Local Open Scope js_scope.

(** Vectors of the phase space, componentwise. *)
Definition vadd (p q : point) : point :=
  Point (px p + px q) (py p + py q) (pz p + pz q).
Definition vscale (c : number) (p : point) : point :=
  Point (c * px p) (c * py p) (c * pz p).

(** The Lorenz vector field: dx/dt = sigma (y - x),
    dy/dt = x (rho - z) - y, dz/dt = x y - beta z. *)
Definition lorenz_field (sigma rho beta : number) (p : point) : point :=
  Point (sigma * (py p - px p))
        (px p * (rho - pz p) - py p)
        (px p * py p - beta * pz p).

(** The four-stage update of a state [s] by a step [h] along a field
    [f]: the slopes at the start, twice at the midpoint and at the end
    of the step, combined with weights 1, 2, 2, 1 over 6. *)
Definition classic_update (f : point -> point) (h : number) (s : point) : point :=
  let half := lit 5 10 * h in
  let k1 := f s in
  let k2 := f (vadd s (vscale half k1)) in
  let k3 := f (vadd s (vscale half k2)) in
  let k4 := f (vadd s (vscale h k3)) in
  vadd s (vscale (h / of_Z 6)
                 (vadd (vadd (vadd k1 (vscale (of_Z 2) k2)) (vscale (of_Z 2) k3)) k4)).

(** The fixed initial condition (1, 1, 1). *)
Definition initial : point := Point (of_Z 1) (of_Z 1) (of_Z 1).

(** The states reached from [s] by [n] successive updates. *)
Fixpoint orbit (h sigma rho beta : number) (n : nat) (s : point) : list point :=
  match n with
  | O => []
  | S n' =>
      let s' := classic_update (lorenz_field sigma rho beta) h s in
      s' :: orbit h sigma rho beta n' s'
  end.

(** What the claim asks of a trajectory [traj] of [N] states. *)
Definition follows_rk4 (traj : list point) (N : nat) (h sigma rho beta : number) : Prop :=
  nth_error traj 0 = Some (classic_update (lorenz_field sigma rho beta) h initial) /\
  forall i prev, (1 <= i < N)%nat -> nth_error traj (i - 1) = Some prev ->
    nth_error traj i = Some (classic_update (lorenz_field sigma rho beta) h prev).

End RK4.

(** * Definitions used by the statements and the proofs *)

Import JS.

(** The first state both integrators compute with the documented
    constants: about (1.01257, 1.25992, 0.98489). *)
Definition first_state : point :=
  Point (S754_finite false 4560197224406705 (-52))
        (S754_finite false 5674165329847393 (-52))
        (S754_finite false 8871109227122479 (-53)).

(** What the claim asks of a difference series [d] of [arr]. *)
Definition first_differences (arr d : list number) : Prop :=
  length d = length arr /\
  (arr <> [] -> nth_error d 0 = Some (of_Z 0)) /\
  forall i a b, (1 <= i)%nat ->
    nth_error arr i = Some a -> nth_error arr (i - 1) = Some b ->
    nth_error d i = Some (a - b)%js.

(** A number other than NaN is placed by its class, from minus infinity
    (-2) to plus infinity (2), then by exponent and mantissa, negated
    for a negative number: the comparison of numbers is the
    lexicographic comparison of these triples. *)
Definition rank (x : number) : Z * Z * Z :=
  match x with
  | S754_zero _ | S754_nan => (0, 0, 0)
  | S754_infinity s => (if s then -2 else 2, 0, 0)
  | S754_finite false m e => (1, e, Zpos m)
  | S754_finite true m e => (-1, - e, Zneg m)
  end.

(** The strict lexicographic order of such triples. *)
Definition rank_lt (j k : Z * Z * Z) : Prop :=
  let '(a1, b1, c1) := j in
  let '(a2, b2, c2) := k in
  a1 < a2 \/ (a1 = a2 /\ (b1 < b2 \/ (b1 = b2 /\ c1 < c2))).

(** A finite number within the bounds [lo] and [hi]. *)
Definition within (lo hi v : number) : Prop :=
  isFinite v = true /\ le lo v = true /\ le v hi = true.

(** The claim on [clampArr] as it is worded, for all bounds [lo <= hi]. *)
Definition clamps_between_all_bounds (clampArr : value -> number -> number -> list number)
  : Prop :=
  forall (arr : value) (lo hi : number),
    le lo hi = true -> Forall (within lo hi) (clampArr arr lo hi).

(** Every series of a hand-off list lies within the bounds listed with it. *)
Definition all_within (series : list (list number * (number * number))) : Prop :=
  Forall (fun s => Forall (within (fst (snd s)) (snd (snd s))) (fst s)) series.

(** The element [norm] puts in place of an element [v] of [arr]. *)
Definition norm_value (arr : list number) (v : number) : number :=
  let finite := filter isFinite arr in
  let mn := Math_min finite in
  let mx := Math_max finite in
  if strict_eq mn mx || negb (isFinite v) then lit 5 10 else
  let normalized := ((v - mn) / (mx - mn))%js in
  if isFinite normalized then normalized else lit 5 10.

(** The exponent of the smallest positive double, [2^-1074]. *)
Definition emin : Z := -1074.

(** The number of binary digits of a positive number. *)
Definition dig (m : positive) : Z := Zpos (digits2_pos m).

(** [N / 2^n] rounded to the nearest integer, ties to even. *)
Definition rne (N n : Z) : Z :=
  let q := N / 2 ^ n in
  let t := 2 * (N mod 2 ^ n) in
  if t <? 2 ^ n then q
  else if 2 ^ n <? t then q + 1
  else if Z.even q then q else q + 1.

(** The record reached from [N] by [n] shifts: the quotient, whether
    the remainder reaches half of [2^n], and whether it differs from
    what the round bit accounts for. *)
Definition shr_inv (N n : Z) (mrs : shr_record) : Prop :=
  shr_m mrs = N / 2 ^ n /\
  shr_r mrs = (2 ^ n <=? 2 * (N mod 2 ^ n)) /\
  shr_s mrs = negb (2 * (N mod 2 ^ n) =? (if shr_r mrs then 2 ^ n else 0)).

(** A finite number is an integer multiple of [2^emin]: that
    integer. *)
Definition zval (x : number) : Z :=
  match x with
  | S754_finite s m e => (if s then -1 else 1) * (Zpos m * 2 ^ (e - emin))
  | _ => 0
  end.

(** A positive integer rounded to 53 significant bits, ties to even. *)
Definition round53 (X : Z) : Z :=
  let n := Z.max 0 (Zdigits2 X - 53) in rne X n * 2 ^ n.

(** The threshold, in multiples of [2^emin], from which a rounded
    magnitude overflows to infinity: [2^1024]. *)
Definition overflow : Z := 2 ^ 2098.

(** [r] is the rounding of the non-negative integer [D] of multiples
    of [2^emin]. *)
Definition rounds_to (D : Z) (r : number) : Prop :=
  match r with
  | S754_zero _ => D = 0
  | S754_finite false m e =>
      0 < D /\ valid_binary prec emax r = true /\ zval r = round53 D
  | S754_infinity false => 0 < D /\ overflow <= round53 D
  | _ => False
  end.

(** The last stage of [binary_round_aux]: the rounded mantissa [m1]
    at exponent [e1] is renormalized and tested for overflow. *)
Definition finish (s : bool) (m1 e1 : Z) : number :=
  let '(mrs, e2) := shr_fexp prec emax m1 e1 loc_Exact in
  match shr_m mrs with
  | Z0 => S754_zero s
  | Zpos m => if e2 <=? emax - prec then S754_finite s m e2 else S754_infinity s
  | Zneg _ => S754_nan
  end.

(** The number 1. *)
Definition one : number := S754_finite false 4503599627370496 (-52).

(** A normalized value lies between zero and one. *)
Definition unit_interval (r : number) : Prop :=
  le (of_Z 0) r = true /\ le r (of_Z 1) = true.

(** The min-max scaling of [v] between [mn] and [mx]. *)
Definition min_max_scaled (mn mx v : number) : number := ((v - mn) / (mx - mn))%js.

(** Every number a script can hold is a valid binary64 value. *)
Definition numbers (arr : list number) : Prop :=
  Forall (fun v => valid_binary prec emax v = true) arr.

(** The claim as it is worded: same length, every element in [0,1],
    every finite element min-max scaled over the finite elements, every
    other element replaced by 0.5. *)
Definition scales_every_finite_element (norm : list number -> list number) : Prop :=
  forall arr : list number, numbers arr ->
    let finite := filter isFinite arr in
    length (norm arr) = length arr /\
    Forall unit_interval (norm arr) /\
    forall i v, nth_error arr i = Some v ->
      (isFinite v = true ->
       nth_error (norm arr) i
       = Some (min_max_scaled (Math_min finite) (Math_max finite) v)) /\
      (isFinite v = false -> nth_error (norm arr) i = Some (lit 5 10)).

(** What [norm] does: a finite element is scaled only when the finite
    elements are not all equal and the scaled value is finite. *)
Definition scales_or_substitutes (norm : list number -> list number) : Prop :=
  forall arr : list number, numbers arr ->
    let finite := filter isFinite arr in
    let mn := Math_min finite in
    let mx := Math_max finite in
    length (norm arr) = length arr /\
    Forall unit_interval (norm arr) /\
    forall i v, nth_error arr i = Some v ->
      (isFinite v = false -> nth_error (norm arr) i = Some (lit 5 10)) /\
      (isFinite v = true -> strict_eq mn mx = false ->
       isFinite (min_max_scaled mn mx v) = true ->
       nth_error (norm arr) i = Some (min_max_scaled mn mx v)) /\
      (isFinite v = true ->
       strict_eq mn mx = true \/ isFinite (min_max_scaled mn mx v) = false ->
       nth_error (norm arr) i = Some (lit 5 10)).


(** Either zero. *)
Definition is_zero (x : number) : bool :=
  match x with S754_zero _ => true | _ => false end.


(** The largest finite double, [Number.MAX_VALUE]. *)
Definition MAX_VALUE : number := S754_finite false 9007199254740991 971.

(** A series without NaN or an infinity. *)
Definition finite_series (l : list number) : Prop :=
  Forall (fun v => isFinite v = true) l.

(** The normalized coordinates of the first 64 states of the trajectory. *)
Definition first64_xs : list number :=
  LorenzFunky.norm
    (map px (LorenzFunky.lorenz (Some 64%nat) (Some (lit 1 100)) None None None)).
Definition first64_ys : list number :=
  LorenzFunky.norm
    (map py (LorenzFunky.lorenz (Some 64%nat) (Some (lit 1 100)) None None None)).

(** ** Definitions for the further properties *)

(** A state with a NaN coordinate. *)
Definition has_nan (p : point) : Prop :=
  px p = NaN \/ py p = NaN \/ pz p = NaN.

(** The state whose three coordinates are NaN. *)
Definition nan_state : point := Point NaN NaN NaN.

(** The clamp [clampArr] applies to each sanitized element. *)
Definition clamp_between (lo hi v : number) : number :=
  Math_max [lo; Math_min [hi; v]].

(** [arr.filter((_, i) => i % k === 0)] by counting down to the next
    index kept. *)
Fixpoint take_every (k c : nat) {A : Type} (l : list A) : list A :=
  match l with
  | [] => []
  | v :: l' =>
      match c with
      | O => v :: take_every k (k - 1) l'
      | S c' => take_every k c' l'
      end
  end.

(** A whole MIDI note between 36 and [hi] whose pitch class is a degree
    of the C minor pentatonic scale. *)
Definition midi_in_scale (hi : Z) (n : number) : Prop :=
  exists z : Z, n = of_Z z /\ 36 <= z <= hi /\ In (z mod 12) [0; 3; 5; 7; 10].

(** What reading an array can give: nothing, or one of its elements. *)
Definition reads (arr : list number) : list (option number) :=
  None :: map Some arr.

(** Every note the mapping can compute, from every pair of reads. *)
Definition possible_notes : list number :=
  map (fun os => (of_Z 48 + to_number (fst os) + to_number (snd os))%js)
      (list_prod (reads LorenzFunky.octaves) (reads LorenzFunky.scale)).




(** * Properties *)

(** The arithmetic is evaluated only on closed terms, by [vm_compute]. *)
#[global] Opaque add sub mul div Math_sqrt of_Z lit.

(** ** The number model on known values *)

(** 0.1 is 0x3FB999999999999A and 0.1 + 0.2 is 0.30000000000000004,
    one unit in the last place above 0.3. *)
Example decimal_literals :
  lit 1 10 = S754_finite false 7205759403792794 (-56) /\
  (lit 1 10 + lit 2 10)%js = S754_finite false 5404319552844596 (-54) /\
  lit 3 10 = S754_finite false 5404319552844595 (-54).
Proof. repeat split; vm_compute; reflexivity. Qed.

Example floor_and_round :
  Math_floor (lit 25 10) = of_Z 2 /\ Math_floor (lit (-25) 10) = of_Z (-3) /\
  Math_floor (lit 1 10) = S754_zero false /\ Math_floor (of_Z (-3)) = of_Z (-3) /\
  Math_round (lit 25 10) = of_Z 3 /\ Math_round (lit (-25) 10) = of_Z (-2) /\
  Math_round (lit (-4) 10) = S754_zero true /\ Math_round (lit 24 10) = of_Z 2.
Proof. repeat split; vm_compute; reflexivity. Qed.

Example min_max_of_special_values :
  Math_min [] = Infinity /\ Math_max [] = neg_Infinity /\
  Math_min [of_Z 1; NaN] = NaN /\
  Math_min [S754_zero false; S754_zero true] = S754_zero true /\
  Math_max [S754_zero true; S754_zero false] = S754_zero false /\
  Math_max [of_Z 36; Math_min [of_Z 96; of_Z 1000]] = of_Z 96.
Proof. repeat split; vm_compute; reflexivity. Qed.

Example array_reads :
  get [of_Z 10; of_Z 20] (of_Z 1) = Some (of_Z 20) /\
  get [of_Z 10; of_Z 20] (S754_zero true) = Some (of_Z 10) /\
  get [of_Z 10; of_Z 20] (of_Z 2) = None /\
  get [of_Z 10; of_Z 20] (lit 5 10) = None /\
  get [of_Z 10; of_Z 20] NaN = None /\
  (of_Z 48 + to_number None)%js = NaN.
Proof. repeat split; vm_compute; reflexivity. Qed.

(** ** The integrator *)

Section LoopFacts.
Variables dt sigma rho beta : number.

Lemma funky_body_is_classic (x y z : number) :
  LorenzFunky.body dt sigma rho beta x y z
  = RK4.classic_update (RK4.lorenz_field sigma rho beta) dt (Point x y z).
Proof.
  cbv [LorenzFunky.body LorenzFunky.dx LorenzFunky.dy LorenzFunky.dz
       RK4.classic_update RK4.lorenz_field RK4.vadd RK4.vscale px py pz].
  reflexivity.
Qed.

Lemma part000_body_is_classic (x y z : number) :
  Part000.body dt sigma rho beta x y z
  = RK4.classic_update (RK4.lorenz_field sigma rho beta) dt (Point x y z).
Proof.
  cbv [Part000.body Part000.dx Part000.dy Part000.dz
       RK4.classic_update RK4.lorenz_field RK4.vadd RK4.vscale px py pz].
  reflexivity.
Qed.

(** The loop appends to what was already pushed the orbit of the
    state it starts from. *)
Lemma funky_loop_orbit (n : nat) : forall x y z pts,
  LorenzFunky.loop dt sigma rho beta n x y z pts
  = pts ++ RK4.orbit dt sigma rho beta n (Point x y z).
Proof.
  induction n as [|n IH]; intros x y z pts; cbn [LorenzFunky.loop RK4.orbit].
  - now rewrite app_nil_r.
  - rewrite IH, <- app_assoc, funky_body_is_classic. cbn [app].
    now destruct (RK4.classic_update _ _ _).
Qed.

Lemma part000_loop_orbit (n : nat) : forall x y z pts,
  Part000.loop dt sigma rho beta n x y z pts
  = pts ++ RK4.orbit dt sigma rho beta n (Point x y z).
Proof.
  induction n as [|n IH]; intros x y z pts; cbn [Part000.loop RK4.orbit].
  - now rewrite app_nil_r.
  - rewrite IH, <- app_assoc, part000_body_is_classic. cbn [app].
    now destruct (RK4.classic_update _ _ _).
Qed.

Lemma orbit_length (n : nat) : forall s,
  length (RK4.orbit dt sigma rho beta n s) = n.
Proof. induction n; intros s; cbn [RK4.orbit length]; auto. Qed.

Lemma orbit_head (n : nat) (s : point) :
  (1 <= n)%nat ->
  nth_error (RK4.orbit dt sigma rho beta n s) 0
  = Some (RK4.classic_update (RK4.lorenz_field sigma rho beta) dt s).
Proof. destruct n; [lia | reflexivity]. Qed.

Lemma orbit_succ (n : nat) : forall s i prev,
  (1 <= i < n)%nat ->
  nth_error (RK4.orbit dt sigma rho beta n s) (i - 1) = Some prev ->
  nth_error (RK4.orbit dt sigma rho beta n s) i
  = Some (RK4.classic_update (RK4.lorenz_field sigma rho beta) dt prev).
Proof.
  induction n as [|n IH]; intros s i prev Hi Hprev; [lia|].
  destruct i as [|[|i]]; [lia| |].
  - cbn [RK4.orbit Nat.sub nth_error] in Hprev. injection Hprev as <-.
    cbn [RK4.orbit nth_error]. apply orbit_head. lia.
  - cbn [RK4.orbit Nat.sub nth_error] in Hprev.
    change (nth_error (RK4.orbit dt sigma rho beta n
              (RK4.classic_update (RK4.lorenz_field sigma rho beta) dt s)) (S i)
            = Some (RK4.classic_update (RK4.lorenz_field sigma rho beta) dt prev)).
    apply IH; [lia|]. now replace (S i - 1)%nat with i by lia.
Qed.

Lemma orbit_follows_rk4 (n : nat) :
  (1 <= n)%nat ->
  RK4.follows_rk4 (RK4.orbit dt sigma rho beta n RK4.initial) n dt sigma rho beta.
Proof.
  intros Hn. split.
  - now apply orbit_head.
  - intros i prev Hi Hprev. now apply orbit_succ.
Qed.
End LoopFacts.

Lemma funky_lorenz_orbit (N : nat) (h sigma rho beta : number) :
  LorenzFunky.lorenz (Some N) (Some h) (Some sigma) (Some rho) (Some beta)
  = RK4.orbit h sigma rho beta N RK4.initial.
Proof.
  unfold LorenzFunky.lorenz. cbn [default_arg].
  now rewrite funky_loop_orbit.
Qed.

Lemma part000_lorenz_orbit (N : nat) (h sigma rho beta : number) :
  Part000.lorenz (Some N) (Some h) (Some sigma) (Some rho) (Some beta)
  = RK4.orbit h sigma rho beta N RK4.initial.
Proof.
  unfold Part000.lorenz. cbn [default_arg].
  now rewrite part000_loop_orbit.
Qed.

(** C2: for every step count [N >= 1], step size and constants, the
    first state of the trajectory of [lorenz] is the classic four-stage
    Runge-Kutta update of the initial condition (1,1,1) along the
    Lorenz field, and every later state is that update of the state
    before it; in both scripts. *)
Theorem lorenz_is_rk4 (N : nat) (h sigma rho beta : number) :
  (1 <= N)%nat ->
  RK4.follows_rk4
    (LorenzFunky.lorenz (Some N) (Some h) (Some sigma) (Some rho) (Some beta))
    N h sigma rho beta /\
  RK4.follows_rk4
    (Part000.lorenz (Some N) (Some h) (Some sigma) (Some rho) (Some beta))
    N h sigma rho beta.
Proof.
  intros HN. rewrite funky_lorenz_orbit, part000_lorenz_orbit.
  split; now apply orbit_follows_rk4.
Qed.

Lemma lorenz_is_rk4_witness :
  RK4.follows_rk4
    (LorenzFunky.lorenz (Some 3%nat) (Some (lit 1 100)) (Some (of_Z 10))
                        (Some (of_Z 28)) (Some (lit 8 3)))
    3 (lit 1 100) (of_Z 10) (of_Z 28) (lit 8 3) /\
  RK4.follows_rk4
    (Part000.lorenz (Some 3%nat) (Some (lit 1 100)) (Some (of_Z 10))
                    (Some (of_Z 28)) (Some (lit 8 3)))
    3 (lit 1 100) (of_Z 10) (of_Z 28) (lit 8 3).
Proof.
  exact (lorenz_is_rk4 3 (lit 1 100) (of_Z 10) (of_Z 28) (lit 8 3)
           (le_S _ _ (le_S _ _ (le_n 1)))).
Defined.

Lemma funky_lorenz_default (steps : option nat) (dt sigma rho beta : option number) :
  LorenzFunky.lorenz steps dt sigma rho beta
  = RK4.orbit (default_arg dt (lit 1 100)) (default_arg sigma (of_Z 10))
      (default_arg rho (of_Z 28)) (default_arg beta (of_Z 8 / of_Z 3)%js)
      (default_arg steps 4096%nat) RK4.initial.
Proof. unfold LorenzFunky.lorenz. now rewrite funky_loop_orbit. Qed.

Lemma part000_lorenz_default (steps : option nat) (dt sigma rho beta : option number) :
  Part000.lorenz steps dt sigma rho beta
  = RK4.orbit (default_arg dt (lit 1 100)) (default_arg sigma (of_Z 10))
      (default_arg rho (of_Z 28)) (default_arg beta (of_Z 8 / of_Z 3)%js)
      (default_arg steps 1536%nat) RK4.initial.
Proof. unfold Part000.lorenz. now rewrite part000_loop_orbit. Qed.

(** C6: for every step count [N], whatever the other arguments (given
    or defaulted), [lorenz] returns exactly [N] states, and none for 0
    steps; in both scripts. *)
Theorem lorenz_length (N : nat) (dt sigma rho beta : option number) :
  length (LorenzFunky.lorenz (Some N) dt sigma rho beta) = N /\
  length (Part000.lorenz (Some N) dt sigma rho beta) = N /\
  LorenzFunky.lorenz (Some 0%nat) dt sigma rho beta = [] /\
  Part000.lorenz (Some 0%nat) dt sigma rho beta = [].
Proof.
  rewrite !funky_lorenz_default, !part000_lorenz_default.
  cbn [default_arg]. rewrite !orbit_length. now cbn [RK4.orbit].
Qed.

(** C7: two invocations of [lorenz] with the same step count, step
    size and constants return the same trajectory, hence the same first
    state; with the documented constants that first state is the fixed
    value [first_state]; in both scripts. *)
Theorem lorenz_deterministic
    (steps steps' : option nat) (dt dt' sigma sigma' rho rho' beta beta' : option number) :
  steps = steps' -> dt = dt' -> sigma = sigma' -> rho = rho' -> beta = beta' ->
  (LorenzFunky.lorenz steps dt sigma rho beta
   = LorenzFunky.lorenz steps' dt' sigma' rho' beta' /\
   nth_error (LorenzFunky.lorenz steps dt sigma rho beta) 0
   = nth_error (LorenzFunky.lorenz steps' dt' sigma' rho' beta') 0) /\
  (Part000.lorenz steps dt sigma rho beta
   = Part000.lorenz steps' dt' sigma' rho' beta' /\
   nth_error (Part000.lorenz steps dt sigma rho beta) 0
   = nth_error (Part000.lorenz steps' dt' sigma' rho' beta') 0) /\
  nth_error (LorenzFunky.lorenz None None None None None) 0 = Some first_state /\
  nth_error (Part000.lorenz None None None None None) 0 = Some first_state.
Proof.
  intros -> -> -> -> ->.
  split; [split; reflexivity|]. split; [split; reflexivity|]. split.
  - rewrite funky_lorenz_default. cbn [default_arg RK4.orbit nth_error].
    vm_compute. reflexivity.
  - rewrite part000_lorenz_default. cbn [default_arg RK4.orbit nth_error].
    vm_compute. reflexivity.
Qed.

Lemma lorenz_deterministic_witness :
  LorenzFunky.lorenz (Some 2%nat) (Some (lit 1 100)) None None None
  = LorenzFunky.lorenz (Some 2%nat) (Some (lit 1 100)) None None None.
Proof.
  exact (proj1 (proj1 (lorenz_deterministic
           (Some 2%nat) (Some 2%nat) (Some (lit 1 100)) (Some (lit 1 100))
           None None None None None None
           eq_refl eq_refl eq_refl eq_refl eq_refl))).
Defined.

(** C10: given a step count, the integrators of the two scripts return
    the same trajectory for every step size and constants, given or
    defaulted; without one they run their own default, 4096 steps
    against 1536. *)
Theorem lorenz_same_in_both (N : nat) (dt sigma rho beta : option number) :
  LorenzFunky.lorenz (Some N) dt sigma rho beta
  = Part000.lorenz (Some N) dt sigma rho beta /\
  LorenzFunky.lorenz None dt sigma rho beta
  = Part000.lorenz (Some 4096%nat) dt sigma rho beta /\
  Part000.lorenz None dt sigma rho beta
  = LorenzFunky.lorenz (Some 1536%nat) dt sigma rho beta /\
  length (LorenzFunky.lorenz None dt sigma rho beta) = 4096%nat /\
  length (Part000.lorenz None dt sigma rho beta) = 1536%nat.
Proof.
  rewrite !funky_lorenz_default, !part000_lorenz_default.
  cbn [default_arg]. rewrite !orbit_length. auto.
Qed.

(** ** Arrays *)

Lemma mapi_from_length {A B : Type} (f : A -> nat -> B) (l : list A) :
  forall k, length (mapi_from k f l) = length l.
Proof. induction l as [|v l IH]; intros k; cbn [mapi_from length]; auto. Qed.

Lemma mapi_length {A B : Type} (f : A -> nat -> B) (l : list A) :
  length (mapi f l) = length l.
Proof. apply mapi_from_length. Qed.

Lemma mapi_from_nth {A B : Type} (f : A -> nat -> B) (l : list A) :
  forall k i, nth_error (mapi_from k f l) i
              = option_map (fun v => f v (k + i)%nat) (nth_error l i).
Proof.
  induction l as [|v l IH]; intros k i.
  - now destruct i.
  - destruct i as [|i]; cbn [mapi_from nth_error option_map].
    + now rewrite Nat.add_0_r.
    + rewrite IH. now rewrite Nat.add_succ_r.
Qed.

Lemma mapi_nth {A B : Type} (f : A -> nat -> B) (l : list A) (i : nat) :
  nth_error (mapi f l) i = option_map (fun v => f v i) (nth_error l i).
Proof. unfold mapi. now rewrite mapi_from_nth. Qed.

Lemma funky_diff_spec (arr : list number) :
  first_differences arr (LorenzFunky.diff arr).
Proof.
  unfold first_differences, LorenzFunky.diff. split; [apply mapi_length|]. split.
  - intros Hne. rewrite mapi_nth. destruct arr; [contradiction | reflexivity].
  - intros i a b Hi Ha Hb. rewrite mapi_nth, Ha. cbn [option_map].
    destruct i as [|j]; [lia|].
    replace (S j - 1)%nat with j in Hb by lia. now rewrite Hb.
Qed.

Lemma part000_diff_spec (arr : list number) :
  first_differences arr (Part000.diff arr).
Proof.
  unfold first_differences, Part000.diff. split; [apply mapi_length|]. split.
  - intros Hne. rewrite mapi_nth. destruct arr; [contradiction | reflexivity].
  - intros i a b Hi Ha Hb. rewrite mapi_nth, Ha. cbn [option_map].
    destruct i as [|j]; [lia|].
    replace (S j - 1)%nat with j in Hb by lia. now rewrite Hb.
Qed.

(** C5: for every array, [diff] returns an array of the same length
    whose first element, if there is one, is zero and whose element at
    every index [i >= 1] is [arr[i] - arr[i-1]]; in both scripts. *)
Theorem diff_first_differences (arr : list number) :
  first_differences arr (LorenzFunky.diff arr) /\
  first_differences arr (Part000.diff arr).
Proof. split; [apply funky_diff_spec | apply part000_diff_spec]. Qed.

Lemma diff_first_differences_witness :
  nth_error (LorenzFunky.diff [of_Z 1; of_Z 4; of_Z 9]) 2 = Some (of_Z 9 - of_Z 4)%js.
Proof.
  refine (proj2 (proj2 (proj1 (diff_first_differences [of_Z 1; of_Z 4; of_Z 9])))
            2%nat (of_Z 9) (of_Z 4) _ _ _).
  - lia.
  - reflexivity.
  - reflexivity.
Defined.

(** ** The order of numbers *)

Lemma SFcompare_rank (x y : number) :
  is_nan x = false -> is_nan y = false ->
  match SFcompare x y with
  | Some Lt => rank_lt (rank x) (rank y)
  | Some Eq => rank x = rank y
  | Some Gt => rank_lt (rank y) (rank x)
  | None => False
  end.
Proof.
  intros Hx Hy.
  destruct x as [sx|sx| |sx mx ex], y as [sy|sy| |sy my ey];
    try discriminate; try destruct sx; try destruct sy;
    cbn [SFcompare rank rank_lt]; try lia; try reflexivity.
  all: change (Pos.compare_cont Eq mx my) with (mx ?= my)%positive.
  all: destruct (Z.compare_spec ex ey); cbn [CompOpp rank_lt]; try lia.
  all: destruct (Pos.compare_spec mx my); cbn [CompOpp rank_lt]; subst; try lia;
       reflexivity.
Qed.

Lemma lt_rank (x y : number) :
  is_nan x = false -> is_nan y = false ->
  (lt x y = true <-> rank_lt (rank x) (rank y)).
Proof.
  intros Hx Hy. pose proof (SFcompare_rank x y Hx Hy) as H.
  unfold lt, SFltb. destruct (SFcompare x y) as [[| |]|]; try contradiction.
  - split; [discriminate|]. rewrite H. destruct (rank y) as [[a b] c].
    cbn [rank_lt]. lia.
  - tauto.
  - split; [discriminate|]. revert H.
    destruct (rank x) as [[a b] c], (rank y) as [[a' b'] c']. cbn [rank_lt]. lia.
Qed.

Lemma le_rank (x y : number) :
  is_nan x = false -> is_nan y = false ->
  (le x y = true <-> rank_lt (rank x) (rank y) \/ rank x = rank y).
Proof.
  intros Hx Hy. pose proof (SFcompare_rank x y Hx Hy) as H.
  unfold le, SFleb. destruct (SFcompare x y) as [[| |]|]; try contradiction.
  - tauto.
  - tauto.
  - split; [discriminate|]. revert H.
    destruct (rank x) as [[a b] c], (rank y) as [[a' b'] c']. cbn [rank_lt].
    intros H [H'|H']; [lia | injection H' as -> -> ->; lia].
Qed.

Lemma le_not_nan (x y : number) :
  le x y = true -> is_nan x = false /\ is_nan y = false.
Proof. now destruct x as [| | |[]], y as [| | |[]]. Qed.

Lemma lt_not_nan (x y : number) :
  lt x y = true -> is_nan x = false /\ is_nan y = false.
Proof. now destruct x as [| | |[]], y as [| | |[]]. Qed.

Lemma le_refl (x : number) : is_nan x = false -> le x x = true.
Proof. intros H. apply le_rank; auto. Qed.

Lemma lt_le (x y : number) : lt x y = true -> le x y = true.
Proof.
  intros H. destruct (lt_not_nan _ _ H) as [Hx Hy].
  apply le_rank; auto. left. now apply lt_rank.
Qed.

Lemma not_lt_le (x y : number) :
  is_nan x = false -> is_nan y = false -> lt x y = false -> le y x = true.
Proof.
  intros Hx Hy H. apply le_rank; auto.
  assert (Hn : ~ rank_lt (rank x) (rank y)).
  { intros Hlt. apply (lt_rank x y Hx Hy) in Hlt. congruence. }
  revert Hn. destruct (rank x) as [[a b] c], (rank y) as [[a' b'] c'].
  cbn [rank_lt]. intros Hn.
  destruct (Z.eq_dec a a'), (Z.eq_dec b b'), (Z.eq_dec c c'); subst;
    try (right; reflexivity); left; lia.
Qed.

Lemma le_trans (x y z : number) : le x y = true -> le y z = true -> le x z = true.
Proof.
  intros Hxy Hyz.
  destruct (le_not_nan _ _ Hxy) as [Hx Hy], (le_not_nan _ _ Hyz) as [_ Hz].
  apply le_rank in Hxy; auto. apply le_rank in Hyz; auto. apply le_rank; auto.
  revert Hxy Hyz.
  destruct (rank x) as [[a b] c], (rank y) as [[a' b'] c'], (rank z) as [[a'' b''] c''].
  cbn [rank_lt]. intros [H1|H1] [H2|H2];
    try (injection H1 as -> -> ->); try (injection H2 as -> -> ->);
    try (right; reflexivity); left; lia.
Qed.

(** A number between two finite numbers is finite. *)
Lemma between_finite (lo v hi : number) :
  isFinite lo = true -> isFinite hi = true ->
  le lo v = true -> le v hi = true -> isFinite v = true.
Proof.
  destruct lo as [| | |[]], hi as [| | |[]], v as [|[]| |]; try discriminate;
    reflexivity.
Qed.

Lemma finite_not_nan (x : number) : isFinite x = true -> is_nan x = false.
Proof. now destruct x. Qed.

(** ** [Math.min] and [Math.max] *)

Lemma existsb_nan_false (l : list number) :
  existsb is_nan l = false <-> Forall (fun v => is_nan v = false) l.
Proof.
  induction l as [|v l IH]; cbn [existsb].
  - split; auto.
  - rewrite orb_false_iff, IH. split.
    + intros [H1 H2]. now constructor.
    + intros H. now inversion H.
Qed.

Lemma min_step_cases (lowest n : number) :
  is_nan lowest = false -> is_nan n = false ->
  (min_step lowest n = lowest \/ min_step lowest n = n) /\
  le (min_step lowest n) lowest = true /\ le (min_step lowest n) n = true.
Proof.
  intros Hl Hn. unfold min_step.
  destruct (is_neg_zero n && is_pos_zero lowest) eqn:Hz; cbn [orb].
  - split; [now right|]. split; [|now apply le_refl].
    now destruct n as [[]| | |], lowest as [[]| | |].
  - destruct (lt n lowest) eqn:Hlt.
    + split; [now right|]. split; [now apply lt_le | now apply le_refl].
    + split; [now left|]. split; [now apply le_refl | now apply not_lt_le].
Qed.

Lemma max_step_cases (highest n : number) :
  is_nan highest = false -> is_nan n = false ->
  (max_step highest n = highest \/ max_step highest n = n) /\
  le highest (max_step highest n) = true /\ le n (max_step highest n) = true.
Proof.
  intros Hh Hn. unfold max_step.
  destruct (is_pos_zero n && is_neg_zero highest) eqn:Hz; cbn [orb].
  - split; [now right|]. split; [|now apply le_refl].
    now destruct n as [[]| | |], highest as [[]| | |].
  - destruct (lt highest n) eqn:Hlt.
    + split; [now right|]. split; [now apply lt_le | now apply le_refl].
    + split; [now left|]. split; [now apply le_refl | now apply not_lt_le].
Qed.

Lemma fold_min_spec (l : list number) : forall acc,
  is_nan acc = false -> Forall (fun v => is_nan v = false) l ->
  let r := fold_left min_step l acc in
  (r = acc \/ In r l) /\ le r acc = true /\ Forall (fun v => le r v = true) l.
Proof.
  induction l as [|n l IH]; intros acc Hacc Hl; cbn [fold_left].
  - split; [now left|]. split; [now apply le_refl | constructor].
  - inversion Hl as [|? ? Hn Hl']; subst.
    destruct (min_step_cases acc n Hacc Hn) as [Hc [H1 H2]].
    assert (Hs : is_nan (min_step acc n) = false) by (destruct Hc as [-> | ->]; auto).
    destruct (IH (min_step acc n) Hs Hl') as [Hin [Hle Hall]].
    split; [|split].
    + destruct Hin as [Hin|Hin]; [|right; now right].
      rewrite Hin. destruct Hc as [-> | ->]; [now left | right; now left].
    + eapply le_trans; eauto.
    + constructor; [eapply le_trans; eauto | exact Hall].
Qed.

Lemma fold_max_spec (l : list number) : forall acc,
  is_nan acc = false -> Forall (fun v => is_nan v = false) l ->
  let r := fold_left max_step l acc in
  (r = acc \/ In r l) /\ le acc r = true /\ Forall (fun v => le v r = true) l.
Proof.
  induction l as [|n l IH]; intros acc Hacc Hl; cbn [fold_left].
  - split; [now left|]. split; [now apply le_refl | constructor].
  - inversion Hl as [|? ? Hn Hl']; subst.
    destruct (max_step_cases acc n Hacc Hn) as [Hc [H1 H2]].
    assert (Hs : is_nan (max_step acc n) = false) by (destruct Hc as [-> | ->]; auto).
    destruct (IH (max_step acc n) Hs Hl') as [Hin [Hle Hall]].
    split; [|split].
    + destruct Hin as [Hin|Hin]; [|right; now right].
      rewrite Hin. destruct Hc as [-> | ->]; [now left | right; now left].
    + eapply le_trans; eauto.
    + constructor; [eapply le_trans; eauto | exact Hall].
Qed.

Lemma Forall_finite_not_nan (l : list number) :
  Forall (fun v => isFinite v = true) l -> Forall (fun v => is_nan v = false) l.
Proof. apply Forall_impl. intros v. apply finite_not_nan. Qed.

(** The minimum of a non-empty list of finite numbers is one of them
    and is below all of them. *)
Lemma Math_min_spec (l : list number) :
  l <> [] -> Forall (fun v => isFinite v = true) l ->
  In (Math_min l) l /\ Forall (fun v => le (Math_min l) v = true) l.
Proof.
  intros Hne Hfin. pose proof (Forall_finite_not_nan l Hfin) as Hnn.
  unfold Math_min. rewrite (proj2 (existsb_nan_false l) Hnn).
  destruct (fold_min_spec l Infinity eq_refl Hnn) as [Hin [_ Hall]].
  split; [|exact Hall].
  destruct Hin as [Heq|Hin]; [|exact Hin]. exfalso.
  destruct l as [|v l]; [contradiction|].
  inversion Hall as [|? ? Hv _]; subst. inversion Hfin as [|? ? Hf _]; subst.
  rewrite Heq in Hv. now destruct v as [| | |[]].
Qed.

Lemma Math_max_spec (l : list number) :
  l <> [] -> Forall (fun v => isFinite v = true) l ->
  In (Math_max l) l /\ Forall (fun v => le v (Math_max l) = true) l.
Proof.
  intros Hne Hfin. pose proof (Forall_finite_not_nan l Hfin) as Hnn.
  unfold Math_max. rewrite (proj2 (existsb_nan_false l) Hnn).
  destruct (fold_max_spec l neg_Infinity eq_refl Hnn) as [Hin [_ Hall]].
  split; [|exact Hall].
  destruct Hin as [Heq|Hin]; [|exact Hin]. exfalso.
  destruct l as [|v l]; [contradiction|].
  inversion Hall as [|? ? Hv _]; subst. inversion Hfin as [|? ? Hf _]; subst.
  rewrite Heq in Hv. now destruct v as [| | |[]].
Qed.

(** ** Clamping *)

(** The two steps of a clamp, on numbers other than NaN: the minimum
    is one of its arguments and below both, the maximum one of its
    arguments and above both. *)
Lemma clamp_cases (lo hi v : number) :
  is_nan lo = false -> is_nan hi = false -> is_nan v = false ->
  let m := Math_min [hi; v] in
  let r := Math_max [lo; m] in
  (m = hi \/ m = v) /\ le m hi = true /\ le m v = true /\
  (r = lo \/ r = m) /\ le lo r = true /\ le m r = true.
Proof.
  intros Nlo Nhi Nv m r.
  assert (Hm : (m = hi \/ m = v) /\ le m hi = true /\ le m v = true).
  { unfold m, Math_min. cbn [existsb]. rewrite Nhi, Nv. cbn [orb fold_left].
    assert (E : min_step Infinity hi = hi)
      by (clear - Nhi; destruct hi as [[]|[]| |[] ? ?]; (discriminate || reflexivity)).
    rewrite E. apply min_step_cases; auto. }
  destruct Hm as [Hmc [Hmhi Hmv]].
  assert (Nm : is_nan m = false) by (destruct Hmc as [-> | ->]; auto).
  assert (Hr : (r = lo \/ r = m) /\ le lo r = true /\ le m r = true).
  { unfold r, Math_max. cbn [existsb]. rewrite Nlo, Nm. cbn [orb fold_left].
    assert (E : max_step neg_Infinity lo = lo)
      by (clear - Nlo; destruct lo as [[]|[]| |[] ? ?]; (discriminate || reflexivity)).
    rewrite E. apply max_step_cases; auto. }
  tauto.
Qed.

(** A number other than NaN and an infinity is finite when it lies on
    the finite side of a finite number. *)
Lemma finite_below (x v : number) :
  x <> neg_Infinity -> isFinite v = true -> le x v = true -> isFinite x = true.
Proof.
  intros Hx Hv Hle. destruct x as [|[]| |]; try reflexivity; try contradiction.
  - now destruct v as [| | |[]].
  - discriminate.
Qed.

Lemma finite_above (x v : number) :
  x <> Infinity -> isFinite v = true -> le v x = true -> isFinite x = true.
Proof.
  intros Hx Hv Hle. destruct x as [|[]| |]; try reflexivity; try contradiction.
  - now destruct v as [| | |[]].
  - now destruct v as [| | |[]].
Qed.

(** Clamping a finite number between bounds [lo <= hi] other than the
    same infinity twice. *)
Lemma clamp_within (lo hi v : number) :
  le lo hi = true -> lo <> Infinity -> hi <> neg_Infinity ->
  isFinite v = true ->
  within lo hi (Math_max [lo; Math_min [hi; v]]).
Proof.
  intros Hle Hlo Hhi Hv.
  destruct (le_not_nan _ _ Hle) as [Nlo Nhi].
  destruct (clamp_cases lo hi v Nlo Nhi (finite_not_nan _ Hv))
    as [Hmc [Hmhi [Hmv [Hrc [Hlor Hmr]]]]].
  set (m := Math_min [hi; v]) in *. set (r := Math_max [lo; m]) in *.
  assert (Hmf : isFinite m = true).
  { destruct Hmc as [E|E]; rewrite E in *; [|exact Hv].
    now apply (finite_below hi v). }
  split; [|split].
  - destruct Hrc as [E|E]; rewrite E in *; [|exact Hmf].
    now apply (finite_above lo m).
  - exact Hlor.
  - destruct Hrc as [E|E]; rewrite E; assumption.
Qed.

Lemma safeNum_finite (v def : number) :
  isFinite def = true ->
  isFinite (LorenzFunky.safeNum v (Some def)) = true /\
  isFinite (Part000.safeNum v (Some def)) = true.
Proof.
  intros Hd. unfold LorenzFunky.safeNum, Part000.safeNum. cbn [default_arg].
  destruct (isFinite v) eqn:Hv; auto.
Qed.

Lemma of_Z_0_finite : isFinite (of_Z 0) = true.
Proof. vm_compute. reflexivity. Qed.

Lemma funky_clampArr_within (arr : value) (lo hi : number) :
  le lo hi = true -> lo <> Infinity -> hi <> neg_Infinity ->
  Forall (within lo hi) (LorenzFunky.clampArr arr lo hi).
Proof.
  intros Hle Hlo Hhi. unfold LorenzFunky.clampArr, LorenzFunky.safeArr.
  cbn [default_arg]. rewrite map_map. apply Forall_forall.
  intros r Hr. apply in_map_iff in Hr. destruct Hr as [v [<- _]].
  apply clamp_within; auto. apply safeNum_finite, of_Z_0_finite.
Qed.

Lemma part000_clampArr_within (arr : value) (lo hi : number) :
  le lo hi = true -> lo <> Infinity -> hi <> neg_Infinity ->
  Forall (within lo hi) (Part000.clampArr arr lo hi).
Proof.
  intros Hle Hlo Hhi. unfold Part000.clampArr, Part000.safeArr.
  cbn [default_arg]. rewrite map_map. apply Forall_forall.
  intros r Hr. apply in_map_iff in Hr. destruct Hr as [v [<- _]].
  apply clamp_within; auto. apply safeNum_finite, of_Z_0_finite.
Qed.

Ltac literal_bounds := vm_compute; first [reflexivity | discriminate].

(** C1, as stated, fails: between the bounds [Infinity <= Infinity] the
    clamp of 0 is [Infinity], which is not finite; in both scripts. *)
Lemma clampArr_not_finite_between_infinities :
  ~ clamps_between_all_bounds LorenzFunky.clampArr /\
  ~ clamps_between_all_bounds Part000.clampArr.
Proof.
  assert (H : forall clampArr,
             clampArr (Arr [of_Z 0]) Infinity Infinity = [Infinity] ->
             ~ clamps_between_all_bounds clampArr).
  { intros clampArr E H. specialize (H (Arr [of_Z 0]) Infinity Infinity eq_refl).
    rewrite E in H. inversion H as [|? ? [Hfin _] _]. discriminate. }
  split; apply H; vm_compute; reflexivity.
Qed.

(** C1, amended: for every array (or single value) [arr], whatever
    non-finite entries it has, and bounds [lo <= hi] other than the
    same infinity twice (between which no finite number lies), every
    element of [clampArr(arr, lo, hi)] is a finite number between [lo]
    and [hi]; hence so is every element of every numeric series either
    script hands to the playback engine, for its declared bounds. *)
Theorem clamped_series_within_bounds :
  (forall (arr : value) (lo hi : number),
      le lo hi = true -> lo <> Infinity -> hi <> neg_Infinity ->
      Forall (within lo hi) (LorenzFunky.clampArr arr lo hi) /\
      Forall (within lo hi) (Part000.clampArr arr lo hi)) /\
  (forall Math_sin Math_atan2 Math_pow,
      all_within (LorenzFunky.handed_off Math_sin Math_atan2 Math_pow)) /\
  (forall Math_pow, all_within (Part000.handed_off Math_pow)).
Proof.
  split; [|split].
  - intros arr lo hi Hle Hlo Hhi.
    split; [now apply funky_clampArr_within | now apply part000_clampArr_within].
  - intros Math_sin Math_atan2 Math_pow.
    unfold all_within, LorenzFunky.handed_off, LorenzFunky.NOTES_SAFE,
      LorenzFunky.CUT_SAFE, LorenzFunky.PAN_SAFE, LorenzFunky.GAIN_SAFE,
      LorenzFunky.PAD_NOTES_SAFE, LorenzFunky.PAD_CUT_SAFE.
    repeat (apply Forall_cons;
            [cbn [fst snd]; apply funky_clampArr_within; literal_bounds|]).
    apply Forall_nil.
  - intros Math_pow.
    unfold all_within, Part000.handed_off, Part000.NOTES_SAFE, Part000.CUT_SAFE,
      Part000.PAN_SAFE, Part000.GAIN_SAFE, Part000.ROOTS_SAFE, Part000.THIRDS_SAFE,
      Part000.FIFTHS_SAFE.
    repeat (apply Forall_cons;
            [cbn [fst snd]; apply part000_clampArr_within; literal_bounds|]).
    apply Forall_nil.
Qed.

Lemma clamped_series_within_bounds_witness :
  Forall (within (of_Z 36) (of_Z 96))
    (LorenzFunky.clampArr (Arr [NaN; Infinity; of_Z 50; of_Z 1000; of_Z (-5)])
                          (of_Z 36) (of_Z 96)).
Proof.
  refine (proj1 (proj1 clamped_series_within_bounds _ (of_Z 36) (of_Z 96) _ _ _));
    vm_compute; first [reflexivity | discriminate].
Defined.

(** ** Normalization *)

Lemma part000_norm_eq (arr : list number) : Part000.norm arr = LorenzFunky.norm arr.
Proof. reflexivity. Qed.

Lemma filter_finite_all (arr : list number) :
  Forall (fun v => isFinite v = true) (filter isFinite arr).
Proof. apply Forall_forall. intros v Hv. now apply filter_In in Hv. Qed.

Lemma length_zero_nil {A : Type} (l : list A) :
  Nat.eqb (length l) 0 = false -> l <> [].
Proof. now destruct l. Qed.

(** The extrema [norm] computes, when some element is finite, are
    finite elements of the array and bracket every finite element. *)
Lemma extrema_spec (arr : list number) :
  let finite := filter isFinite arr in
  finite <> [] ->
  isFinite (Math_min finite) = true /\ isFinite (Math_max finite) = true /\
  In (Math_min finite) arr /\ In (Math_max finite) arr /\
  forall v, In v arr -> isFinite v = true ->
            le (Math_min finite) v = true /\ le v (Math_max finite) = true.
Proof.
  intros finite Hne. pose proof (filter_finite_all arr) as Hfin. fold finite in Hfin.
  destruct (Math_min_spec finite Hne Hfin) as [Hmin Hminle].
  destruct (Math_max_spec finite Hne Hfin) as [Hmax Hmaxle].
  rewrite Forall_forall in Hminle, Hmaxle.
  split; [|split; [|split; [|split]]].
  - eapply (proj1 (Forall_forall _ _) Hfin); eauto.
  - eapply (proj1 (Forall_forall _ _) Hfin); eauto.
  - now apply filter_In in Hmin.
  - now apply filter_In in Hmax.
  - intros v Hv Hf. assert (In v finite) by (apply filter_In; auto). auto.
Qed.

(** The two shapes of the result of [norm]. *)
Lemma norm_degenerate (arr : list number) :
  let finite := filter isFinite arr in
  finite = [] \/ strict_eq (Math_min finite) (Math_max finite) = true ->
  LorenzFunky.norm arr = map (fun _ => lit 5 10) arr.
Proof.
  intros finite H. unfold LorenzFunky.norm. fold finite.
  destruct (Nat.eqb (length finite) 0) eqn:Hlen; [reflexivity|].
  destruct H as [H|H]; [rewrite H in Hlen; discriminate|].
  now rewrite H.
Qed.

Lemma norm_regular (arr : list number) :
  let finite := filter isFinite arr in
  let mn := Math_min finite in
  let mx := Math_max finite in
  finite <> [] -> strict_eq mn mx = false ->
  LorenzFunky.norm arr
  = map (fun v =>
           if negb (isFinite v) then lit 5 10 else
           let normalized := ((v - mn) / (mx - mn))%js in
           if isFinite normalized then normalized else lit 5 10) arr.
Proof.
  intros finite mn mx Hne Heq. unfold LorenzFunky.norm. fold finite mn mx.
  destruct (Nat.eqb (length finite) 0) eqn:Hlen.
  { destruct finite; [contradiction | discriminate]. }
  destruct (extrema_spec arr Hne) as [Hmn [Hmx _]]. fold finite mn mx in Hmn, Hmx.
  now rewrite Heq, Hmn, Hmx.
Qed.

Lemma strict_eq_refl (x : number) : is_nan x = false -> strict_eq x x = true.
Proof.
  intros H. pose proof (SFcompare_rank x x H H) as Hc.
  unfold strict_eq, SFeqb. destruct (SFcompare x x) as [[| |]|]; auto.
  - exfalso. revert Hc. destruct (rank x) as [[a b] c]. cbn [rank_lt]. lia.
  - exfalso. revert Hc. destruct (rank x) as [[a b] c]. cbn [rank_lt]. lia.
Qed.

Lemma norm_constant (arr : list number) (c : number) :
  Forall (fun v => v = c) arr -> LorenzFunky.norm arr = map (fun _ => lit 5 10) arr.
Proof.
  intros Hc. apply norm_degenerate.
  destruct (filter isFinite arr) as [|w finite] eqn:Hf; [now left | right].
  assert (Hne : filter isFinite arr <> []) by (rewrite Hf; discriminate).
  destruct (extrema_spec arr Hne) as [Hmn [_ [Hin1 [Hin2 _]]]]. rewrite Hf in *.
  rewrite Forall_forall in Hc.
  pose proof (Hc _ Hin1) as E1. pose proof (Hc _ Hin2) as E2.
  rewrite E1 in Hmn. rewrite E1, E2.
  apply strict_eq_refl. now apply finite_not_nan.
Qed.

(** C4: for every non-empty array whose elements are all equal, [norm]
    returns an array of the same length whose every element is the
    midpoint 0.5; in both scripts. *)
Theorem norm_of_constant_array (arr : list number) (c : number) :
  arr <> [] -> Forall (fun v => v = c) arr ->
  (length (LorenzFunky.norm arr) = length arr /\
   Forall (fun v => v = lit 5 10) (LorenzFunky.norm arr)) /\
  (length (Part000.norm arr) = length arr /\
   Forall (fun v => v = lit 5 10) (Part000.norm arr)).
Proof.
  intros _ Hc. change (Part000.norm arr) with (LorenzFunky.norm arr).
  rewrite (norm_constant arr c Hc), length_map.
  assert (H : Forall (fun v => v = lit 5 10) (map (fun _ : number => lit 5 10) arr)).
  { apply Forall_forall. intros v Hv. apply in_map_iff in Hv. now destruct Hv as [? [<- _]]. }
  auto.
Qed.

Lemma norm_of_constant_array_witness :
  length (LorenzFunky.norm [of_Z 7; of_Z 7; of_Z 7]) = 3%nat /\
  Forall (fun v => v = lit 5 10) (LorenzFunky.norm [of_Z 7; of_Z 7; of_Z 7]).
Proof.
  refine (proj1 (norm_of_constant_array [of_Z 7; of_Z 7; of_Z 7] (of_Z 7) _ _)).
  - discriminate.
  - repeat constructor.
Defined.

Lemma norm_length (arr : list number) : length (LorenzFunky.norm arr) = length arr.
Proof.
  unfold LorenzFunky.norm.
  destruct (Nat.eqb _ 0); [apply length_map|].
  destruct (_ || _); apply length_map.
Qed.

(** ** The note mapping of [src/lorenz-funky.js] *)

Lemma add_nan_r (x : number) : (x + NaN)%js = NaN.
Proof. with_strategy transparent [add] (unfold add). now destruct x. Qed.

Lemma add_nan_l (x : number) : (NaN + x)%js = NaN.
Proof. with_strategy transparent [add] (unfold add). now destruct x. Qed.

Lemma scale_degree_of_one :
  Math_floor (of_Z 1 * of_Z (Z.of_nat (length LorenzFunky.scale)))%js
  = of_Z (Z.of_nat (length LorenzFunky.scale)) /\
  get LorenzFunky.scale (of_Z (Z.of_nat (length LorenzFunky.scale))) = None.
Proof. split; vm_compute; reflexivity. Qed.

Lemma octave_of_one :
  Math_floor (of_Z 1 * of_Z (Z.of_nat (length LorenzFunky.octaves)))%js
  = of_Z (Z.of_nat (length LorenzFunky.octaves)) /\
  get LorenzFunky.octaves (of_Z (Z.of_nat (length LorenzFunky.octaves))) = None.
Proof. split; vm_compute; reflexivity. Qed.

Lemma clamp_of_nan_note :
  Math_max [of_Z 36; Math_min [of_Z 96; LorenzFunky.safeNum NaN (Some (of_Z 0))]]
  = of_Z 36.
Proof. vm_compute. reflexivity. Qed.

Lemma funky_clampArr_nth (l : list number) (lo hi : number) (i : nat) :
  nth_error (LorenzFunky.clampArr (Arr l) lo hi) i
  = option_map (fun v => Math_max [lo; Math_min [hi; LorenzFunky.safeNum v (Some (of_Z 0))]])
               (nth_error l i).
Proof.
  unfold LorenzFunky.clampArr, LorenzFunky.safeArr. cbn [default_arg].
  now rewrite map_map, nth_error_map.
Qed.

Lemma notes_of_nth (xs ys : list number) (i : nat) :
  nth_error (LorenzFunky.notes_of xs ys) i
  = option_map
      (fun deg =>
         (of_Z 48
          + to_number (get_at LorenzFunky.octaves (nth_error (LorenzFunky.octave_of ys) i))
          + to_number (get LorenzFunky.scale deg))%js)
      (nth_error (LorenzFunky.scaleDegree_of xs) i).
Proof. unfold LorenzFunky.notes_of. now rewrite mapi_nth. Qed.

Lemma notes_nan_at_unit (xs ys : list number) (i : nat) :
  (i < length xs)%nat ->
  nth_error xs i = Some (of_Z 1) \/ nth_error ys i = Some (of_Z 1) ->
  nth_error (LorenzFunky.notes_of xs ys) i = Some NaN.
Proof.
  intros Hi H. rewrite notes_of_nth.
  destruct (nth_error xs i) as [x|] eqn:Hx; [|apply nth_error_None in Hx; lia].
  unfold LorenzFunky.scaleDegree_of. rewrite nth_error_map, Hx. cbn [option_map].
  destruct H as [H|H].
  - injection H as ->. destruct scale_degree_of_one as [-> ->].
    cbn [to_number]. now rewrite add_nan_r.
  - unfold LorenzFunky.octave_of. rewrite nth_error_map, H. cbn [option_map get_at].
    destruct octave_of_one as [-> ->]. cbn [to_number].
    now rewrite add_nan_r, add_nan_l.
Qed.

Lemma funky_xs_ys_length : length LorenzFunky.xs = length LorenzFunky.ys.
Proof.
  unfold LorenzFunky.xs, LorenzFunky.ys. now rewrite !norm_length, !length_map.
Qed.

(** C9: in [src/lorenz-funky.js], at every index where the normalized
    x coordinate (or y coordinate) is exactly 1, the scale degree (the
    octave) computed by [Math.floor] is the length of the [scale]
    ([octaves]) array, one past its end, the note is NaN, and the
    sanitized series holds the lower bound 36 there; for arbitrary
    normalized series and for those of the script. *)
Theorem note_at_unit_coordinate_is_lower_bound :
  (forall (xs ys : list number) (i : nat),
      (i < length xs)%nat ->
      nth_error xs i = Some (of_Z 1) \/ nth_error ys i = Some (of_Z 1) ->
      (nth_error xs i = Some (of_Z 1) ->
       nth_error (LorenzFunky.scaleDegree_of xs) i
       = Some (of_Z (Z.of_nat (length LorenzFunky.scale))) /\
       get LorenzFunky.scale (of_Z (Z.of_nat (length LorenzFunky.scale))) = None) /\
      (nth_error ys i = Some (of_Z 1) ->
       nth_error (LorenzFunky.octave_of ys) i
       = Some (of_Z (Z.of_nat (length LorenzFunky.octaves))) /\
       get LorenzFunky.octaves (of_Z (Z.of_nat (length LorenzFunky.octaves))) = None) /\
      nth_error (LorenzFunky.notes_of xs ys) i = Some NaN /\
      nth_error (LorenzFunky.clampArr (Arr (LorenzFunky.notes_of xs ys))
                                      (of_Z 36) (of_Z 96)) i = Some (of_Z 36)) /\
  (forall i : nat,
      nth_error LorenzFunky.xs i = Some (of_Z 1) \/
      nth_error LorenzFunky.ys i = Some (of_Z 1) ->
      nth_error LorenzFunky.notes i = Some NaN /\
      nth_error LorenzFunky.NOTES_SAFE i = Some (of_Z 36)).
Proof.
  assert (General : forall xs ys i, (i < length xs)%nat ->
            nth_error xs i = Some (of_Z 1) \/ nth_error ys i = Some (of_Z 1) ->
            nth_error (LorenzFunky.notes_of xs ys) i = Some NaN /\
            nth_error (LorenzFunky.clampArr (Arr (LorenzFunky.notes_of xs ys))
                                            (of_Z 36) (of_Z 96)) i = Some (of_Z 36)).
  { intros xs ys i Hi H. pose proof (notes_nan_at_unit xs ys i Hi H) as Hn.
    split; [exact Hn|]. rewrite funky_clampArr_nth, Hn. cbn [option_map].
    now rewrite clamp_of_nan_note. }
  split.
  - intros xs ys i Hi H. split; [|split; [|now apply General]].
    + intros Hx. unfold LorenzFunky.scaleDegree_of.
      rewrite nth_error_map, Hx. cbn [option_map].
      destruct scale_degree_of_one as [-> ->]. auto.
    + intros Hy. unfold LorenzFunky.octave_of.
      rewrite nth_error_map, Hy. cbn [option_map].
      destruct octave_of_one as [-> ->]. auto.
  - intros i H. unfold LorenzFunky.NOTES_SAFE, LorenzFunky.notes.
    apply General; [|exact H].
    destruct H as [H|H].
    + apply nth_error_Some. now rewrite H.
    + rewrite funky_xs_ys_length. apply nth_error_Some. now rewrite H.
Qed.

(** Among the first 64 states of the trajectory the x coordinate is
    largest at index 34: normalized over them it is exactly 1. *)
Lemma note_at_unit_coordinate_is_lower_bound_witness :
  nth_error first64_xs 34 = Some (of_Z 1) /\
  nth_error (LorenzFunky.notes_of first64_xs first64_ys) 34 = Some NaN /\
  nth_error (LorenzFunky.clampArr (Arr (LorenzFunky.notes_of first64_xs first64_ys))
                                  (of_Z 36) (of_Z 96)) 34 = Some (of_Z 36).
Proof.
  assert (Hx : nth_error first64_xs 34 = Some (of_Z 1)) by (vm_compute; reflexivity).
  assert (Hlen : (34 < length first64_xs)%nat).
  { apply nth_error_Some. rewrite Hx. discriminate. }
  split; [exact Hx|].
  exact (proj2 (proj2 (proj1 note_at_unit_coordinate_is_lower_bound
                         first64_xs first64_ys 34%nat Hlen (or_introl Hx)))).
Defined.

Lemma norm_map_value (arr : list number) :
  LorenzFunky.norm arr = map (norm_value arr) arr.
Proof.
  destruct (filter isFinite arr) as [|w finite] eqn:Hf.
  - rewrite norm_degenerate by (left; exact Hf).
    apply map_ext_in. intros v Hv. unfold norm_value.
    destruct (isFinite v) eqn:Hfv.
    + assert (Hin : In v (filter isFinite arr)) by (apply filter_In; auto).
      rewrite Hf in Hin. contradiction.
    + now rewrite orb_true_r.
  - assert (Hne : filter isFinite arr <> []) by (rewrite Hf; discriminate).
    destruct (strict_eq (Math_min (filter isFinite arr)) (Math_max (filter isFinite arr)))
      eqn:Heq.
    + rewrite norm_degenerate by (right; exact Heq).
      apply map_ext. intros v. unfold norm_value. now rewrite Heq.
    + rewrite (norm_regular arr Hne Heq).
      apply map_ext. intros v. unfold norm_value. rewrite Heq. reflexivity.
Qed.





Lemma norm_nth (arr : list number) (i : nat) :
  nth_error (LorenzFunky.norm arr) i = option_map (norm_value arr) (nth_error arr i).
Proof. now rewrite norm_map_value, nth_error_map. Qed.

(** ** Rounding to 53 bits *)

Lemma fexp_eq (e : Z) : fexp prec emax e = Z.max (e - 53) (-1074).
Proof. reflexivity. Qed.

Lemma pow2_succ (k : Z) : 0 <= k -> 2 ^ (k + 1) = 2 * 2 ^ k.
Proof. intros. rewrite Z.pow_add_r by lia. lia. Qed.

Lemma dig_bounds (m : positive) : 2 ^ (dig m - 1) <= Zpos m < 2 ^ dig m.
Proof.
  unfold dig. induction m as [m IH|m IH|]; cbn [digits2_pos].
  - rewrite Pos2Z.inj_succ, Pos2Z.inj_xI.
    set (d := Zpos (digits2_pos m)) in *. assert (1 <= d) by (unfold d; lia).
    replace (Z.succ d - 1) with (d - 1 + 1) by lia.
    replace (Z.succ d) with (d + 1) by lia.
    rewrite !pow2_succ by lia. lia.
  - rewrite Pos2Z.inj_succ, Pos2Z.inj_xO.
    set (d := Zpos (digits2_pos m)) in *. assert (1 <= d) by (unfold d; lia).
    replace (Z.succ d - 1) with (d - 1 + 1) by lia.
    replace (Z.succ d) with (d + 1) by lia.
    rewrite !pow2_succ by lia. lia.
  - cbn. lia.
Qed.

Lemma dig_pos (m : positive) : 1 <= dig m.
Proof. unfold dig. lia. Qed.

Lemma pow2_pos (k : Z) : 0 <= k -> 0 < 2 ^ k.
Proof. intros. apply Z.pow_pos_nonneg; lia. Qed.

Lemma pow2_le (a b : Z) : 0 <= a <= b -> 2 ^ a <= 2 ^ b.
Proof. intros. apply Z.pow_le_mono_r; lia. Qed.

Lemma pow2_lt (a b : Z) : 0 <= a < b -> 2 ^ a < 2 ^ b.
Proof. intros. apply Z.pow_lt_mono_r; lia. Qed.

(** A number below [2^k] has at most [k] digits, one of at least
    [2^k] more than [k]. *)
Lemma dig_le (m : positive) (k : Z) : 0 <= k -> Zpos m < 2 ^ k -> dig m <= k.
Proof.
  intros Hk H. destruct (Z_le_gt_dec (dig m) k) as [|Hgt]; [assumption|].
  pose proof (dig_bounds m) as [Hlo _]. pose proof (dig_pos m).
  assert (2 ^ k <= 2 ^ (dig m - 1)) by (apply pow2_le; lia). lia.
Qed.

Lemma dig_gt (m : positive) (k : Z) : 0 <= k -> 2 ^ k <= Zpos m -> k < dig m.
Proof.
  intros Hk H. destruct (Z_lt_le_dec k (dig m)) as [|Hle]; [assumption|].
  pose proof (dig_bounds m) as [_ Hhi]. pose proof (dig_pos m).
  assert (2 ^ dig m <= 2 ^ k) by (apply pow2_le; lia). lia.
Qed.

(** *** Shifting with a round bit and a sticky bit *)

Lemma shr_1_nonneg (m : Z) (r s : bool) :
  0 <= m ->
  shr_1 (Build_shr_record m r s) = Build_shr_record (m / 2) (Z.odd m) (r || s).
Proof.
  intros Hm. rewrite <- Z.div2_div.
  destruct m as [|[p|p|]|p]; try reflexivity. lia.
Qed.

Lemma shr_inv_start (N : Z) : shr_inv N 0 (Build_shr_record N false false).
Proof.
  unfold shr_inv. cbn [shr_m shr_r shr_s]. rewrite Z.pow_0_r, Z.div_1_r, Z.mod_1_r.
  auto.
Qed.

Lemma shr_1_inv (N n : Z) (mrs : shr_record) :
  0 <= N -> 0 <= n -> shr_inv N n mrs -> shr_inv N (n + 1) (shr_1 mrs).
Proof.
  intros HN Hn [Hm [Hr Hs]]. destruct mrs as [m r s]. cbn [shr_m shr_r shr_s] in *.
  pose proof (pow2_pos n Hn) as HP. set (P := 2 ^ n) in *.
  assert (Hq : 0 <= N / P) by (apply Z.div_pos; lia).
  rewrite shr_1_nonneg by lia. unfold shr_inv. cbn [shr_m shr_r shr_s].
  rewrite pow2_succ by lia. fold P.
  assert (Hdiv : N / (2 * P) = m / 2).
  { rewrite Hm, (Z.mul_comm 2 P), <- Z.div_div by lia. reflexivity. }
  assert (Hmod : N mod (2 * P) = N mod P + P * (m mod 2)).
  { rewrite Hm, (Z.mul_comm 2 P). apply Z.rem_mul_r; lia. }
  pose proof (Z.mod_pos_bound N P HP) as Hrem.
  rewrite Hdiv, Hmod, Zmod_odd.
  split; [reflexivity|]. split.
  - destruct (Z.odd m); destruct (Z.leb_spec (2 * P) (2 * (N mod P + P * 1)));
      destruct (Z.leb_spec (2 * P) (2 * (N mod P + P * 0))); try lia; reflexivity.
  - rewrite Hs, Hr.
    destruct (Z.odd m); destruct (Z.leb_spec P (2 * (N mod P)));
      repeat match goal with
             | |- context [?a =? ?b] => destruct (Z.eqb_spec a b)
             end; cbn [orb negb]; try lia; reflexivity.
Qed.

Lemma shr_iter_inv (p : positive) : forall N n mrs,
  0 <= N -> 0 <= n -> shr_inv N n mrs ->
  shr_inv N (n + Zpos p) (iter_pos shr_1 p mrs).
Proof.
  induction p as [p IH|p IH|]; intros N n mrs HN Hn H; cbn [iter_pos].
  - replace (n + Zpos p~1) with (n + 1 + Zpos p + Zpos p) by lia.
    apply IH; [lia | lia |]. apply IH; [lia | lia |]. now apply shr_1_inv.
  - replace (n + Zpos p~0) with (n + Zpos p + Zpos p) by lia.
    apply IH; [lia | lia |]. now apply IH.
  - now apply shr_1_inv.
Qed.

Lemma round_of_shr_inv (N n : Z) (mrs : shr_record) :
  0 <= n -> shr_inv N n mrs ->
  round_nearest_even (shr_m mrs) (loc_of_shr_record mrs) = rne N n.
Proof.
  intros Hn [Hm [Hr Hs]]. destruct mrs as [m r s]. cbn [shr_m shr_r shr_s] in *.
  pose proof (pow2_pos n Hn) as HP. unfold rne. set (P := 2 ^ n) in *.
  rewrite <- Hm. subst r s.
  destruct (Z.leb_spec P (2 * (N mod P))) as [H1|H1];
    repeat match goal with
           | |- context [?a =? ?b] => destruct (Z.eqb_spec a b)
           | |- context [?a <? ?b] => destruct (Z.ltb_spec a b)
           end; cbn [negb loc_of_shr_record round_nearest_even]; try lia; reflexivity.
Qed.

Lemma div_pow2_pow2 (x a b : Z) :
  0 <= a -> 0 <= b -> x / 2 ^ a / 2 ^ b = x / 2 ^ (a + b).
Proof.
  intros Ha Hb. pose proof (pow2_pos a Ha). pose proof (pow2_pos b Hb).
  rewrite Z.div_div, Z.pow_add_r by lia. reflexivity.
Qed.

(** Whatever the location, the mantissa after shifting is the quotient. *)
Lemma shr_m_iter (p : positive) : forall mrs,
  0 <= shr_m mrs ->
  0 <= shr_m (iter_pos shr_1 p mrs) /\
  shr_m (iter_pos shr_1 p mrs) = shr_m mrs / 2 ^ Zpos p.
Proof.
  assert (Step : forall mrs, 0 <= shr_m mrs ->
            0 <= shr_m (shr_1 mrs) /\ shr_m (shr_1 mrs) = shr_m mrs / 2 ^ 1).
  { intros [m r s] H. cbn [shr_m] in H. rewrite shr_1_nonneg by auto. cbn [shr_m].
    rewrite Z.pow_1_r. split; [apply Z.div_pos; lia | reflexivity]. }
  induction p as [p IH|p IH|]; intros mrs Hm; cbn [iter_pos].
  - destruct (Step mrs Hm) as [H1 E1].
    destruct (IH _ H1) as [H2 E2]. destruct (IH _ H2) as [H3 E3].
    split; [exact H3|]. rewrite E3, E2, E1.
    rewrite !div_pow2_pow2 by lia. f_equal. f_equal. lia.
  - destruct (IH _ Hm) as [H2 E2]. destruct (IH _ H2) as [H3 E3].
    split; [exact H3|]. rewrite E3, E2.
    rewrite !div_pow2_pow2 by lia. f_equal. f_equal. lia.
  - destruct (Step mrs Hm) as [H1 E1]. now split.
Qed.

Lemma round_nearest_even_bounds (m : Z) (l : location) :
  m <= round_nearest_even m l <= m + 1.
Proof. destruct l as [|[| |]]; cbn [round_nearest_even]; try destruct (Z.even m); lia. Qed.

(** *** The rounding of a scaled integer *)

Lemma rne_bounds (N n : Z) : N / 2 ^ n <= rne N n <= N / 2 ^ n + 1.
Proof.
  unfold rne.
  destruct (_ <? _); [lia|]. destruct (_ <? _); [lia|]. destruct (Z.even _); lia.
Qed.

Lemma rne_exact (N : Z) : rne N 0 = N.
Proof. unfold rne. rewrite Z.pow_0_r, Z.div_1_r, Z.mod_1_r. reflexivity. Qed.

Lemma rne_mono (N N' n : Z) : 0 <= n -> N <= N' -> rne N n <= rne N' n.
Proof.
  intros Hn HN. pose proof (pow2_pos n Hn) as HP. unfold rne. set (P := 2 ^ n) in *.
  pose proof (Z.div_mod N P ltac:(lia)) as E.
  pose proof (Z.div_mod N' P ltac:(lia)) as E'.
  pose proof (Z.mod_pos_bound N P HP) as B.
  pose proof (Z.mod_pos_bound N' P HP) as B'.
  assert (Hq : N / P <= N' / P) by (apply Z.div_le_mono; lia).
  destruct (Z.eq_dec (N / P) (N' / P)) as [Heq|Hne].
  - rewrite <- Heq in *.
    repeat match goal with
           | |- context [?a <? ?b] => destruct (Z.ltb_spec a b)
           end; destruct (Z.even (N / P)); lia.
  - repeat match goal with
           | |- context [?a <? ?b] => destruct (Z.ltb_spec a b)
           end; repeat destruct (Z.even _); lia.
Qed.

(** Scaling the integer and the shift together changes nothing. *)
Lemma rne_scale (N n k : Z) :
  0 <= n -> 0 <= k -> rne (N * 2 ^ k) (n + k) = rne N n.
Proof.
  intros Hn Hk. pose proof (pow2_pos n Hn) as HP. pose proof (pow2_pos k Hk) as HK.
  unfold rne. rewrite Z.pow_add_r by lia.
  rewrite Z.div_mul_cancel_r by lia.
  rewrite Z.mul_mod_distr_r by lia.
  set (P := 2 ^ n) in *. set (K := 2 ^ k) in *. set (r := N mod P).
  repeat match goal with
         | |- context [?a <? ?b] => destruct (Z.ltb_spec a b)
         end; try reflexivity; nia.
Qed.

Lemma Zdigits2_pos (m : positive) : Zdigits2 (Zpos m) = dig m.
Proof. reflexivity. Qed.

Lemma iter_xO (d : positive) (m : positive) :
  Zpos (Pos.iter xO m d) = Zpos m * 2 ^ Zpos d.
Proof.
  induction d as [|d IH] using Pos.peano_ind.
  - cbn [Pos.iter]. lia.
  - rewrite Pos.iter_succ, Pos2Z.inj_xO, IH, Pos2Z.inj_succ, Z.pow_succ_r by lia. lia.
Qed.

(** The digits of a scaled number. *)
Lemma dig_unique (m : positive) (d : Z) :
  1 <= d -> 2 ^ (d - 1) <= Zpos m < 2 ^ d -> dig m = d.
Proof.
  intros Hd [Hlo Hhi].
  assert (dig m <= d) by (apply dig_le; lia).
  assert (d - 1 < dig m) by (apply dig_gt; lia). lia.
Qed.

Lemma dig_scale (m m' : positive) (k : Z) :
  0 <= k -> Zpos m' = Zpos m * 2 ^ k -> dig m' = dig m + k.
Proof.
  intros Hk E. pose proof (dig_bounds m) as [Hlo Hhi]. pose proof (dig_pos m).
  pose proof (pow2_pos k Hk).
  apply dig_unique; [lia|]. rewrite E.
  replace (dig m + k - 1) with (dig m - 1 + k) by lia.
  rewrite !Z.pow_add_r by lia. nia.
Qed.

(** What validity says of a finite number. *)
Lemma valid_bounds (s : bool) (m : positive) (e : Z) :
  valid_binary prec emax (S754_finite s m e) = true <->
  emin <= e <= 971 /\ dig m <= 53 /\ (emin < e -> dig m = 53).
Proof.
  cbn [valid_binary]. unfold bounded, canonical_mantissa.
  rewrite andb_true_iff, Z.eqb_eq, Z.leb_le, fexp_eq. fold (dig m).
  unfold emin, emax, prec. lia.
Qed.

Lemma valid_mantissa (s : bool) (m : positive) (e : Z) :
  valid_binary prec emax (S754_finite s m e) = true ->
  emin <= e <= 971 /\ Zpos m < 2 ^ 53 /\ (emin < e -> 2 ^ 52 <= Zpos m).
Proof.
  intros H. apply valid_bounds in H. destruct H as [He [Hd Hn]].
  pose proof (dig_bounds m) as [Hlo Hhi]. pose proof (dig_pos m).
  split; [exact He|]. split.
  - assert (2 ^ dig m <= 2 ^ 53) by (apply pow2_le; lia). lia.
  - intros Hgt. rewrite (Hn Hgt) in Hlo. exact Hlo.
Qed.

(** *** The last stage of [binary_round_aux] *)

Lemma binary_round_aux_finish (s : bool) (mx ex : Z) (lx : location) :
  binary_round_aux prec emax s mx ex lx
  = finish s (round_nearest_even (shr_m (fst (shr_fexp prec emax mx ex lx)))
                                 (loc_of_shr_record (fst (shr_fexp prec emax mx ex lx))))
           (snd (shr_fexp prec emax mx ex lx)).
Proof.
  unfold binary_round_aux, finish. now destruct (shr_fexp prec emax mx ex lx).
Qed.

Lemma shr_fexp_exact_pos (m : positive) (e : Z) :
  shr_fexp prec emax (Zpos m) e loc_Exact
  = shr (Build_shr_record (Zpos m) false false) e (Z.max (dig m + e - 53) (-1074) - e).
Proof. reflexivity. Qed.

(** No shift where the mantissa already fits its exponent. *)
Lemma finish_fits (s : bool) (m : positive) (e : Z) :
  Z.max (dig m + e - 53) (-1074) = e ->
  finish s (Zpos m) e = if e <=? 971 then S754_finite s m e else S754_infinity s.
Proof.
  intros H. unfold finish. rewrite shr_fexp_exact_pos, H, Z.sub_diag. reflexivity.
Qed.

(** One shift where rounding up has carried into a 54th bit. *)
Lemma finish_carry (s : bool) (e : Z) :
  emin <= e ->
  finish s (2 ^ 53) e
  = if e + 1 <=? 971 then S754_finite s (2 ^ 52) (e + 1) else S754_infinity s.
Proof.
  intros He. unfold finish.
  change (2 ^ 53) with (Zpos (2 ^ 53)). rewrite shr_fexp_exact_pos.
  change (dig (2 ^ 53)) with 54.
  replace (Z.max (54 + e - 53) (-1074) - e) with 1 by (unfold emin in He; lia).
  reflexivity.
Qed.

Lemma shr_exact_inv (N e n : Z) :
  0 <= N -> 0 <= n ->
  exists mrs, shr (Build_shr_record N false false) e n = (mrs, e + n) /\ shr_inv N n mrs.
Proof.
  intros HN Hn. destruct n as [|p|p]; [| |lia].
  - exists (Build_shr_record N false false). rewrite Z.add_0_r.
    split; [reflexivity | apply shr_inv_start].
  - exists (iter_pos shr_1 p (Build_shr_record N false false)).
    split; [reflexivity|]. apply (shr_iter_inv p N 0); [lia | lia | apply shr_inv_start].
Qed.

Lemma Zdigits2_scale (m : positive) (k : Z) :
  0 <= k -> Zdigits2 (Zpos m * 2 ^ k) = dig m + k.
Proof.
  intros Hk. pose proof (pow2_pos k Hk).
  destruct (Zpos m * 2 ^ k) as [|p|p] eqn:E; try lia.
  rewrite Zdigits2_pos. now apply dig_scale.
Qed.

Lemma overflow_eq : overflow = 2 ^ 52 * 2 ^ 2046 /\ overflow = 2 ^ 53 * 2 ^ 2045.
Proof. unfold overflow. rewrite <- !Z.pow_add_r by lia. split; reflexivity. Qed.

(** The quotient of a [d]-digit number by [2^(d - 53)] has 53 digits. *)
Lemma quotient_53 (m : positive) (n : Z) :
  0 <= n -> dig m = n + 53 -> 2 ^ 52 <= Zpos m / 2 ^ n < 2 ^ 53.
Proof.
  intros Hn Hd. pose proof (dig_bounds m) as [Hlo Hhi]. rewrite Hd in *.
  pose proof (pow2_pos n Hn) as HP.
  replace (n + 53 - 1) with (52 + n) in Hlo by lia.
  replace (n + 53) with (53 + n) in Hhi by lia.
  rewrite Z.pow_add_r in Hlo, Hhi by lia.
  split.
  - apply Z.div_le_lower_bound; lia.
  - apply Z.div_lt_upper_bound; lia.
Qed.

(** *** Correctness of rounding an exact positive value *)

Lemma binary_round_aux_rounds (m : positive) (e : Z) :
  emin <= e -> e <= Z.max (dig m + e - 53) (-1074) ->
  rounds_to (Zpos m * 2 ^ (e - emin))
            (binary_round_aux prec emax false (Zpos m) e loc_Exact).
Proof.
  intros He Hc. unfold emin in *.
  set (k := e + 1074). assert (Hk : 0 <= k) by (unfold k; lia).
  replace (e - -1074) with k by (unfold k; lia).
  pose proof (pow2_pos k Hk) as HK.
  assert (HX : 0 < Zpos m * 2 ^ k) by lia.
  rewrite binary_round_aux_finish, shr_fexp_exact_pos.
  set (E := Z.max (dig m + e - 53) (-1074)) in *.
  destruct (shr_exact_inv (Zpos m) e (E - e) ltac:(lia) ltac:(lia)) as [mrs [Hshr Hinv]].
  rewrite Hshr. cbn [fst snd].
  rewrite (round_of_shr_inv (Zpos m) (E - e) mrs ltac:(lia) Hinv).
  replace (e + (E - e)) with E by lia.
  (* the rounding of the scaled integer *)
  assert (HR : round53 (Zpos m * 2 ^ k) = rne (Zpos m) (E - e) * 2 ^ (E + 1074)).
  { unfold round53. rewrite Zdigits2_scale by lia.
    replace (Z.max 0 (dig m + k - 53)) with (E - e + k) by (unfold k, E; lia).
    rewrite rne_scale by lia. f_equal. f_equal. unfold k. lia. }
  pose proof (rne_bounds (Zpos m) (E - e)) as Hb.
  pose proof (dig_pos m) as Hd1.
  destruct (Z_le_gt_dec (-1074) (dig m + e - 53)) as [Hnorm|Hsub].
  - (* normal range *)
    assert (HE : E = dig m + e - 53) by (unfold E; lia).
    pose proof (quotient_53 m (E - e) ltac:(lia) ltac:(lia)) as Hq.
    destruct (Z.eq_dec (rne (Zpos m) (E - e)) (2 ^ 53)) as [Hcarry|Hno].
    + rewrite Hcarry in *. rewrite finish_carry by (unfold emin; lia).
      destruct (Z.leb_spec (E + 1) 971) as [Hle|Hgt]; cbn [rounds_to].
      * split; [exact HX|]. split.
        -- apply valid_bounds. unfold emin.
           change (dig (2 ^ 52)) with 53. lia.
        -- rewrite HR. cbn [zval]. unfold emin.
           replace (E + 1 - -1074) with (1 + (E + 1074)) by lia.
           rewrite Z.pow_add_r by lia.
           change (Zpos (2 ^ 52)) with (2 ^ 52). change (2 ^ 53) with (2 * 2 ^ 52). lia.
      * split; [exact HX|]. rewrite HR. destruct overflow_eq as [_ ->].
        apply Z.mul_le_mono_nonneg_l; [lia|]. apply pow2_le. lia.
    + assert (Hlt : rne (Zpos m) (E - e) < 2 ^ 53) by lia.
      destruct (rne (Zpos m) (E - e)) as [|m1|m1] eqn:Hm1; try lia.
      assert (Hd : dig m1 = 53) by (apply dig_unique; lia).
      rewrite finish_fits by (rewrite Hd; lia).
      destruct (Z.leb_spec E 971) as [Hle|Hgt]; cbn [rounds_to].
      * split; [exact HX|]. split.
        -- apply valid_bounds. unfold emin. lia.
        -- rewrite HR. cbn [zval]. unfold emin.
           replace (E - -1074) with (E + 1074) by lia. lia.
      * split; [exact HX|]. rewrite HR. destruct overflow_eq as [-> _].
        apply Z.mul_le_mono_nonneg; try lia. apply pow2_le. lia.
  - (* subnormal range: the value is exact *)
    assert (HE : E = -1074) by (unfold E; lia).
    assert (Hee : e = -1074) by lia.
    rewrite HE, Hee in *. change (-1074 - -1074) with 0 in *.
    rewrite rne_exact in *.
    rewrite finish_fits by lia.
    cbn [Z.leb Z.compare rounds_to].
    split; [exact HX|]. split.
    + apply valid_bounds. unfold emin. lia.
    + rewrite HR. cbn [zval]. unfold emin. unfold k. reflexivity.
Qed.

Lemma binary_round_rounds (p : positive) (e : Z) :
  emin <= e ->
  rounds_to (Zpos p * 2 ^ (e - emin)) (binary_round prec emax false p e).
Proof.
  intros He. unfold binary_round, shl_align. rewrite fexp_eq. fold (dig p).
  set (E := Z.max (dig p + e - 53) (-1074)).
  destruct (E - e) as [|d|d] eqn:Hd.
  - apply binary_round_aux_rounds; [exact He | fold E; lia].
  - apply binary_round_aux_rounds; [exact He | fold E; lia].
  - assert (Hm : Zpos (Pos.iter xO p d) = Zpos p * 2 ^ Zpos d) by apply iter_xO.
    assert (Hdig : dig (Pos.iter xO p d) = dig p + Zpos d) by (now apply dig_scale).
    replace (Zpos p * 2 ^ (e - emin)) with (Zpos (Pos.iter xO p d) * 2 ^ (E - emin)).
    + apply binary_round_aux_rounds; [unfold E, emin; lia|].
      rewrite Hdig. replace (dig p + Zpos d + E - 53) with (dig p + e - 53) by lia.
      fold E. lia.
    + rewrite Hm, <- Z.mul_assoc, <- Z.pow_add_r by (unfold E, emin in *; lia).
      f_equal. f_equal. lia.
Qed.

(** A valid number is its own rounding. *)
Lemma round53_valid (s : bool) (m : positive) (e : Z) :
  valid_binary prec emax (S754_finite s m e) = true ->
  round53 (Zpos m * 2 ^ (e - emin)) = Zpos m * 2 ^ (e - emin).
Proof.
  intros H. apply valid_bounds in H. destruct H as [He [Hd Hn]]. unfold emin in *.
  unfold round53. rewrite Zdigits2_scale by lia.
  replace (Z.max 0 (dig m + (e - -1074) - 53)) with (0 + (e - -1074)) by lia.
  rewrite rne_scale, rne_exact by lia. f_equal.
Qed.

Lemma valid_rounds_to (m : positive) (e : Z) :
  valid_binary prec emax (S754_finite false m e) = true ->
  rounds_to (Zpos m * 2 ^ (e - emin)) (S754_finite false m e).
Proof.
  intros H. destruct (valid_mantissa _ _ _ H) as [He _].
  cbn [rounds_to]. split; [|split; [exact H|]].
  - apply Z.mul_pos_pos; [lia | apply pow2_pos; unfold emin in *; lia].
  - cbn [zval]. rewrite (round53_valid false) by exact H. lia.
Qed.

(** *** The order of valid numbers is the order of their integers *)

Lemma scaled_lt (s1 s2 : bool) (m1 m2 : positive) (e1 e2 : Z) :
  valid_binary prec emax (S754_finite s1 m1 e1) = true ->
  valid_binary prec emax (S754_finite s2 m2 e2) = true ->
  e1 < e2 ->
  Zpos m1 * 2 ^ (e1 - emin) < Zpos m2 * 2 ^ (e2 - emin).
Proof.
  intros H1 H2 Hlt.
  destruct (valid_mantissa _ _ _ H1) as [He1 [Hm1 _]].
  destruct (valid_mantissa _ _ _ H2) as [He2 [_ Hm2]].
  unfold emin in *. specialize (Hm2 ltac:(lia)).
  replace (e2 - -1074) with (e2 - e1 - 1 + 1 + (e1 - -1074)) by lia.
  rewrite !Z.pow_add_r by lia.
  pose proof (pow2_pos (e1 - -1074) ltac:(lia)).
  pose proof (pow2_pos (e2 - e1 - 1) ltac:(lia)).
  change (2 ^ 1) with 2. change (2 ^ 53) with (2 * 2 ^ 52) in Hm1.
  set (A := 2 ^ 52) in *. set (K := 2 ^ (e1 - -1074)) in *.
  set (J := 2 ^ (e2 - e1 - 1)) in *.
  assert (Zpos m1 * K < 2 * A * K) by (apply Z.mul_lt_mono_pos_r; lia).
  assert (A * K <= Zpos m2 * K) by (apply Z.mul_le_mono_nonneg_r; lia).
  assert (Zpos m2 * K * 1 <= Zpos m2 * K * J) by (apply Z.mul_le_mono_nonneg_l; lia).
  lia.
Qed.

Lemma compare_zval (x y : number) :
  valid_binary prec emax x = true -> valid_binary prec emax y = true ->
  isFinite x = true -> isFinite y = true ->
  SFcompare x y = Some (zval x ?= zval y).
Proof.
  intros Vx Vy Fx Fy.
  assert (Pos : forall s m e, valid_binary prec emax (S754_finite s m e) = true ->
                              0 < Zpos m * 2 ^ (e - emin)).
  { intros s m e V. destruct (valid_mantissa _ _ _ V) as [He _].
    apply Z.mul_pos_pos; [lia | apply pow2_pos; unfold emin in *; lia]. }
  destruct x as [sx|sx| |sx mx ex], y as [sy|sy| |sy my ey]; try discriminate.
  - reflexivity.
  - pose proof (Pos _ _ _ Vy). cbn [SFcompare zval].
    destruct sy; f_equal; symmetry;
      [apply Z.compare_gt_iff | apply Z.compare_lt_iff]; lia.
  - pose proof (Pos _ _ _ Vx). cbn [SFcompare zval].
    destruct sx; f_equal; symmetry;
      [apply Z.compare_lt_iff | apply Z.compare_gt_iff]; lia.
  - pose proof (Pos _ _ _ Vx) as Px. pose proof (Pos _ _ _ Vy) as Py.
    cbn [SFcompare zval].
    change (Pos.compare_cont Eq mx my) with (Zpos mx ?= Zpos my).
    set (A := Zpos mx * 2 ^ (ex - emin)) in *.
    set (B := Zpos my * 2 ^ (ey - emin)) in *.
    assert (Hlt : ex < ey -> A < B) by (intros; now apply (scaled_lt sx sy)).
    assert (Hgt : ey < ex -> B < A) by (intros; now apply (scaled_lt sy sx)).
    assert (Heq : ex = ey -> (Zpos mx ?= Zpos my) = (A ?= B)).
    { intros ->. unfold A, B. apply Zmult_compare_compat_r.
      destruct (valid_mantissa _ _ _ Vy) as [He _].
      pose proof (pow2_pos (ey - emin) ltac:(unfold emin in *; lia)). lia. }
    destruct sx, sy; f_equal; symmetry.
    + destruct (Z.compare_spec ex ey) as [E|E|E].
      * rewrite (Heq E).
        replace (-1 * A) with (- A) by lia. replace (-1 * B) with (- B) by lia.
        rewrite Z.compare_opp. apply Z.compare_antisym.
      * apply Z.compare_gt_iff. specialize (Hlt E). lia.
      * apply Z.compare_lt_iff. specialize (Hgt E). lia.
    + apply Z.compare_lt_iff. lia.
    + apply Z.compare_gt_iff. lia.
    + destruct (Z.compare_spec ex ey) as [E|E|E].
      * rewrite (Heq E). f_equal; lia.
      * apply Z.compare_lt_iff. specialize (Hlt E). lia.
      * apply Z.compare_gt_iff. specialize (Hgt E). lia.
Qed.

Lemma le_zval (x y : number) :
  valid_binary prec emax x = true -> valid_binary prec emax y = true ->
  isFinite x = true -> isFinite y = true ->
  (le x y = true <-> zval x <= zval y).
Proof.
  intros Vx Vy Fx Fy. unfold le, SFleb. rewrite (compare_zval x y Vx Vy Fx Fy).
  destruct (Z.compare_spec (zval x) (zval y)); split; intros; try lia; try reflexivity;
    discriminate.
Qed.

Lemma strict_eq_zval (x y : number) :
  valid_binary prec emax x = true -> valid_binary prec emax y = true ->
  isFinite x = true -> isFinite y = true ->
  (strict_eq x y = true <-> zval x = zval y).
Proof.
  intros Vx Vy Fx Fy. unfold strict_eq, SFeqb. rewrite (compare_zval x y Vx Vy Fx Fy).
  destruct (Z.compare_spec (zval x) (zval y)); split; intros; try lia; try reflexivity;
    discriminate.
Qed.

(** *** Rounding is monotone *)

Lemma Zdigits2_bounds (X : Z) :
  0 < X -> 1 <= Zdigits2 X /\ 2 ^ (Zdigits2 X - 1) <= X < 2 ^ Zdigits2 X.
Proof.
  intros HX. destruct X as [|p|p]; try lia. rewrite Zdigits2_pos.
  split; [apply dig_pos | apply dig_bounds].
Qed.

Lemma Zdigits2_mono (X Y : Z) : 0 < X <= Y -> Zdigits2 X <= Zdigits2 Y.
Proof.
  intros [HX HXY]. destruct (Zdigits2_bounds Y ltac:(lia)) as [HdY [_ HY]].
  destruct X as [|p|p]; try lia. rewrite Zdigits2_pos. apply dig_le; lia.
Qed.

Lemma round53_mono (X Y : Z) : 0 < X <= Y -> round53 X <= round53 Y.
Proof.
  intros [HX HXY]. pose proof (Zdigits2_mono X Y ltac:(lia)) as Hd.
  destruct (Zdigits2_bounds X HX) as [HdX [HXlo HXhi]].
  destruct (Zdigits2_bounds Y ltac:(lia)) as [HdY [HYlo HYhi]].
  unfold round53. set (dX := Zdigits2 X) in *. set (dY := Zdigits2 Y) in *.
  set (nX := Z.max 0 (dX - 53)). set (nY := Z.max 0 (dY - 53)).
  assert (HnX : 0 <= nX) by (unfold nX; lia).
  assert (HnY : 0 <= nY) by (unfold nY; lia).
  pose proof (pow2_pos nX HnX) as HPX. pose proof (pow2_pos nY HnY) as HPY.
  destruct (Z.eq_dec nX nY) as [E|E].
  - rewrite <- E. apply Z.mul_le_mono_nonneg_r; [lia|]. apply rne_mono; lia.
  - assert (Hlt : nX < nY) by (unfold nX, nY in *; lia).
    assert (HY53 : nY = dY - 53) by (unfold nX, nY in *; lia).
    assert (HdXY : dX < dY) by (unfold nX, nY in *; lia).
    assert (HdnX : nX <= dX) by (unfold nX; lia).
    (* the rounding of X stays below 2^dX *)
    assert (H1 : rne X nX * 2 ^ nX <= 2 ^ dX).
    { replace (2 ^ dX) with (2 ^ (dX - nX) * 2 ^ nX)
        by (rewrite <- Z.pow_add_r by lia; f_equal; lia).
      apply Z.mul_le_mono_nonneg_r; [lia|].
      pose proof (rne_bounds X nX) as [_ Hb].
      assert (X / 2 ^ nX < 2 ^ (dX - nX)).
      { apply Z.div_lt_upper_bound; [lia|].
        rewrite <- Z.pow_add_r by lia. replace (nX + (dX - nX)) with dX by lia. lia. }
      lia. }
    (* the rounding of Y stays above 2^(dY - 1) *)
    assert (H2 : 2 ^ (dY - 1) <= rne Y nY * 2 ^ nY).
    { replace (2 ^ (dY - 1)) with (2 ^ 52 * 2 ^ nY)
        by (rewrite <- Z.pow_add_r by lia; f_equal; lia).
      apply Z.mul_le_mono_nonneg_r; [lia|].
      pose proof (rne_bounds Y nY) as [Hb _].
      assert (2 ^ 52 <= Y / 2 ^ nY).
      { apply Z.div_le_lower_bound; [lia|].
        rewrite Z.mul_comm, <- Z.pow_add_r by lia.
        replace (52 + nY) with (dY - 1) by lia. lia. }
      lia. }
    assert (2 ^ dX <= 2 ^ (dY - 1)) by (apply pow2_le; lia).
    lia.
Qed.

Lemma round53_pos (X : Z) : 0 < X -> 0 < round53 X.
Proof.
  intros HX. destruct (Zdigits2_bounds X HX) as [Hd [Hlo Hhi]].
  unfold round53. set (d := Zdigits2 X) in *. set (n := Z.max 0 (d - 53)).
  assert (Hn : 0 <= n) by (unfold n; lia). pose proof (pow2_pos n Hn) as HP.
  apply Z.mul_pos_pos; [|exact HP].
  pose proof (rne_bounds X n) as [Hb _].
  assert (1 <= X / 2 ^ n); [|lia].
  apply Z.div_le_lower_bound; [lia|].
  assert (2 ^ n <= 2 ^ (d - 1)) by (apply pow2_le; unfold n; lia). lia.
Qed.

(** A valid number lies below the overflow threshold. *)
Lemma zval_below_overflow (m : positive) (e : Z) :
  valid_binary prec emax (S754_finite false m e) = true ->
  zval (S754_finite false m e) < overflow.
Proof.
  intros V. destruct (valid_mantissa _ _ _ V) as [He [Hm _]]. unfold emin in *.
  cbn [zval]. destruct overflow_eq as [_ ->]. unfold emin.
  pose proof (pow2_pos (e - -1074) ltac:(lia)) as HP.
  assert (2 ^ (e - -1074) <= 2 ^ 2045) by (apply pow2_le; lia).
  set (K := 2 ^ (e - -1074)) in *. set (A := 2 ^ 53) in *. set (B := 2 ^ 2045) in *.
  assert (Zpos m * K < A * K) by (apply Z.mul_lt_mono_pos_r; lia).
  assert (A * K <= A * B) by (apply Z.mul_le_mono_nonneg_l; lia).
  lia.
Qed.

(** *** Subtraction rounds the exact difference *)

Lemma shl_align_fst (m : positive) (e ez : Z) :
  ez <= e -> Zpos (fst (shl_align m e ez)) = Zpos m * 2 ^ (e - ez).
Proof.
  intros H. unfold shl_align. destruct (ez - e) as [|d|d] eqn:Hd; cbn [fst]; try lia.
  - replace (e - ez) with 0 by lia. lia.
  - rewrite iter_xO. f_equal. f_equal. lia.
Qed.

Lemma zval_finite (s : bool) (m : positive) (e ez : Z) :
  emin <= ez <= e ->
  zval (S754_finite s m e)
  = cond_Zopp s (Zpos (fst (shl_align m e ez))) * 2 ^ (ez - emin).
Proof.
  intros H. rewrite shl_align_fst by lia. cbn [zval].
  replace (e - emin) with (e - ez + (ez - emin)) by lia.
  rewrite Z.pow_add_r by lia. destruct s; cbn [cond_Zopp]; lia.
Qed.

Lemma sub_rounds (x y : number) :
  valid_binary prec emax x = true -> valid_binary prec emax y = true ->
  isFinite x = true -> isFinite y = true ->
  zval y <= zval x ->
  rounds_to (zval x - zval y) (x - y)%js.
Proof.
  intros Vx Vy Fx Fy Hle.
  assert (Pos : forall s m e, valid_binary prec emax (S754_finite s m e) = true ->
                              0 < Zpos m * 2 ^ (e - emin)).
  { intros s m e V. destruct (valid_mantissa _ _ _ V) as [He _].
    apply Z.mul_pos_pos; [lia | apply pow2_pos; unfold emin in *; lia]. }
  with_strategy transparent [sub] (unfold sub).
  destruct x as [sx|sx| |sx mx ex], y as [sy|sy| |sy my ey]; try discriminate.
  - cbn [SFsub zval]. now destruct sx, sy.
  - pose proof (Pos _ _ _ Vy) as Py. cbn [zval] in Hle. cbn [SFsub].
    destruct sy; [|lia]. cbn [negb].
    replace (zval (S754_zero sx) - zval (S754_finite true my ey))
      with (Zpos my * 2 ^ (ey - emin)) by (cbn [zval]; lia).
    now apply valid_rounds_to.
  - pose proof (Pos _ _ _ Vx) as Px. cbn [zval] in Hle. cbn [SFsub].
    destruct sx; [lia|].
    replace (zval (S754_finite false mx ex) - zval (S754_zero sy))
      with (Zpos mx * 2 ^ (ex - emin)) by (cbn [zval]; lia).
    now apply valid_rounds_to.
  - destruct (valid_mantissa _ _ _ Vx) as [Hex _].
    destruct (valid_mantissa _ _ _ Vy) as [Hey _].
    cbn [SFsub]. set (ez := Z.min ex ey).
    assert (Hez : emin <= ez) by (unfold ez; lia).
    rewrite (zval_finite sx mx ex ez), (zval_finite sy my ey ez) in * by (unfold ez; lia).
    set (a := cond_Zopp sx (Zpos (fst (shl_align mx ex ez)))) in *.
    set (b := cond_Zopp sy (Zpos (fst (shl_align my ey ez)))) in *.
    pose proof (pow2_pos (ez - emin) ltac:(lia)) as HP.
    rewrite <- Z.mul_sub_distr_r.
    assert (Hab : 0 <= a - b) by nia.
    destruct (a - b) as [|p|p] eqn:Hd; try lia.
    + cbn [binary_normalize rounds_to]. lia.
    + cbn [binary_normalize]. now apply binary_round_rounds.
Qed.

(** *** The quotient of a number by a larger one *)

Lemma of_Z_1 : of_Z 1 = one.
Proof. vm_compute. reflexivity. Qed.

Lemma of_Z_0 : of_Z 0 = S754_zero false.
Proof. vm_compute. reflexivity. Qed.

Lemma shr_record_of_loc_m (m : Z) (l : location) : shr_m (shr_record_of_loc m l) = m.
Proof. now destruct l as [|[| |]]. Qed.

Lemma loc_of_shr_record_of_loc (m : Z) (l : location) :
  loc_of_shr_record (shr_record_of_loc m l) = l.
Proof. now destruct l as [|[| |]]. Qed.

Lemma Zdigits2_le (m k : Z) : 0 <= m < 2 ^ k -> 0 <= k -> Zdigits2 m <= k.
Proof.
  intros [H0 H] Hk. destruct m as [|p|p]; try lia.
  - exact Hk.
  - rewrite Zdigits2_pos. now apply dig_le.
Qed.

(** Rounding a located value below one gives at most one. *)
Lemma finish_le_one (m1 e1 : Z) :
  0 <= m1 <= 2 ^ (- e1) -> e1 <= -53 -> le (finish false m1 e1) one = true.
Proof.
  intros [H0 Hm] He. unfold finish.
  destruct m1 as [|p|p]; try lia.
  - (* zero *)
    unfold shr_fexp. cbn [shr_record_of_loc].
    set (n := fexp prec emax (Zdigits2 0 + e1) - e1).
    assert (Hz : shr_m (fst (shr (Build_shr_record 0 false false) e1 n)) = 0).
    { unfold shr. destruct n as [|np|np]; cbn [fst shr_m]; try reflexivity.
      destruct (shr_m_iter np (Build_shr_record 0 false false) ltac:(cbn; lia)) as [_ ->].
      cbn [shr_m]. apply Z.div_0_l. pose proof (pow2_pos (Zpos np) ltac:(lia)). lia. }
    destruct (shr _ e1 n) as [mrs e2]. cbn [fst] in Hz. now rewrite Hz.
  - rewrite shr_fexp_exact_pos.
    assert (Hd : dig p <= - e1 + 1).
    { apply dig_le; [lia|]. rewrite pow2_succ by lia.
      pose proof (pow2_pos (- e1) ltac:(lia)). lia. }
    set (E2 := Z.max (dig p + e1 - 53) (-1074)).
    assert (HE2 : E2 <= -52) by (unfold E2; lia).
    unfold shr. destruct (E2 - e1) as [|np|np] eqn:Hn.
    + cbn [shr_m]. replace (e1 <=? emax - prec) with true
        by (symmetry; apply Z.leb_le; unfold emax, prec; lia).
      unfold le, SFleb, one. cbn [SFcompare].
      destruct (Z.compare_spec e1 (-52)); (reflexivity || lia).
    + destruct (shr_m_iter np (Build_shr_record (Zpos p) false false) ltac:(cbn; lia))
        as [Hpos Hq].
      cbn [shr_m] in Hq.
      destruct (shr_m (iter_pos shr_1 np (Build_shr_record (Zpos p) false false)))
        as [|p2|p2] eqn:Hp2; try lia; [reflexivity|].
      replace (e1 + Zpos np <=? emax - prec) with true
        by (symmetry; apply Z.leb_le; unfold emax, prec; lia).
      unfold le, SFleb, one. cbn [SFcompare].
      destruct (Z.compare_spec (e1 + Zpos np) (-52)) as [Heq|Hlt|Hgt];
        [|reflexivity|lia].
      (* the exponent is that of one: the mantissa is exactly 2^52 *)
      assert (Hdig : dig p = 1 - e1) by (unfold E2 in *; lia).
      pose proof (dig_bounds p) as [Hlo _]. rewrite Hdig in Hlo.
      replace (1 - e1 - 1) with (- e1) in Hlo by lia.
      assert (Hp : Zpos p = 2 ^ (- e1)) by lia.
      assert (Hval : Zpos p2 = 2 ^ 52).
      { rewrite Hq, Hp. replace (- e1) with (52 + Zpos np) by lia.
        rewrite Z.pow_add_r by lia. apply Z.div_mul.
        pose proof (pow2_pos (Zpos np) ltac:(lia)). lia. }
      assert (Hp2' : p2 = 4503599627370496%positive)
        by (apply Pos2Z.inj; rewrite Hval; reflexivity).
      rewrite Hp2'. reflexivity.
    + cbn [shr_m]. replace (e1 <=? emax - prec) with true
        by (symmetry; apply Z.leb_le; unfold emax, prec; lia).
      unfold le, SFleb, one. cbn [SFcompare].
      destruct (Z.compare_spec e1 (-52)); (reflexivity || lia).
Qed.

Lemma finish_nonneg (m1 e1 : Z) :
  le (finish false m1 e1) one = true -> le (S754_zero false) (finish false m1 e1) = true.
Proof.
  unfold finish. destruct (shr_fexp prec emax m1 e1 loc_Exact) as [mrs e2].
  destruct (shr_m mrs); [reflexivity| |discriminate].
  now destruct (e2 <=? emax - prec).
Qed.

Lemma div_eucl_div (a b : Z) : Z.div_eucl a b = (a / b, a mod b).
Proof. unfold Z.div, Z.modulo. now destruct (Z.div_eucl a b). Qed.

(** The quotient mantissa, exponent and location [SFdiv] rounds. *)
Lemma div_core_spec (ma mb : positive) (ea eb : Z) :
  let e' := Z.min (Z.max (dig ma + ea - (dig mb + eb) - 53) (-1074)) (ea - eb) in
  let M := Zpos ma * 2 ^ (ea - eb - e') in
  SFdiv_core_binary prec emax (Zpos ma) ea (Zpos mb) eb
  = (M / Zpos mb, e', new_location (Zpos mb) (M mod Zpos mb)).
Proof.
  intros e' M. unfold SFdiv_core_binary. rewrite fexp_eq, !Zdigits2_pos. fold e'.
  assert (Hs : 0 <= ea - eb - e') by (unfold e'; lia).
  assert (Hm : match ea - eb - e' with
               | Z0 => Zpos ma
               | Zpos _ => Z.shiftl (Zpos ma) (ea - eb - e')
               | Zneg _ => 0
               end = M).
  { unfold M. destruct (ea - eb - e') as [|sp|sp] eqn:E; try lia.
    rewrite Z.shiftl_mul_pow2 by lia. reflexivity. }
  rewrite Hm, div_eucl_div. reflexivity.
Qed.

Lemma div_self (s : bool) (m : positive) (e : Z) :
  (S754_finite s m e / S754_finite s m e)%js = one.
Proof.
  with_strategy transparent [div] (unfold div). cbn [SFdiv].
  pose proof (div_core_spec m m e e) as H. cbv zeta in H.
  replace (dig m + e - (dig m + e) - 53) with (-53) in H by lia.
  rewrite Z.sub_diag in H. change (Z.min (Z.max (-53) (-1074)) 0) with (-53) in H.
  change (0 - -53) with 53 in H.
  rewrite (Z.mul_comm (Zpos m)), Z.div_mul, Z.mod_mul in H by lia.
  rewrite H.
  assert (Hl : new_location (Zpos m) 0 = loc_Exact).
  { unfold new_location, new_location_even, new_location_odd.
    now destruct (Z.even (Zpos m)). }
  rewrite Hl. destruct s; vm_compute; reflexivity.
Qed.

(** The quotient of a valid positive number by a larger one. *)
Lemma div_lt_le_one (ma mb : positive) (ea eb : Z) :
  valid_binary prec emax (S754_finite false ma ea) = true ->
  valid_binary prec emax (S754_finite false mb eb) = true ->
  Zpos ma * 2 ^ (ea - emin) < Zpos mb * 2 ^ (eb - emin) ->
  le (S754_finite false ma ea / S754_finite false mb eb)%js one = true.
Proof.
  intros Va Vb Hlt.
  destruct (valid_mantissa _ _ _ Va) as [Hea _].
  destruct (valid_mantissa _ _ _ Vb) as [Heb _]. unfold emin in *.
  pose proof (dig_bounds ma) as [Halo _]. pose proof (dig_bounds mb) as [_ Hbhi].
  pose proof (dig_pos ma) as Hda. pose proof (dig_pos mb) as Hdb.
  pose proof (pow2_pos (ea - -1074) ltac:(lia)) as HKa.
  pose proof (pow2_pos (eb - -1074) ltac:(lia)) as HKb.
  (* the magnitudes are ordered *)
  assert (Hmag : dig ma + ea <= dig mb + eb).
  { assert (H : 2 ^ (dig ma - 1 + (ea - -1074)) < 2 ^ (dig mb + (eb - -1074))).
    { rewrite !Z.pow_add_r by lia.
      assert (2 ^ (dig ma - 1) * 2 ^ (ea - -1074) <= Zpos ma * 2 ^ (ea - -1074))
        by (apply Z.mul_le_mono_nonneg_r; lia).
      assert (Zpos mb * 2 ^ (eb - -1074) < 2 ^ dig mb * 2 ^ (eb - -1074))
        by (apply Z.mul_lt_mono_pos_r; lia).
      lia. }
    apply Z.pow_lt_mono_r_iff in H; lia. }
  with_strategy transparent [div] (unfold div). cbn [SFdiv xorb].
  pose proof (div_core_spec ma mb ea eb) as H. cbv zeta in H.
  set (e' := Z.min (Z.max (dig ma + ea - (dig mb + eb) - 53) (-1074)) (ea - eb)) in *.
  assert (He' : e' <= -53) by (unfold e'; lia).
  assert (Hs : 0 <= ea - eb - e') by (unfold e'; lia).
  set (mq := Zpos ma * 2 ^ (ea - eb - e') / Zpos mb) in *.
  set (l := new_location (Zpos mb) (Zpos ma * 2 ^ (ea - eb - e') mod Zpos mb)) in *.
  rewrite H.
  pose proof (pow2_pos (ea - eb - e') Hs) as HS.
  pose proof (pow2_pos (- e') ltac:(lia)) as HE.
  assert (Hq0 : 0 <= mq) by (apply Z.div_pos; lia).
  assert (Hq1 : mq < 2 ^ (- e')).
  { apply Z.div_lt_upper_bound; [lia|].
    apply (Z.mul_lt_mono_pos_r (2 ^ (eb - -1074))); [lia|].
    replace (Zpos ma * 2 ^ (ea - eb - e') * 2 ^ (eb - -1074))
      with (Zpos ma * 2 ^ (ea - -1074) * 2 ^ (- e')).
    - replace (Zpos mb * 2 ^ (- e') * 2 ^ (eb - -1074))
        with (Zpos mb * 2 ^ (eb - -1074) * 2 ^ (- e')) by lia.
      apply Z.mul_lt_mono_pos_r; lia.
    - rewrite <- !Z.mul_assoc, <- !Z.pow_add_r by lia. f_equal. f_equal. lia. }
  rewrite binary_round_aux_finish.
  apply finish_le_one.
  - (* the rounded mantissa stays below 2^(-e1) *)
    unfold shr_fexp, shr.
    set (n := fexp prec emax (Zdigits2 mq + e') - e').
    assert (Hfexp : fexp prec emax (Zdigits2 mq + e') <= -53).
    { rewrite fexp_eq. pose proof (Zdigits2_le mq (- e') ltac:(lia) ltac:(lia)). lia. }
    destruct n as [|np|np] eqn:Hn; cbn [fst snd].
    + rewrite shr_record_of_loc_m, loc_of_shr_record_of_loc.
      pose proof (round_nearest_even_bounds mq l). lia.
    + destruct (shr_m_iter np (shr_record_of_loc mq l)
                  ltac:(rewrite shr_record_of_loc_m; lia)) as [Hpos Hq].
      rewrite shr_record_of_loc_m in Hq.
      pose proof (round_nearest_even_bounds
                    (shr_m (iter_pos shr_1 np (shr_record_of_loc mq l)))
                    (loc_of_shr_record (iter_pos shr_1 np (shr_record_of_loc mq l))))
        as Hb.
      assert (Hlt2 : mq / 2 ^ Zpos np < 2 ^ (- (e' + Zpos np))).
      { apply Z.div_lt_upper_bound; [apply pow2_pos; lia|].
        rewrite <- Z.pow_add_r by lia.
        replace (Zpos np + - (e' + Zpos np)) with (- e') by lia. exact Hq1. }
      lia.
    + rewrite shr_record_of_loc_m, loc_of_shr_record_of_loc.
      pose proof (round_nearest_even_bounds mq l). lia.
  - unfold shr_fexp, shr.
    assert (Hfexp : fexp prec emax (Zdigits2 mq + e') <= -53).
    { rewrite fexp_eq. pose proof (Zdigits2_le mq (- e') ltac:(lia) ltac:(lia)). lia. }
    destruct (fexp prec emax (Zdigits2 mq + e') - e') as [|np|np] eqn:Hn;
      cbn [snd]; lia.
Qed.

Lemma div_pos_is_finish (ma mb : positive) (ea eb : Z) :
  exists m1 e1,
    (S754_finite false ma ea / S754_finite false mb eb)%js = finish false m1 e1.
Proof.
  with_strategy transparent [div] (unfold div). cbn [SFdiv xorb].
  destruct (SFdiv_core_binary prec emax (Zpos ma) ea (Zpos mb) eb) as [[mz ez] lz].
  rewrite binary_round_aux_finish. eauto.
Qed.

(** Valid positive numbers with the same integer are the same. *)
Lemma zval_inj (ma mb : positive) (ea eb : Z) :
  valid_binary prec emax (S754_finite false ma ea) = true ->
  valid_binary prec emax (S754_finite false mb eb) = true ->
  Zpos ma * 2 ^ (ea - emin) = Zpos mb * 2 ^ (eb - emin) ->
  ma = mb /\ ea = eb.
Proof.
  intros Va Vb H.
  destruct (Z.lt_trichotomy ea eb) as [Hlt|[Heq|Hgt]].
  - pose proof (scaled_lt _ _ _ _ _ _ Va Vb Hlt). lia.
  - subst eb. split; [|reflexivity].
    destruct (valid_mantissa _ _ _ Va) as [He _].
    pose proof (pow2_pos (ea - emin) ltac:(unfold emin in *; lia)).
    apply Z.mul_cancel_r in H; [|lia]. now injection H.
  - pose proof (scaled_lt _ _ _ _ _ _ Vb Va Hgt). lia.
Qed.

(** The quotient of two roundings of ordered non-negative values, the
    divisor's positive, lies between zero and one if it is finite. *)
Lemma quotient_range (a b : number) (Da Db : Z) :
  rounds_to Da a -> rounds_to Db b -> 0 <= Da <= Db -> 0 < Db ->
  isFinite (a / b)%js = true ->
  le (of_Z 0) (a / b)%js = true /\ le (a / b)%js (of_Z 1) = true.
Proof.
  intros Ha Hb HD HDb Hfin. rewrite of_Z_0, of_Z_1.
  destruct b as [sb|[|]| |[|] mb eb]; cbn [rounds_to] in Hb; try contradiction; try lia.
  - (* an infinite divisor *)
    destruct a as [sa|[|]| |[|] ma ea]; cbn [rounds_to] in Ha; try contradiction.
    + with_strategy transparent [div] (unfold div). cbn [SFdiv]. now destruct sa.
    + revert Hfin. with_strategy transparent [div] (unfold div). cbn [SFdiv].
      discriminate.
    + with_strategy transparent [div] (unfold div). cbn [SFdiv xorb]. now split.
  - (* a finite divisor *)
    destruct Hb as [_ [Vb Zb]].
    destruct a as [sa|[|]| |[|] ma ea]; cbn [rounds_to] in Ha; try contradiction.
    + with_strategy transparent [div] (unfold div). cbn [SFdiv]. now destruct sa.
    + destruct Ha as [HDa Hov].
      pose proof (round53_mono Da Db ltac:(lia)) as Hmono.
      pose proof (zval_below_overflow mb eb Vb). lia.
    + destruct Ha as [HDa [Va Za]].
      pose proof (round53_mono Da Db ltac:(lia)) as Hmono.
      rewrite <- Za, <- Zb in Hmono. cbn [zval] in Hmono.
      destruct (Z.eq_dec (Zpos ma * 2 ^ (ea - emin)) (Zpos mb * 2 ^ (eb - emin)))
        as [Heq|Hne].
      * destruct (zval_inj _ _ _ _ Va Vb Heq) as [-> ->].
        rewrite div_self. now split.
      * assert (Hle : le (S754_finite false ma ea / S754_finite false mb eb)%js one = true)
          by (apply div_lt_le_one; auto; lia).
        split; [|exact Hle].
        destruct (div_pos_is_finish ma mb ea eb) as [m1 [e1 E]]. rewrite E in *.
        now apply finish_nonneg.
Qed.

Lemma half_in_unit_interval : unit_interval (lit 5 10).
Proof. split; vm_compute; reflexivity. Qed.

Lemma norm_value_unit_interval (arr : list number) (v : number) :
  Forall (fun w => valid_binary prec emax w = true) arr -> In v arr ->
  unit_interval (norm_value arr v).
Proof.
  intros Hvalid Hin. unfold norm_value.
  set (finite := filter isFinite arr).
  destruct (strict_eq (Math_min finite) (Math_max finite)) eqn:Heq;
    [apply half_in_unit_interval|].
  destruct (isFinite v) eqn:Hv; [|apply half_in_unit_interval].
  cbn [orb negb]. cbv zeta.
  destruct (isFinite ((v - Math_min finite) / (Math_max finite - Math_min finite))%js)
    eqn:Hq; [|apply half_in_unit_interval].
  assert (Hne : finite <> []).
  { intros E. assert (Hf : In v finite) by (apply filter_In; auto).
    rewrite E in Hf. contradiction. }
  destruct (extrema_spec arr Hne) as [Hmn [Hmx [Hin1 [Hin2 Hbr]]]].
  fold finite in Hmn, Hmx, Hin1, Hin2, Hbr.
  destruct (Hbr v Hin Hv) as [Hle1 Hle2].
  rewrite Forall_forall in Hvalid.
  pose proof (Hvalid _ Hin) as Vv. pose proof (Hvalid _ Hin1) as Vmn.
  pose proof (Hvalid _ Hin2) as Vmx.
  set (mn := Math_min finite) in *. set (mx := Math_max finite) in *.
  apply le_zval in Hle1; auto. apply le_zval in Hle2; auto.
  assert (Hneq : zval mn <> zval mx).
  { intros E. apply strict_eq_zval in E; auto. congruence. }
  apply (quotient_range _ _ (zval v - zval mn) (zval mx - zval mn)).
  - apply sub_rounds; auto.
  - apply sub_rounds; auto. lia.
  - lia.
  - lia.
  - exact Hq.
Qed.

(** Where the range of the finite elements is itself finite, the
    largest finite element is normalized to exactly one. *)
Lemma norm_value_of_maximum (arr : list number) :
  let finite := filter isFinite arr in
  Forall (fun w => valid_binary prec emax w = true) arr ->
  finite <> [] ->
  strict_eq (Math_min finite) (Math_max finite) = false ->
  isFinite (Math_max finite - Math_min finite)%js = true ->
  norm_value arr (Math_max finite) = of_Z 1.
Proof.
  intros finite Hvalid Hne Heq Hrange.
  destruct (extrema_spec arr Hne) as [Hmn [Hmx [Hin1 [Hin2 Hbr]]]].
  fold finite in Hmn, Hmx, Hin1, Hin2, Hbr.
  rewrite Forall_forall in Hvalid.
  pose proof (Hvalid _ Hin1) as Vmn. pose proof (Hvalid _ Hin2) as Vmx.
  destruct (Hbr _ Hin2 Hmx) as [Hle _].
  unfold norm_value. fold finite. rewrite Heq, Hmx. cbn [orb negb]. cbv zeta.
  set (mn := Math_min finite) in *. set (mx := Math_max finite) in *.
  apply le_zval in Hle; auto.
  assert (Hneq : zval mn <> zval mx).
  { intros E. apply strict_eq_zval in E; auto. congruence. }
  pose proof (sub_rounds mx mn Vmx Vmn Hmx Hmn Hle) as Hr.
  destruct (mx - mn)%js as [sb|[|]| |[|] mb eb]; cbn [rounds_to] in Hr;
    try contradiction; try discriminate; try lia.
  rewrite div_self, of_Z_1. reflexivity.
Qed.

(** ** Normalization: what holds of every array *)

Lemma norm_scales_or_substitutes : scales_or_substitutes LorenzFunky.norm.
Proof.
  intros arr Hvalid finite mn mx. split; [apply norm_length|]. split.
  - rewrite norm_map_value. apply Forall_forall. intros r Hr.
    apply in_map_iff in Hr. destruct Hr as [v [<- Hv]].
    now apply norm_value_unit_interval.
  - intros i v Hi. rewrite norm_nth, Hi. cbn [option_map].
    unfold norm_value, min_max_scaled. fold finite mn mx.
    split; [|split].
    + intros Hv. now rewrite Hv, orb_true_r.
    + intros Hv Heq Hs. now rewrite Hv, Heq, Hs.
    + intros Hv [Heq|Hs].
      * now rewrite Heq.
      * rewrite Hv. destruct (strict_eq mn mx); [reflexivity|].
        cbn [orb negb]. cbv zeta. now rewrite Hs.
Qed.

(** The range of [-MAX_VALUE, MAX_VALUE] overflows: its minimum is
    normalized to 0 and its maximum, a finite element, to 0.5. *)
Lemma norm_of_overflowing_range :
  LorenzFunky.norm [SFopp MAX_VALUE; MAX_VALUE] = [of_Z 0; lit 5 10] /\
  min_max_scaled (SFopp MAX_VALUE) MAX_VALUE MAX_VALUE = NaN.
Proof. split; vm_compute; reflexivity. Qed.

(** A constant array is not scaled either. *)
Lemma norm_of_singleton :
  LorenzFunky.norm [of_Z 7] = [lit 5 10] /\
  min_max_scaled (of_Z 7) (of_Z 7) (of_Z 7) = NaN.
Proof. split; vm_compute; reflexivity. Qed.

(** C3, as stated, fails: in [-MAX_VALUE, MAX_VALUE] the finite element
    MAX_VALUE is not replaced by its min-max scaling; in both scripts. *)
Lemma norm_does_not_scale_every_finite_element :
  ~ scales_every_finite_element LorenzFunky.norm /\
  ~ scales_every_finite_element Part000.norm.
Proof.
  assert (H : ~ scales_every_finite_element LorenzFunky.norm).
  { intros H.
    assert (Hn : numbers [SFopp MAX_VALUE; MAX_VALUE]) by (repeat constructor).
    destruct (H [SFopp MAX_VALUE; MAX_VALUE] Hn) as [_ [_ Hscaled]].
    destruct (Hscaled 1%nat MAX_VALUE eq_refl) as [Hfin _].
    specialize (Hfin eq_refl). revert Hfin.
    vm_compute. discriminate. }
  split; exact H.
Qed.

(** C3, amended: for every array of numbers, [norm] returns an array of
    the same length whose every element lies in [0,1]; every non-finite
    element is replaced by 0.5; a finite element is replaced by its
    min-max scaling over the finite elements when these are not all
    equal and that scaling is finite, and by 0.5 otherwise; in both
    scripts. *)
Theorem norm_scales_or_midpoint :
  scales_or_substitutes LorenzFunky.norm /\ scales_or_substitutes Part000.norm.
Proof. split; exact norm_scales_or_substitutes. Qed.

Lemma norm_scales_or_midpoint_witness :
  length (LorenzFunky.norm [of_Z 1; NaN; of_Z 3; of_Z 2]) = 4%nat /\
  Forall unit_interval (LorenzFunky.norm [of_Z 1; NaN; of_Z 3; of_Z 2]).
Proof.
  assert (Hn : numbers [of_Z 1; NaN; of_Z 3; of_Z 2])
    by (repeat constructor; vm_compute; reflexivity).
  destruct (proj1 norm_scales_or_midpoint [of_Z 1; NaN; of_Z 3; of_Z 2] Hn)
    as [Hlen [Hunit _]].
  split; [exact Hlen | exact Hunit].
Defined.

(** ** No operation fails *)



Lemma funky_pts_length : length LorenzFunky.pts = 4096%nat.
Proof. unfold LorenzFunky.pts. rewrite funky_lorenz_default. apply orbit_length. Qed.

Lemma part000_pts_length : length Part000.pts = 1536%nat.
Proof. unfold Part000.pts. rewrite part000_lorenz_default. apply orbit_length. Qed.


Lemma funky_series_lengths (Math_sin : number -> number)
    (Math_atan2 Math_pow : number -> number -> number) :
  length LorenzFunky.xs = 4096%nat /\ length LorenzFunky.ys = 4096%nat /\
  length LorenzFunky.zs = 4096%nat /\
  length (LorenzFunky.rawSpd Math_pow) = 4096%nat /\
  length (LorenzFunky.spd Math_pow) = 4096%nat /\
  length LorenzFunky.notes = 4096%nat /\ length LorenzFunky.cut = 4096%nat /\
  length (LorenzFunky.pan Math_sin Math_atan2) = 4096%nat /\
  length (LorenzFunky.gain Math_sin Math_pow) = 4096%nat.
Proof.
  unfold LorenzFunky.gain, LorenzFunky.pan, LorenzFunky.cut, LorenzFunky.notes,
    LorenzFunky.notes_of, LorenzFunky.scaleDegree_of, LorenzFunky.spd,
    LorenzFunky.rawSpd, LorenzFunky.xs, LorenzFunky.ys, LorenzFunky.zs.
  rewrite ?mapi_length, ?length_map, ?norm_length, ?mapi_length, ?length_map,
    funky_pts_length.
  repeat match goal with |- _ /\ _ => split end; reflexivity.
Qed.


Lemma part000_norm_length (arr : list number) :
  length (Part000.norm arr) = length arr.
Proof.
  unfold Part000.norm.
  destruct (Nat.eqb _ 0); [apply length_map|].
  destruct (_ || _); apply length_map.
Qed.

Lemma part000_series_lengths (Math_pow : number -> number -> number) :
  length Part000.xs = 1536%nat /\ length Part000.ys = 1536%nat /\
  length Part000.zs = 1536%nat /\
  length Part000.dxs = 1536%nat /\
  length (Part000.rawSpd Math_pow) = 1536%nat /\
  length (Part000.spd Math_pow) = 1536%nat /\
  length Part000.notes = 1536%nat /\ length Part000.cut = 1536%nat /\
  length Part000.pan = 1536%nat /\
  length (Part000.gain Math_pow) = 1536%nat /\
  length Part000.crossings = 1536%nat.
Proof.
  unfold Part000.gain, Part000.pan, Part000.cut, Part000.notes, Part000.spd,
    Part000.rawSpd, Part000.crossings, Part000.cross, Part000.dxs, Part000.diff,
    Part000.xs, Part000.ys, Part000.zs.
  rewrite ?mapi_length, ?length_map, ?part000_norm_length, ?mapi_length, ?length_map,
    part000_pts_length.
  repeat match goal with |- _ /\ _ => split end; reflexivity.
Qed.



Lemma ensureFinite_finite (arr : option (list Part000.item)) (defaultVal : option number) :
  isFinite (default_arg defaultVal (lit 5 10)) = true ->
  Forall (fun it => match it with
                    | Part000.Scalar v => isFinite v = true
                    | Part000.Nested l => finite_series l
                    end) (Part000.ensureFinite arr defaultVal).
Proof.
  intros Hd. unfold Part000.ensureFinite.
  destruct arr as [arr|]; [|now repeat constructor].
  apply Forall_forall. intros it Hit. apply in_map_iff in Hit.
  destruct Hit as [[v|l] [<- _]].
  - now destruct (isFinite v) eqn:Hv.
  - apply Forall_forall. intros r Hr. apply in_map_iff in Hr.
    destruct Hr as [x [<- _]]. now destruct (isFinite x) eqn:Hx.
Qed.

(** Clamping any number but NaN between finite bounds. *)
Lemma clamp_within_not_nan (lo hi v : number) :
  isFinite lo = true -> isFinite hi = true -> le lo hi = true ->
  is_nan v = false ->
  within lo hi (Math_max [lo; Math_min [hi; v]]).
Proof.
  intros Hlo Hhi Hle Hv.
  destruct (clamp_cases lo hi v (finite_not_nan _ Hlo) (finite_not_nan _ Hhi) Hv)
    as [Hmc [Hmhi [Hmv [Hrc [Hlor Hmr]]]]].
  set (m := Math_min [hi; v]) in *. set (r := Math_max [lo; m]) in *.
  assert (Hrhi : le r hi = true) by (destruct Hrc as [-> | ->]; auto).
  split; [|auto]. now apply (between_finite lo r hi).
Qed.

Lemma finish_not_nan (s : bool) (m1 e1 : Z) :
  0 <= m1 -> is_nan (finish s m1 e1) = false.
Proof.
  intros Hm. unfold finish, shr_fexp, shr.
  assert (H0 : 0 <= shr_m (shr_record_of_loc m1 loc_Exact)) by (cbn; lia).
  destruct (fexp prec emax (Zdigits2 m1 + e1) - e1) as [|np|np].
  - cbn [shr_record_of_loc shr_m]. destruct m1; try lia; try reflexivity.
    now destruct (e1 <=? emax - prec).
  - destruct (shr_m_iter np _ H0) as [Hpos _].
    destruct (shr_m (iter_pos shr_1 np (shr_record_of_loc m1 loc_Exact)));
      try lia; try reflexivity.
    now destruct (e1 + Zpos np <=? emax - prec).
  - cbn [shr_record_of_loc shr_m]. destruct m1; try lia; try reflexivity.
    now destruct (e1 <=? emax - prec).
Qed.

Lemma binary_round_aux_not_nan (s : bool) (mx ex : Z) (lx : location) :
  0 <= mx -> is_nan (binary_round_aux prec emax s mx ex lx) = false.
Proof.
  intros Hm. rewrite binary_round_aux_finish. apply finish_not_nan.
  unfold shr_fexp, shr.
  assert (H0 : 0 <= shr_m (shr_record_of_loc mx lx))
    by (rewrite shr_record_of_loc_m; lia).
  destruct (fexp prec emax (Zdigits2 mx + ex) - ex) as [|np|np]; cbn [fst].
  - pose proof (round_nearest_even_bounds (shr_m (shr_record_of_loc mx lx))
                  (loc_of_shr_record (shr_record_of_loc mx lx))). lia.
  - destruct (shr_m_iter np _ H0) as [Hpos _].
    pose proof (round_nearest_even_bounds
                  (shr_m (iter_pos shr_1 np (shr_record_of_loc mx lx)))
                  (loc_of_shr_record (iter_pos shr_1 np (shr_record_of_loc mx lx)))).
    lia.
  - pose proof (round_nearest_even_bounds (shr_m (shr_record_of_loc mx lx))
                  (loc_of_shr_record (shr_record_of_loc mx lx))). lia.
Qed.

(** The sum of two finite numbers is not NaN, nor is a number other
    than NaN divided by two. *)
Lemma add_finite_not_nan (x y : number) :
  isFinite x = true -> isFinite y = true -> is_nan (x + y)%js = false.
Proof.
  intros Hx Hy. with_strategy transparent [add] (unfold add).
  destruct x as [sx| | |sx mx ex], y as [sy| | |sy my ey]; try discriminate.
  - now destruct sx, sy.
  - reflexivity.
  - reflexivity.
  - cbn [SFadd]. unfold binary_normalize, binary_round.
    destruct (_ + _)%Z as [|p|p]; [reflexivity| |];
      destruct (shl_align _ _ _) as [mz ez]; now apply binary_round_aux_not_nan.
Qed.

Lemma halve_not_nan (x : number) : is_nan x = false -> is_nan (x / of_Z 2)%js = false.
Proof.
  intros Hx.
  assert (H2 : of_Z 2 = S754_finite false 4503599627370496 (-51))
    by (vm_compute; reflexivity).
  rewrite H2. with_strategy transparent [div] (unfold div).
  destruct x as [sx|sx| |sx mx ex]; try discriminate; try reflexivity.
  cbn [SFdiv].
  pose proof (div_core_spec mx 4503599627370496 ex (-51)) as H. cbv zeta in H.
  rewrite H. apply binary_round_aux_not_nan.
  apply Z.div_pos; [|lia]. apply Z.mul_nonneg_nonneg; [lia|].
  apply Z.pow_nonneg. lia.
Qed.

(** [clamp] puts the midpoint of the bounds in place of a non-finite
    value; the result is finite and within the bounds in every case. *)
Lemma clamp_finite (val min max : number) :
  isFinite min = true -> isFinite max = true -> le min max = true ->
  within min max (Part000.clamp val min max).
Proof.
  intros Hmin Hmax Hle. unfold Part000.clamp.
  destruct (isFinite val) eqn:Hv; [|apply clamp_within_not_nan; auto].
  { apply clamp_within; auto; intros E; rewrite E in *; discriminate. }
  apply halve_not_nan. now apply add_finite_not_nan.
Qed.




(** *** What [norm] raises, and when *)








(** *** What is put in place of a value that is not finite *)





Lemma clampArr_length (l : list number) (lo hi : number) :
  length (LorenzFunky.clampArr (Arr l) lo hi) = length l /\
  length (Part000.clampArr (Arr l) lo hi) = length l.
Proof.
  unfold LorenzFunky.clampArr, Part000.clampArr, LorenzFunky.safeArr, Part000.safeArr.
  now rewrite !length_map.
Qed.










(** * Further properties of the two scripts *)

(** ** The sound registry *)

Section PickFacts.
Variable avail : list string.

Lemma includes_In (n : string) :
  existsb (String.eqb n) avail = true <-> In n avail.
Proof.
  rewrite existsb_exists. split.
  - intros [c [Hc E]]. apply String.eqb_eq in E. now subst.
  - intros H. exists n. split; [exact H | apply String.eqb_refl].
Qed.

Lemma find_first (pre post : list string) (n : string) :
  In n avail -> (forall c, In c pre -> ~ In c avail) ->
  find (fun c => existsb (String.eqb c) avail) (pre ++ n :: post) = Some n.
Proof.
  intros Hn Hpre. induction pre as [|c pre IH]; cbn [app find].
  - now rewrite (proj2 (includes_In n) Hn).
  - destruct (existsb (String.eqb c) avail) eqn:E.
    + apply includes_In in E. exfalso. apply (Hpre c); [now left | exact E].
    + apply IH. intros c' Hc'. apply Hpre. now right.
Qed.

Lemma find_none (cands : list string) :
  (forall c, In c cands -> ~ In c avail) ->
  find (fun c => existsb (String.eqb c) avail) cands = None.
Proof.
  intros H. induction cands as [|c cands IH]; cbn [find]; [reflexivity|].
  destruct (existsb (String.eqb c) avail) eqn:E.
  - apply includes_In in E. exfalso. apply (H c); [now left | exact E].
  - apply IH. intros c' Hc'. apply H. now right.
Qed.

Lemma funky_pick_spec (cands : list string) :
  (forall pre n post, cands = pre ++ n :: post -> In n avail ->
     (forall c, In c pre -> ~ In c avail) -> n <> EmptyString ->
     LorenzFunky.pick avail cands = n) /\
  ((forall c, In c cands -> ~ In c avail) -> LorenzFunky.pick avail cands = "sine"%string) /\
  LorenzFunky.pick avail cands <> EmptyString /\
  (LorenzFunky.pick avail cands = "sine"%string \/
   In (LorenzFunky.pick avail cands) cands /\ In (LorenzFunky.pick avail cands) avail).
Proof.
  unfold LorenzFunky.pick. split; [|split; [|split]].
  - intros pre n post -> Hn Hpre Hne. rewrite find_first by assumption.
    destruct (String.eqb n "") eqn:E; [|reflexivity].
    apply String.eqb_eq in E. contradiction.
  - intros H. now rewrite find_none.
  - destruct (find _ cands) as [n|]; [|discriminate].
    destruct (String.eqb n "") eqn:E; [discriminate|].
    now apply String.eqb_neq in E.
  - destruct (find _ cands) as [n|] eqn:F; [|now left].
    destruct (String.eqb n ""); [now left | right].
    apply find_some in F. destruct F as [H1 H2]. split; [exact H1|].
    now apply includes_In.
Qed.
End PickFacts.

Lemma synths_by_registry (avail : list string) :
  (In "tri"%string avail -> LorenzFunky.LEAD_SYNTH avail = "tri"%string) /\
  (~ In "tri"%string avail -> In "pluck"%string avail ->
   LorenzFunky.LEAD_SYNTH avail = "pluck"%string) /\
  (~ In "tri"%string avail -> ~ In "pluck"%string avail ->
   LorenzFunky.LEAD_SYNTH avail = "sine"%string) /\
  (In "saw"%string avail -> LorenzFunky.PAD_SYNTH avail = "saw"%string) /\
  (~ In "saw"%string avail -> In "pulse"%string avail ->
   LorenzFunky.PAD_SYNTH avail = "pulse"%string) /\
  (~ In "saw"%string avail -> ~ In "pulse"%string avail -> In "tri"%string avail ->
   LorenzFunky.PAD_SYNTH avail = "tri"%string) /\
  (~ In "saw"%string avail -> ~ In "pulse"%string avail -> ~ In "tri"%string avail ->
   LorenzFunky.PAD_SYNTH avail = "sine"%string).
Proof.
  assert (T : forall n, In n avail -> existsb (String.eqb n) avail = true)
    by (intros n; apply includes_In).
  assert (F : forall n, ~ In n avail -> existsb (String.eqb n) avail = false).
  { intros n H. destruct (existsb (String.eqb n) avail) eqn:E; [|reflexivity].
    apply includes_In in E. contradiction. }
  unfold LorenzFunky.LEAD_SYNTH, LorenzFunky.PAD_SYNTH, LorenzFunky.pick.
  repeat match goal with |- _ /\ _ => split end; intros; cbn [find];
    repeat match goal with
           | H : In _ avail |- _ => rewrite (T _ H); clear H
           | H : ~ In _ avail |- _ => rewrite (F _ H); clear H
           end; try reflexivity.
  all: destruct (existsb (String.eqb "sine") avail); reflexivity.
Qed.

(** ** Prefixes of a trajectory *)

Section OrbitPrefix.
Variables dt sigma rho beta : number.

Lemma orbit_firstn (n : nat) : forall m s,
  firstn n (RK4.orbit dt sigma rho beta (n + m) s) = RK4.orbit dt sigma rho beta n s.
Proof.
  induction n as [|n IH]; intros m s; [reflexivity|].
  cbn [Nat.add RK4.orbit firstn]. now rewrite IH.
Qed.
End OrbitPrefix.

Lemma lorenz_prefix (N K : nat) (dt sigma rho beta : option number) :
  firstn N (LorenzFunky.lorenz (Some (N + K)%nat) dt sigma rho beta)
  = LorenzFunky.lorenz (Some N) dt sigma rho beta /\
  firstn N (Part000.lorenz (Some (N + K)%nat) dt sigma rho beta)
  = Part000.lorenz (Some N) dt sigma rho beta /\
  Part000.pts = firstn 1536 LorenzFunky.pts.
Proof.
  rewrite !funky_lorenz_default, !part000_lorenz_default. cbn [default_arg].
  rewrite orbit_firstn. split; [reflexivity|]. split; [reflexivity|].
  unfold Part000.pts, LorenzFunky.pts.
  rewrite funky_lorenz_default, part000_lorenz_default. cbn [default_arg].
  replace 4096%nat with (1536 + 2560)%nat by reflexivity.
  now rewrite orbit_firstn.
Qed.

(** ** NaN in the integrator *)

Lemma sub_nan_r (x : number) : (x - NaN)%js = NaN.
Proof. with_strategy transparent [sub] (unfold sub). now destruct x. Qed.

Lemma sub_nan_l (x : number) : (NaN - x)%js = NaN.
Proof. with_strategy transparent [sub] (unfold sub). now destruct x. Qed.

Lemma mul_nan_r (x : number) : (x * NaN)%js = NaN.
Proof. with_strategy transparent [mul] (unfold mul). now destruct x. Qed.

Lemma mul_nan_l (x : number) : (NaN * x)%js = NaN.
Proof. with_strategy transparent [mul] (unfold mul). now destruct x. Qed.

Lemma div_nan_l (x : number) : (NaN / x)%js = NaN.
Proof. with_strategy transparent [div] (unfold div). now destruct x. Qed.

Create Rewrite HintDb nan_arith.
#[global] Hint Rewrite add_nan_l add_nan_r sub_nan_l sub_nan_r mul_nan_l mul_nan_r div_nan_l
  : nan_arith.

Section NanFacts.
Variables dt sigma rho beta : number.

Lemma update_of_nan_state (s : point) :
  has_nan s ->
  RK4.classic_update (RK4.lorenz_field sigma rho beta) dt s = nan_state.
Proof.
  destruct s as [x y z]. unfold has_nan. cbn [px py pz].
  intros [-> | [-> | ->]];
    cbv [RK4.classic_update RK4.lorenz_field RK4.vadd RK4.vscale px py pz nan_state];
    autorewrite with nan_arith; reflexivity.
Qed.

Lemma update_with_nan_step (s : point) :
  RK4.classic_update (RK4.lorenz_field sigma rho beta) NaN s = nan_state.
Proof.
  destruct s as [x y z].
  cbv [RK4.classic_update RK4.lorenz_field RK4.vadd RK4.vscale px py pz nan_state].
  autorewrite with nan_arith. reflexivity.
Qed.

Lemma orbit_of_nan_state (n : nat) : forall s,
  has_nan s -> Forall (fun p => p = nan_state) (RK4.orbit dt sigma rho beta n s).
Proof.
  induction n as [|n IH]; intros s Hs; cbn [RK4.orbit]; constructor.
  - now apply update_of_nan_state.
  - apply IH. rewrite update_of_nan_state by exact Hs. now left.
Qed.

Lemma orbit_skipn (n : nat) : forall m s p,
  nth_error (RK4.orbit dt sigma rho beta (S n + m) s) n = Some p ->
  skipn (S n) (RK4.orbit dt sigma rho beta (S n + m) s) = RK4.orbit dt sigma rho beta m p.
Proof.
  induction n as [|n IH]; intros m s p.
  - cbn [Nat.add RK4.orbit nth_error skipn]. now intros [= <-].
  - intros H. change (S (S n) + m)%nat with (S (S n + m)) in *.
    cbn [RK4.orbit nth_error] in H. cbn [RK4.orbit skipn].
    change (skipn (S n) (RK4.orbit dt sigma rho beta (S n + m)
              (RK4.classic_update (RK4.lorenz_field sigma rho beta) dt s))
            = RK4.orbit dt sigma rho beta m p).
    now apply IH.
Qed.
End NanFacts.

Lemma orbit_nan_after (dt sigma rho beta : number) (N i j : nat) (p q : point) :
  (i < j)%nat ->
  nth_error (RK4.orbit dt sigma rho beta N RK4.initial) i = Some p -> has_nan p ->
  nth_error (RK4.orbit dt sigma rho beta N RK4.initial) j = Some q ->
  q = nan_state.
Proof.
  intros Hij Hp Hnan Hq.
  assert (HiN : (i < N)%nat).
  { rewrite <- (orbit_length dt sigma rho beta N RK4.initial).
    apply nth_error_Some. now rewrite Hp. }
  replace N with (S i + (N - S i))%nat in Hp, Hq by lia.
  pose proof (orbit_skipn dt sigma rho beta i _ _ _ Hp) as Hs.
  assert (Hq' : nth_error (skipn (S i) (RK4.orbit dt sigma rho beta (S i + (N - S i))
                             RK4.initial)) (j - S i) = Some q).
  { rewrite nth_error_skipn. now replace (S i + (j - S i))%nat with j by lia. }
  rewrite Hs in Hq'. apply nth_error_In in Hq'.
  pose proof (orbit_of_nan_state dt sigma rho beta (N - S i) p Hnan) as Hall.
  rewrite Forall_forall in Hall. now apply Hall.
Qed.

Lemma nan_is_absorbing (N : nat) (dt sigma rho beta : option number) (i j : nat) (p q : point) :
  (i < j)%nat -> has_nan p ->
  (nth_error (LorenzFunky.lorenz (Some N) dt sigma rho beta) i = Some p ->
   nth_error (LorenzFunky.lorenz (Some N) dt sigma rho beta) j = Some q ->
   q = nan_state) /\
  (nth_error (Part000.lorenz (Some N) dt sigma rho beta) i = Some p ->
   nth_error (Part000.lorenz (Some N) dt sigma rho beta) j = Some q ->
   q = nan_state).
Proof.
  intros Hij Hnan. rewrite funky_lorenz_default, part000_lorenz_default.
  split; intros Hp Hq; eapply orbit_nan_after; eauto.
Qed.

Lemma nan_step_size (N : nat) (sigma rho beta : option number) :
  Forall (fun p => p = nan_state) (LorenzFunky.lorenz (Some N) (Some NaN) sigma rho beta) /\
  Forall (fun p => p = nan_state) (Part000.lorenz (Some N) (Some NaN) sigma rho beta).
Proof.
  rewrite funky_lorenz_default, part000_lorenz_default. cbn [default_arg].
  assert (H : forall n s, Forall (fun p => p = nan_state)
                (RK4.orbit NaN (default_arg sigma (of_Z 10)) (default_arg rho (of_Z 28))
                   (default_arg beta (of_Z 8 / of_Z 3)%js) n s)).
  { induction n as [|n IH]; intros s; cbn [RK4.orbit]; constructor.
    - apply update_with_nan_step.
    - apply IH. }
  split; apply H.
Qed.

(** ** More on clamping *)

Lemma le_lt_false (x y : number) : le x y = true -> lt y x = false.
Proof.
  intros H. destruct (le_not_nan _ _ H) as [Hx Hy].
  destruct (lt y x) eqn:E; [|reflexivity].
  apply le_rank in H; auto. apply lt_rank in E; auto. revert H E.
  destruct (rank x) as [[a b] c], (rank y) as [[a' b'] c']. cbn [rank_lt].
  intros [H|H] E; [lia | injection H as -> -> ->; lia].
Qed.

Lemma rank_inj (x y : number) :
  is_nan x = false -> is_nan y = false -> is_zero x = false ->
  rank x = rank y -> x = y.
Proof.
  intros Nx Ny Zx.
  destruct x as [sx|[|]| |[|] mx ex], y as [sy|[|]| |[|] my ey]; try discriminate;
    cbn [rank]; intros E; try reflexivity; injection E; intros; try lia;
    f_equal; lia.
Qed.

Lemma le_antisym (x y : number) :
  is_zero x = false -> le x y = true -> le y x = true -> x = y.
Proof.
  intros Zx H1 H2. destruct (le_not_nan _ _ H1) as [Nx Ny].
  apply rank_inj; auto.
  apply le_rank in H1; auto. apply le_rank in H2; auto. revert H1 H2.
  destruct (rank x) as [[a b] c], (rank y) as [[a' b'] c']. cbn [rank_lt].
  intros [H1|H1] [H2|H2]; try lia; try congruence.
Qed.

Lemma clamp_between_nan_bound (lo hi v : number) :
  is_nan lo = true \/ is_nan hi = true -> clamp_between lo hi v = NaN.
Proof.
  intros H. unfold clamp_between, Math_max. cbn [existsb].
  destruct H as [H|H].
  - now rewrite H.
  - unfold Math_min at 1. cbn [existsb]. rewrite H. cbn [orb is_nan].
    now rewrite orb_true_r.
Qed.

Lemma clamp_between_inverted (lo hi v : number) :
  lt hi lo = true -> is_nan v = false -> clamp_between lo hi v = lo.
Proof.
  intros Hlt Nv. destruct (lt_not_nan _ _ Hlt) as [Nhi Nlo].
  destruct (clamp_cases lo hi v Nlo Nhi Nv) as [_ [Hmhi [_ [Hrc [Hlor _]]]]].
  unfold clamp_between. destruct Hrc as [E|E]; [exact E|].
  rewrite E in Hlor. pose proof (le_trans _ _ _ Hlor Hmhi) as Hle.
  apply le_lt_false in Hle. congruence.
Qed.

Lemma clamp_between_fixes (lo hi v : number) :
  is_zero lo = false -> is_zero hi = false ->
  le lo v = true -> le v hi = true -> clamp_between lo hi v = v.
Proof.
  intros Zlo Zhi Hlo Hhi.
  destruct (le_not_nan _ _ Hlo) as [Nlo Nv], (le_not_nan _ _ Hhi) as [_ Nhi].
  destruct (clamp_cases lo hi v Nlo Nhi Nv) as [Hmc [Hmhi [Hmv [Hrc [Hlor Hmr]]]]].
  unfold clamp_between.
  set (m := Math_min [hi; v]) in *. set (r := Math_max [lo; m]) in *.
  assert (Hm : m = v).
  { destruct Hmc as [E|E]; [|exact E]. rewrite E in *. now apply le_antisym. }
  rewrite Hm in *. destruct Hrc as [E|E]; [|exact E].
  rewrite E in *. now apply le_antisym.
Qed.

Lemma clamp_between_mono (lo hi v w : number) :
  is_nan lo = false -> is_nan hi = false -> le v w = true ->
  le (clamp_between lo hi v) (clamp_between lo hi w) = true.
Proof.
  intros Nlo Nhi Hvw. destruct (le_not_nan _ _ Hvw) as [Nv Nw].
  destruct (clamp_cases lo hi v Nlo Nhi Nv) as [_ [Hmhi [Hmv [Hrc _]]]].
  destruct (clamp_cases lo hi w Nlo Nhi Nw) as [Hmc' [_ [_ [_ [Hlor' Hmr']]]]].
  unfold clamp_between.
  set (m := Math_min [hi; v]) in *. set (r := Math_max [lo; m]) in *.
  set (m' := Math_min [hi; w]) in *. set (r' := Math_max [lo; m']) in *.
  destruct Hrc as [E|E]; rewrite E; [exact Hlor'|].
  apply le_trans with m'; [|exact Hmr'].
  destruct Hmc' as [E'|E']; rewrite E'; [exact Hmhi|].
  now apply le_trans with v.
Qed.

Lemma funky_clampArr_map (l : list number) (lo hi : number) :
  LorenzFunky.clampArr (Arr l) lo hi
  = map (fun v => clamp_between lo hi (LorenzFunky.safeNum v (Some (of_Z 0)))) l.
Proof.
  unfold LorenzFunky.clampArr, LorenzFunky.safeArr. cbn [default_arg].
  now rewrite map_map.
Qed.

Lemma part000_clampArr_map (l : list number) (lo hi : number) :
  Part000.clampArr (Arr l) lo hi
  = map (fun v => clamp_between lo hi (Part000.safeNum v (Some (of_Z 0)))) l.
Proof.
  unfold Part000.clampArr, Part000.safeArr. cbn [default_arg].
  now rewrite map_map.
Qed.

Lemma map_id_in {A : Type} (f : A -> A) (l : list A) :
  (forall a, In a l -> f a = a) -> map f l = l.
Proof.
  intros H. induction l as [|a l IH]; [reflexivity|]. cbn [map].
  rewrite H by now left. f_equal. apply IH. intros b Hb. apply H. now right.
Qed.

Lemma clampArr_fixes_within (l : list number) (lo hi : number) :
  is_zero lo = false -> is_zero hi = false -> Forall (within lo hi) l ->
  LorenzFunky.clampArr (Arr l) lo hi = l /\ Part000.clampArr (Arr l) lo hi = l.
Proof.
  intros Zlo Zhi Hall. rewrite Forall_forall in Hall.
  rewrite funky_clampArr_map, part000_clampArr_map.
  split; apply map_id_in; intros v Hv; destruct (Hall v Hv) as [Hf [H1 H2]];
    unfold LorenzFunky.safeNum, Part000.safeNum; cbn [default_arg]; rewrite Hf;
    now apply clamp_between_fixes.
Qed.

(** ** Differences of a prefix *)

Lemma diff_firstn (n : nat) (arr : list number) :
  LorenzFunky.diff (firstn n arr) = firstn n (LorenzFunky.diff arr).
Proof.
  apply nth_error_ext. intros i. unfold LorenzFunky.diff.
  rewrite nth_error_firstn, !mapi_nth, nth_error_firstn.
  destruct (Nat.ltb_spec i n) as [Hi|Hi]; [|reflexivity].
  destruct (nth_error arr i) as [v|]; [|reflexivity]. cbn [option_map].
  destruct i as [|j]; [reflexivity|].
  rewrite nth_error_firstn.
  destruct (Nat.ltb_spec j n) as [Hj|Hj]; [reflexivity | lia].
Qed.




Lemma diff_map_firstn (f : point -> number) (n : nat) (l : list point) :
  Part000.diff (map f (firstn n l)) = firstn n (LorenzFunky.diff (map f l)).
Proof.
  change Part000.diff with LorenzFunky.diff.
  now rewrite <- firstn_map, diff_firstn.
Qed.

Lemma part000_pts_prefix : Part000.pts = firstn 1536 LorenzFunky.pts.
Proof. exact (proj2 (proj2 (lorenz_prefix 0 0 None None None None))). Qed.

Lemma part000_dxs_prefix : Part000.dxs = firstn 1536 LorenzFunky.dxs.
Proof.
  unfold Part000.dxs, LorenzFunky.dxs. rewrite part000_pts_prefix. apply diff_map_firstn.
Qed.

Lemma part000_dys_prefix : Part000.dys = firstn 1536 LorenzFunky.dys.
Proof.
  unfold Part000.dys, LorenzFunky.dys. rewrite part000_pts_prefix. apply diff_map_firstn.
Qed.

Lemma part000_dzs_prefix : Part000.dzs = firstn 1536 LorenzFunky.dzs.
Proof.
  unfold Part000.dzs, LorenzFunky.dzs. rewrite part000_pts_prefix. apply diff_map_firstn.
Qed.

(** ** The extremes of a normalized array *)

Lemma sub_self (x : number) : isFinite x = true -> (x - x)%js = S754_zero false.
Proof.
  intros H. with_strategy transparent [sub] (unfold sub).
  destruct x as [s| | |s m e]; try discriminate.
  - now destruct s.
  - cbn [SFsub]. now rewrite Z.sub_diag.
Qed.

Lemma div_zero_by_rounded (D : Z) (d : number) :
  0 < D -> rounds_to D d -> (S754_zero false / d)%js = S754_zero false.
Proof.
  intros HD H. with_strategy transparent [div] (unfold div).
  destruct d as [s|[|]| |[|] m e]; cbn [rounds_to] in H; try contradiction; try lia;
    reflexivity.
Qed.

Lemma norm_value_of_minimum (arr : list number) :
  let finite := filter isFinite arr in
  Forall (fun w => valid_binary prec emax w = true) arr ->
  finite <> [] ->
  strict_eq (Math_min finite) (Math_max finite) = false ->
  norm_value arr (Math_min finite) = of_Z 0.
Proof.
  intros finite Hvalid Hne Heq.
  destruct (extrema_spec arr Hne) as [Hmn [Hmx [Hin1 [Hin2 Hbr]]]].
  fold finite in Hmn, Hmx, Hin1, Hin2, Hbr.
  rewrite Forall_forall in Hvalid.
  pose proof (Hvalid _ Hin1) as Vmn. pose proof (Hvalid _ Hin2) as Vmx.
  destruct (Hbr _ Hin2 Hmx) as [Hle _].
  unfold norm_value. fold finite. rewrite Heq, Hmn. cbn [orb negb]. cbv zeta.
  set (mn := Math_min finite) in *. set (mx := Math_max finite) in *.
  apply le_zval in Hle; auto.
  assert (Hneq : zval mn <> zval mx).
  { intros E. apply strict_eq_zval in E; auto. congruence. }
  pose proof (sub_rounds mx mn Vmx Vmn Hmx Hmn Hle) as Hr.
  rewrite (sub_self mn Hmn).
  rewrite (div_zero_by_rounded (zval mx - zval mn)) by (auto; lia).
  rewrite of_Z_0. reflexivity.
Qed.

Lemma norm_extremes_funky (arr : list number) :
  let finite := filter isFinite arr in
  numbers arr -> finite <> [] ->
  strict_eq (Math_min finite) (Math_max finite) = false ->
  (forall i, nth_error arr i = Some (Math_min finite) ->
             nth_error (LorenzFunky.norm arr) i = Some (of_Z 0)) /\
  (exists i, nth_error (LorenzFunky.norm arr) i = Some (of_Z 0)) /\
  (isFinite (Math_max finite - Math_min finite)%js = true ->
   (forall i, nth_error arr i = Some (Math_max finite) ->
              nth_error (LorenzFunky.norm arr) i = Some (of_Z 1)) /\
   (exists i, nth_error (LorenzFunky.norm arr) i = Some (of_Z 1))).
Proof.
  intros finite Hvalid Hne Heq.
  destruct (extrema_spec arr Hne) as [_ [_ [Hin1 [Hin2 _]]]].
  fold finite in Hin1, Hin2.
  assert (H0 : forall i, nth_error arr i = Some (Math_min finite) ->
                         nth_error (LorenzFunky.norm arr) i = Some (of_Z 0)).
  { intros i Hi. rewrite norm_nth, Hi. cbn [option_map].
    f_equal. now apply norm_value_of_minimum. }
  split; [exact H0|]. split.
  - apply In_nth_error in Hin1. destruct Hin1 as [i Hi]. exists i. now apply H0.
  - intros Hr.
    assert (H1 : forall i, nth_error arr i = Some (Math_max finite) ->
                           nth_error (LorenzFunky.norm arr) i = Some (of_Z 1)).
    { intros i Hi. rewrite norm_nth, Hi. cbn [option_map].
      f_equal. now apply norm_value_of_maximum. }
    split; [exact H1|].
    apply In_nth_error in Hin2. destruct Hin2 as [i Hi]. exists i. now apply H1.
Qed.

(** ** [ensureFinite] *)

Lemma ensureFinite_idempotent (arr : option (list Part000.item)) (d : option number) :
  Part000.ensureFinite (Some (Part000.ensureFinite arr d)) d = Part000.ensureFinite arr d.
Proof.
  assert (E : forall x, (if isFinite (if isFinite x then x else default_arg d (lit 5 10))
                         then (if isFinite x then x else default_arg d (lit 5 10))
                         else default_arg d (lit 5 10))
                        = if isFinite x then x else default_arg d (lit 5 10)).
  { intros x. destruct (isFinite x) eqn:Hx; [now rewrite Hx|].
    now destruct (isFinite (default_arg d (lit 5 10))). }
  unfold Part000.ensureFinite. destruct arr as [arr|].
  - rewrite map_map. apply map_ext. intros [v|l].
    + now rewrite E.
    + rewrite map_map. f_equal. apply map_ext. intros x. apply E.
  - cbn [map]. f_equal. f_equal.
    now destruct (isFinite (default_arg d (lit 5 10))).
Qed.

Lemma ensureFinite_keeps_finite (arr : list Part000.item) (d : option number) :
  Forall (fun it => match it with
                    | Part000.Scalar v => isFinite v = true
                    | Part000.Nested l => finite_series l
                    end) arr ->
  Part000.ensureFinite (Some arr) d = arr.
Proof.
  intros H. unfold Part000.ensureFinite. apply map_id_in.
  rewrite Forall_forall in H. intros [v|l] Hin; specialize (H _ Hin); cbn in H.
  - now rewrite H.
  - f_equal. apply map_id_in. unfold finite_series in H. rewrite Forall_forall in H.
    intros x Hx. now rewrite (H x Hx).
Qed.

(** ** Every [k]-th element *)

Lemma every_nth_from_take (k : nat) {A : Type} (l : list A) : forall i c,
  (0 < k)%nat -> (c < k)%nat -> Nat.modulo (i + c) k = O ->
  concat (mapi_from i (fun v i => if Nat.eqb (Nat.modulo i k) 0 then [v] else []) l)
  = take_every k c l.
Proof.
  induction l as [|v l IH]; intros i c Hk Hc Hm; [reflexivity|].
  cbn [mapi_from concat take_every].
  destruct c as [|c'].
  - rewrite Nat.add_0_r in Hm. rewrite Hm. cbn [Nat.eqb app]. f_equal.
    apply IH; [exact Hk | lia |].
    replace (S i + (k - 1))%nat with (i + 1 * k)%nat by lia.
    now rewrite Nat.Div0.mod_add.
  - assert (Hi : Nat.modulo i k <> O).
    { intros E. apply Nat.Div0.div_exact in E. apply Nat.Div0.div_exact in Hm.
      set (a := Nat.div i k) in *. set (b := Nat.div (i + S c') k) in *.
      assert (S c' = k * (b - a))%nat by nia.
      destruct (b - a)%nat; nia. }
    apply Nat.eqb_neq in Hi. rewrite Hi. cbn [app].
    apply IH; [exact Hk | lia |].
    now replace (S i + c')%nat with (i + S c')%nat by lia.
Qed.

Lemma every_nth_take (k : nat) {A : Type} (l : list A) :
  (0 < k)%nat -> every_nth k l = take_every k 0 l.
Proof.
  intros Hk. unfold every_nth, mapi. apply every_nth_from_take; auto.
  apply Nat.Div0.mod_0_l.
Qed.

Lemma take_every_nth (k : nat) {A : Type} (l : list A) : forall c j,
  (0 < k)%nat -> nth_error (take_every k c l) j = nth_error l (c + k * j).
Proof.
  induction l as [|v l IH]; intros c j Hk.
  - cbn [take_every]. now rewrite !nth_error_nil.
  - cbn [take_every]. destruct c as [|c'].
    + destruct j as [|j'].
      * now rewrite Nat.mul_0_r.
      * cbn [nth_error]. rewrite IH by exact Hk.
        replace (0 + k * S j')%nat with (S (k - 1 + k * j')) by nia. reflexivity.
    + rewrite IH by exact Hk. reflexivity.
Qed.

Lemma take_every_length (k : nat) {A : Type} : forall q (l : list A) c,
  (0 < k)%nat -> (c < k)%nat -> length l = (c + k * q)%nat ->
  length (take_every k c l) = q.
Proof.
  intros q l. revert q. induction l as [|v l IH]; intros q c Hk Hc Hl.
  - cbn [length] in Hl. destruct q; [reflexivity | nia].
  - cbn [length] in Hl. cbn [take_every]. destruct c as [|c'].
    + destruct q as [|q']; [nia|]. cbn [length]. f_equal.
      apply IH; [exact Hk | lia | nia].
    + apply IH; [exact Hk | lia | lia].
Qed.

Lemma every_nth_spec (k : nat) {A : Type} (l : list A) :
  (0 < k)%nat ->
  (forall j, nth_error (every_nth k l) j = nth_error l (k * j)) /\
  (forall q, length l = (k * q)%nat -> length (every_nth k l) = q).
Proof.
  intros Hk. rewrite every_nth_take by exact Hk. split.
  - intros j. now rewrite take_every_nth.
  - intros q Hq. now apply take_every_length.
Qed.

(** ** The notes of [src/lorenz-funky.js] stay in the scale *)

Lemma get_reads (arr : list number) (k : number) : In (get arr k) (reads arr).
Proof.
  unfold get, reads. destruct (index_of k) as [q|]; [|now left].
  destruct (Z.ltb q (Z.of_nat (length arr))); [|now left].
  destruct (nth_error arr (Z.to_nat q)) as [v|] eqn:E; [|now left].
  right. apply in_map. eapply nth_error_In; eauto.
Qed.

Lemma get_at_reads (arr : list number) (k : option number) : In (get_at arr k) (reads arr).
Proof. destruct k as [k|]; [apply get_reads | now left]. Qed.

Lemma notes_of_possible (xs ys : list number) (n : number) :
  In n (LorenzFunky.notes_of xs ys) -> In n possible_notes.
Proof.
  intros H. apply In_nth_error in H. destruct H as [i Hi].
  rewrite notes_of_nth in Hi.
  destruct (nth_error (LorenzFunky.scaleDegree_of xs) i) as [deg|]; [|discriminate].
  cbn [option_map] in Hi. injection Hi as <-.
  unfold possible_notes.
  apply (in_map (fun os => (of_Z 48 + to_number (fst os) + to_number (snd os))%js)
           _ (get_at LorenzFunky.octaves (nth_error (LorenzFunky.octave_of ys) i),
              get LorenzFunky.scale deg)).
  apply in_prod; [apply get_at_reads | apply get_reads].
Qed.

Ltac in_list := vm_compute; repeat (first [left; reflexivity | right]).

Ltac try_notes l :=
  lazymatch l with
  | ?z :: ?l' =>
      first [ exists z; split; [vm_compute; reflexivity | split; [lia | in_list]]
            | try_notes l' ]
  end.

Ltac find_note :=
  let l := eval vm_compute in
             (36 :: flat_map (fun o => map (fun s => 48 + o + s) [0; 3; 5; 7; 10])
                             [0; 12; 24; 36]) in
  try_notes l.

Lemma possible_notes_in_scale :
  Forall (fun n => midi_in_scale 94
                     (clamp_between (of_Z 36) (of_Z 96)
                        (LorenzFunky.safeNum n (Some (of_Z 0))))) possible_notes /\
  Forall (fun n => midi_in_scale 84
                     (clamp_between (of_Z 36) (of_Z 84)
                        (LorenzFunky.safeNum n (Some (of_Z 0))))) possible_notes.
Proof.
  unfold possible_notes, reads, LorenzFunky.octaves, LorenzFunky.scale.
  cbn [map list_prod app fst snd].
  split; repeat (apply Forall_cons; [unfold midi_in_scale; find_note|]); apply Forall_nil.
Qed.

Lemma every_nth_from_In (k : nat) {A : Type} (l : list A) (v : A) : forall i,
  In v (concat (mapi_from i (fun v i => if Nat.eqb (Nat.modulo i k) 0 then [v] else []) l)) ->
  In v l.
Proof.
  induction l as [|a l IH]; intros i H; [exact H|].
  cbn [mapi_from concat] in H. cbv beta in H. apply in_app_or in H. destruct H as [H|H].
  - destruct (Nat.eqb (Nat.modulo i k) 0); cbn [In] in H; [|contradiction].
    destruct H as [<-|[]]. now left.
  - right. eapply IH; eauto.
Qed.

Lemma every_nth_In (k : nat) {A : Type} (l : list A) (v : A) :
  In v (every_nth k l) -> In v l.
Proof. apply every_nth_from_In. Qed.

Lemma notes_of_in_scale (xs ys : list number) :
  Forall (midi_in_scale 94)
         (LorenzFunky.clampArr (Arr (LorenzFunky.notes_of xs ys)) (of_Z 36) (of_Z 96)) /\
  Forall (midi_in_scale 84)
         (LorenzFunky.clampArr (Arr (every_nth 16 (LorenzFunky.notes_of xs ys)))
                               (of_Z 36) (of_Z 84)).
Proof.
  destruct possible_notes_in_scale as [H1 H2]. rewrite Forall_forall in H1, H2.
  rewrite !funky_clampArr_map. split; apply Forall_forall; intros r Hr;
    apply in_map_iff in Hr; destruct Hr as [n [<- Hn]].
  - apply H1. now apply notes_of_possible in Hn.
  - apply H2. apply every_nth_In in Hn. now apply notes_of_possible in Hn.
Qed.

(** ** The percussion series *)







(** ** Sign changes in [part_000] *)



(** ** The second script clamps twice *)

Lemma bounds_36_96 :
  isFinite (of_Z 36) = true /\ isFinite (of_Z 96) = true /\
  is_zero (of_Z 36) = false /\ is_zero (of_Z 96) = false /\
  le (of_Z 36) (of_Z 96) = true /\
  isFinite (of_Z 84) = true /\ le (of_Z 36) (of_Z 84) = true /\
  le (of_Z 84) (of_Z 96) = true.
Proof. repeat split; vm_compute; reflexivity. Qed.

Lemma within_widen (lo hi hi' v : number) :
  le hi hi' = true -> within lo hi v -> within lo hi' v.
Proof.
  intros H [Hf [H1 H2]]. split; [exact Hf|]. split; [exact H1|].
  now apply le_trans with hi.
Qed.

Lemma clamped_map_within {A : Type} (f : A -> number) (lo hi : number) (l : list A) :
  isFinite lo = true -> isFinite hi = true -> le lo hi = true ->
  Forall (within lo hi) (map (fun a => Part000.clamp (f a) lo hi) l).
Proof.
  intros Hlo Hhi Hle. apply Forall_forall. intros r Hr. apply in_map_iff in Hr.
  destruct Hr as [a [<- _]]. now apply clamp_finite.
Qed.

Lemma part000_notes_within : Forall (within (of_Z 36) (of_Z 96)) Part000.notes.
Proof.
  destruct bounds_36_96 as [F36 [F96 [_ [_ [L _]]]]].
  unfold Part000.notes. generalize Part000.xs. intros xs.
  now apply clamped_map_within.
Qed.

Lemma part000_roots_within : Forall (within (of_Z 36) (of_Z 96)) Part000.roots.
Proof.
  destruct bounds_36_96 as [F36 [_ [_ [_ [_ [F84 [L84 L]]]]]]].
  unfold Part000.roots. generalize (every_nth 8 Part000.notes). intros l.
  eapply Forall_impl; [|apply (clamped_map_within (fun n => n)); eauto].
  intros v. now apply within_widen.
Qed.

Lemma part000_thirds_within : Forall (within (of_Z 36) (of_Z 96)) Part000.thirds.
Proof.
  destruct bounds_36_96 as [F36 [F96 [_ [_ [L _]]]]].
  unfold Part000.thirds. generalize Part000.roots. intros l.
  now apply clamped_map_within.
Qed.

Lemma part000_fifths_within : Forall (within (of_Z 36) (of_Z 96)) Part000.fifths.
Proof.
  destruct bounds_36_96 as [F36 [F96 [_ [_ [L _]]]]].
  unfold Part000.fifths. generalize Part000.roots. intros l.
  now apply clamped_map_within.
Qed.

(** X9: in the second script the final safety net changes nothing of
    the series that [clamp] has already bounded: [NOTES_SAFE] is
    [notes], [ROOTS_SAFE] is [roots], [THIRDS_SAFE] is [thirds] and
    [FIFTHS_SAFE] is [fifths], element for element. *)
Theorem safety_net_keeps_clamped_series :
  Part000.NOTES_SAFE = Part000.notes /\
  Part000.ROOTS_SAFE = Part000.roots /\
  Part000.THIRDS_SAFE = Part000.thirds /\
  Part000.FIFTHS_SAFE = Part000.fifths.
Proof.
  destruct bounds_36_96 as [_ [_ [Z36 [Z96 _]]]].
  unfold Part000.NOTES_SAFE, Part000.ROOTS_SAFE, Part000.THIRDS_SAFE, Part000.FIFTHS_SAFE.
  split; [|split; [|split]].
  - exact (proj2 (clampArr_fixes_within _ _ _ Z36 Z96 part000_notes_within)).
  - exact (proj2 (clampArr_fixes_within _ _ _ Z36 Z96 part000_roots_within)).
  - exact (proj2 (clampArr_fixes_within _ _ _ Z36 Z96 part000_thirds_within)).
  - exact (proj2 (clampArr_fixes_within _ _ _ Z36 Z96 part000_fifths_within)).
Qed.

(** X1: [pick] returns the first candidate that the registry holds,
    ["sine"] when it holds none of them, and never the empty string; in
    both scripts. *)
Theorem pick_first_available (avail cands : list string) :
  (forall pre n post, cands = pre ++ n :: post -> In n avail ->
     (forall c, In c pre -> ~ In c avail) -> n <> ""%string ->
     LorenzFunky.pick avail cands = n /\ Part000.pick avail cands = n) /\
  ((forall c, In c cands -> ~ In c avail) ->
   LorenzFunky.pick avail cands = "sine"%string /\
   Part000.pick avail cands = "sine"%string) /\
  LorenzFunky.pick avail cands <> ""%string /\
  Part000.pick avail cands <> ""%string.
Proof.
  change (Part000.pick avail cands) with (LorenzFunky.pick avail cands).
  destruct (funky_pick_spec avail cands) as [H1 [H2 [H3 _]]].
  split; [|split; [|split]]; auto.
  intros pre n post E Hn Hpre Hne. split; eapply H1; eauto.
Qed.

Lemma pick_first_available_witness :
  LorenzFunky.pick ["pluck"; "saw"]%string ["tri"; "pluck"; "sine"]%string = "pluck"%string.
Proof.
  refine (proj1 (proj1 (pick_first_available ["pluck"; "saw"]%string
                          ["tri"; "pluck"; "sine"]%string)
                   ["tri"%string] "pluck"%string ["sine"%string] eq_refl _ _ _)).
  - left. reflexivity.
  - intros c [<-|[]] [H|[H|[]]]; discriminate.
  - discriminate.
Defined.

(** X2: the lead voice is ["tri"] if the registry holds it, else
    ["pluck"] if it holds that, else ["sine"]; the pad voice is the
    first of ["saw"], ["pulse"], ["tri"] it holds, else ["sine"]; in
    both scripts. *)
Theorem synth_fallback_order (avail : list string) :
  ((In "tri"%string avail -> LorenzFunky.LEAD_SYNTH avail = "tri"%string) /\
   (~ In "tri"%string avail -> In "pluck"%string avail ->
    LorenzFunky.LEAD_SYNTH avail = "pluck"%string) /\
   (~ In "tri"%string avail -> ~ In "pluck"%string avail ->
    LorenzFunky.LEAD_SYNTH avail = "sine"%string) /\
   (In "saw"%string avail -> LorenzFunky.PAD_SYNTH avail = "saw"%string) /\
   (~ In "saw"%string avail -> In "pulse"%string avail ->
    LorenzFunky.PAD_SYNTH avail = "pulse"%string) /\
   (~ In "saw"%string avail -> ~ In "pulse"%string avail -> In "tri"%string avail ->
    LorenzFunky.PAD_SYNTH avail = "tri"%string) /\
   (~ In "saw"%string avail -> ~ In "pulse"%string avail -> ~ In "tri"%string avail ->
    LorenzFunky.PAD_SYNTH avail = "sine"%string)) /\
  Part000.LEAD_SYNTH avail = LorenzFunky.LEAD_SYNTH avail /\
  Part000.PAD_SYNTH avail = LorenzFunky.PAD_SYNTH avail.
Proof.
  split; [apply synths_by_registry | split; reflexivity].
Qed.

Lemma synth_fallback_order_witness :
  LorenzFunky.LEAD_SYNTH ["pluck"; "saw"]%string = "pluck"%string.
Proof.
  refine (proj1 (proj2 (proj1 (synth_fallback_order ["pluck"; "saw"]%string))) _ _).
  - intros [H|[H|[]]]; discriminate.
  - left. reflexivity.
Defined.

(** X3: a run of [lorenz] with more steps extends a run with fewer: its
    first [N] states are the run of [N] steps.  So the trajectory of the
    second script is the first 1536 states of that of
    [src/lorenz-funky.js]. *)
Theorem trajectory_extends (N K : nat) (dt sigma rho beta : option number) :
  firstn N (LorenzFunky.lorenz (Some (N + K)%nat) dt sigma rho beta)
  = LorenzFunky.lorenz (Some N) dt sigma rho beta /\
  firstn N (Part000.lorenz (Some (N + K)%nat) dt sigma rho beta)
  = Part000.lorenz (Some N) dt sigma rho beta /\
  Part000.pts = firstn 1536 LorenzFunky.pts.
Proof. apply lorenz_prefix. Qed.

Lemma speed_of_prefix (F : option number -> option number -> option number -> number)
    (n : nat) (a b c : list number) (pts : list point) :
  mapi (fun _ i => F (nth_error (firstn n a) i) (nth_error (firstn n b) i)
                     (nth_error (firstn n c) i)) (firstn n pts)
  = firstn n (mapi (fun _ i => F (nth_error a i) (nth_error b i) (nth_error c i)) pts).
Proof.
  apply nth_error_ext. intros i.
  rewrite mapi_nth, !nth_error_firstn, mapi_nth.
  destruct (Nat.ltb i n); reflexivity.
Qed.

Lemma part000_rawSpd_prefix (Math_pow : number -> number -> number) :
  Part000.rawSpd Math_pow = firstn 1536 (LorenzFunky.rawSpd Math_pow).
Proof.
  unfold Part000.rawSpd, LorenzFunky.rawSpd.
  rewrite part000_dxs_prefix, part000_dys_prefix, part000_dzs_prefix, part000_pts_prefix.
  apply (speed_of_prefix
           (fun dx dy dz => Math_sqrt (Math_pow (or_zero dx) (of_Z 2)
                                       + Math_pow (or_zero dy) (of_Z 2)
                                       + Math_pow (or_zero dz) (of_Z 2))%js)).
Qed.

(** X4: the differences of a prefix of an array are the prefix of its
    differences.  So the difference series and the raw speed series of
    the second script are the first 1536 entries of those of
    [src/lorenz-funky.js]. *)
Theorem differences_of_prefix :
  (forall (n : nat) (arr : list number),
      LorenzFunky.diff (firstn n arr) = firstn n (LorenzFunky.diff arr) /\
      Part000.diff (firstn n arr) = firstn n (Part000.diff arr)) /\
  Part000.dxs = firstn 1536 LorenzFunky.dxs /\
  Part000.dys = firstn 1536 LorenzFunky.dys /\
  Part000.dzs = firstn 1536 LorenzFunky.dzs /\
  (forall Math_pow, Part000.rawSpd Math_pow = firstn 1536 (LorenzFunky.rawSpd Math_pow)).
Proof.
  split; [|split; [|split; [|split]]].
  - intros n arr. change Part000.diff with LorenzFunky.diff.
    split; apply diff_firstn.
  - exact part000_dxs_prefix.
  - exact part000_dys_prefix.
  - exact part000_dzs_prefix.
  - exact part000_rawSpd_prefix.
Qed.

(** X5: the integrator does not recover from NaN.  With a NaN step size
    every state has three NaN coordinates; and once one coordinate of a
    state is NaN, every later state has three NaN coordinates; in both
    scripts. *)
Theorem integrator_keeps_nan (N : nat) (dt sigma rho beta : option number) :
  (Forall (fun p => p = nan_state)
          (LorenzFunky.lorenz (Some N) (Some NaN) sigma rho beta) /\
   Forall (fun p => p = nan_state)
          (Part000.lorenz (Some N) (Some NaN) sigma rho beta)) /\
  (forall (i j : nat) (p q : point),
      (i < j)%nat -> has_nan p ->
      (nth_error (LorenzFunky.lorenz (Some N) dt sigma rho beta) i = Some p ->
       nth_error (LorenzFunky.lorenz (Some N) dt sigma rho beta) j = Some q ->
       q = nan_state) /\
      (nth_error (Part000.lorenz (Some N) dt sigma rho beta) i = Some p ->
       nth_error (Part000.lorenz (Some N) dt sigma rho beta) j = Some q ->
       q = nan_state)).
Proof.
  split; [apply nan_step_size|]. intros i j p q. apply nan_is_absorbing.
Qed.

Lemma integrator_keeps_nan_witness :
  nth_error (LorenzFunky.lorenz (Some 3%nat) (Some NaN) None None None) 2 = Some nan_state.
Proof.
  assert (H0 : nth_error (LorenzFunky.lorenz (Some 3%nat) (Some NaN) None None None) 0
               = Some nan_state) by (vm_compute; reflexivity).
  assert (H2 : exists q, nth_error (LorenzFunky.lorenz (Some 3%nat) (Some NaN) None None None) 2
                         = Some q) by (eexists; vm_compute; reflexivity).
  destruct H2 as [q Hq]. rewrite Hq. f_equal.
  refine (proj1 (proj2 (integrator_keeps_nan 3 (Some NaN) None None None)
                   0%nat 2%nat nan_state q _ _) H0 Hq).
  - lia.
  - left. reflexivity.
Defined.

Lemma safeNum_not_nan (v : number) :
  is_nan (LorenzFunky.safeNum v (Some (of_Z 0))) = false /\
  is_nan (Part000.safeNum v (Some (of_Z 0))) = false.
Proof.
  destruct (safeNum_finite v (of_Z 0) of_Z_0_finite) as [H1 H2].
  split; now apply finite_not_nan.
Qed.

Lemma clampArr_elements (arr : value) (lo hi : number) (P : number -> Prop) :
  (forall v, is_nan v = false -> P (clamp_between lo hi v)) ->
  Forall P (LorenzFunky.clampArr arr lo hi) /\ Forall P (Part000.clampArr arr lo hi).
Proof.
  intros H. unfold LorenzFunky.clampArr, Part000.clampArr, LorenzFunky.safeArr,
    Part000.safeArr. cbn [default_arg]. rewrite !map_map.
  split; apply Forall_forall; intros r Hr; apply in_map_iff in Hr;
    destruct Hr as [v [<- _]]; apply H; apply safeNum_not_nan.
Qed.

(** X6: [clampArr] does not check its bounds.  With a NaN bound every
    element of the result is NaN; with the bounds in the wrong order,
    [hi < lo], every element is [lo]; in both scripts. *)
Theorem clampArr_unchecked_bounds (arr : value) (lo hi : number) :
  (is_nan lo = true \/ is_nan hi = true ->
   Forall (fun r => r = NaN) (LorenzFunky.clampArr arr lo hi) /\
   Forall (fun r => r = NaN) (Part000.clampArr arr lo hi)) /\
  (lt hi lo = true ->
   Forall (fun r => r = lo) (LorenzFunky.clampArr arr lo hi) /\
   Forall (fun r => r = lo) (Part000.clampArr arr lo hi)).
Proof.
  split; intros H; apply clampArr_elements; intros v Hv.
  - now apply clamp_between_nan_bound.
  - now apply clamp_between_inverted.
Qed.

Lemma clampArr_unchecked_bounds_witness :
  Forall (fun r => r = of_Z 96)
         (LorenzFunky.clampArr (Arr [of_Z 1; of_Z 50; NaN; of_Z 100]) (of_Z 96) (of_Z 36)).
Proof.
  refine (proj1 (proj2 (clampArr_unchecked_bounds
                          (Arr [of_Z 1; of_Z 50; NaN; of_Z 100]) (of_Z 96) (of_Z 36)) _)).
  vm_compute. reflexivity.
Defined.

(** X7: between bounds other than zero, [clampArr] returns unchanged an
    array of finite numbers that lie within the bounds; so clamping
    twice between the same bounds [lo <= hi] is clamping once; in both
    scripts. *)
Theorem clampArr_keeps_in_range (lo hi : number) :
  is_zero lo = false -> is_zero hi = false ->
  (forall l : list number, Forall (within lo hi) l ->
     LorenzFunky.clampArr (Arr l) lo hi = l /\ Part000.clampArr (Arr l) lo hi = l) /\
  (le lo hi = true -> lo <> Infinity -> hi <> neg_Infinity ->
   forall arr : value,
     LorenzFunky.clampArr (Arr (LorenzFunky.clampArr arr lo hi)) lo hi
     = LorenzFunky.clampArr arr lo hi /\
     Part000.clampArr (Arr (Part000.clampArr arr lo hi)) lo hi
     = Part000.clampArr arr lo hi).
Proof.
  intros Zlo Zhi. split.
  - intros l Hl. now apply clampArr_fixes_within.
  - intros Hle Hlo Hhi arr. split.
    + apply clampArr_fixes_within; auto. now apply funky_clampArr_within.
    + apply clampArr_fixes_within; auto. now apply part000_clampArr_within.
Qed.

Lemma clampArr_keeps_in_range_witness :
  LorenzFunky.clampArr (Arr [of_Z 36; of_Z 50; of_Z 96]) (of_Z 36) (of_Z 96)
  = [of_Z 36; of_Z 50; of_Z 96].
Proof.
  refine (proj1 (proj1 (clampArr_keeps_in_range (of_Z 36) (of_Z 96) _ _)
                   [of_Z 36; of_Z 50; of_Z 96] _)).
  - vm_compute. reflexivity.
  - vm_compute. reflexivity.
  - repeat constructor; vm_compute; reflexivity.
Defined.

Lemma map_clamp_mono (lo hi : number) (l1 l2 : list number) :
  is_nan lo = false -> is_nan hi = false ->
  Forall2 (fun v w => le v w = true) l1 l2 ->
  Forall2 (fun v w => le v w = true)
          (map (clamp_between lo hi) l1) (map (clamp_between lo hi) l2).
Proof.
  intros Nlo Nhi H. induction H as [|v w l1 l2 Hvw _ IH]; cbn [map]; constructor; auto.
  now apply clamp_between_mono.
Qed.

Lemma safeArr_of_finite (l : list number) :
  finite_series l ->
  LorenzFunky.safeArr (Arr l) None = l /\ Part000.safeArr (Arr l) None = l.
Proof.
  intros H. unfold finite_series in H. rewrite Forall_forall in H.
  unfold LorenzFunky.safeArr, Part000.safeArr, LorenzFunky.safeNum, Part000.safeNum.
  split; apply map_id_in; intros v Hv; now rewrite (H v Hv).
Qed.

(** X8: clamping keeps the order of finite values: if each element of
    one array of finite numbers is at most the element of another at
    the same index, so are the elements of their [clampArr] between the
    same bounds, and so are the [clamp] of two finite values; the bounds
    need not be ordered. *)
Theorem clamping_is_monotone (lo hi : number) :
  is_nan lo = false -> is_nan hi = false ->
  (forall l1 l2 : list number,
     finite_series l1 -> finite_series l2 ->
     Forall2 (fun v w => le v w = true) l1 l2 ->
     Forall2 (fun v w => le v w = true)
             (LorenzFunky.clampArr (Arr l1) lo hi) (LorenzFunky.clampArr (Arr l2) lo hi) /\
     Forall2 (fun v w => le v w = true)
             (Part000.clampArr (Arr l1) lo hi) (Part000.clampArr (Arr l2) lo hi)) /\
  (forall v w : number,
     isFinite v = true -> isFinite w = true -> le v w = true ->
     le (Part000.clamp v lo hi) (Part000.clamp w lo hi) = true).
Proof.
  intros Nlo Nhi. split.
  - intros l1 l2 F1 F2 H. unfold LorenzFunky.clampArr, Part000.clampArr.
    destruct (safeArr_of_finite l1 F1) as [-> ->].
    destruct (safeArr_of_finite l2 F2) as [-> ->].
    split; now apply map_clamp_mono.
  - intros v w Fv Fw H. unfold Part000.clamp. rewrite Fv, Fw.
    now apply clamp_between_mono.
Qed.

Lemma clamping_is_monotone_witness :
  Forall2 (fun v w => le v w = true)
          (LorenzFunky.clampArr (Arr [of_Z 1; of_Z 50]) (of_Z 36) (of_Z 96))
          (LorenzFunky.clampArr (Arr [of_Z 40; of_Z 200]) (of_Z 36) (of_Z 96)).
Proof.
  refine (proj1 (proj1 (clamping_is_monotone (of_Z 36) (of_Z 96) _ _)
                   [of_Z 1; of_Z 50] [of_Z 40; of_Z 200] _ _ _)).
  - vm_compute. reflexivity.
  - vm_compute. reflexivity.
  - repeat constructor.
  - repeat constructor.
  - repeat constructor; vm_compute; reflexivity.
Defined.

(** X10: where the finite elements of an array are not all equal,
    [norm] puts exactly 0 in place of their minimum, so 0 occurs in the
    result; where moreover their range [mx - mn] is finite, it puts
    exactly 1 in place of their maximum, so 1 occurs too; in both
    scripts. *)
Theorem norm_reaches_zero_and_one (arr : list number) :
  let finite := filter isFinite arr in
  numbers arr -> finite <> [] ->
  strict_eq (Math_min finite) (Math_max finite) = false ->
  ((forall i, nth_error arr i = Some (Math_min finite) ->
              nth_error (LorenzFunky.norm arr) i = Some (of_Z 0) /\
              nth_error (Part000.norm arr) i = Some (of_Z 0)) /\
   (exists i, nth_error (LorenzFunky.norm arr) i = Some (of_Z 0) /\
              nth_error (Part000.norm arr) i = Some (of_Z 0))) /\
  (isFinite (Math_max finite - Math_min finite)%js = true ->
   (forall i, nth_error arr i = Some (Math_max finite) ->
              nth_error (LorenzFunky.norm arr) i = Some (of_Z 1) /\
              nth_error (Part000.norm arr) i = Some (of_Z 1)) /\
   (exists i, nth_error (LorenzFunky.norm arr) i = Some (of_Z 1) /\
              nth_error (Part000.norm arr) i = Some (of_Z 1))).
Proof.
  intros finite Hn Hne Heq. change (Part000.norm arr) with (LorenzFunky.norm arr).
  destruct (norm_extremes_funky arr Hn Hne Heq) as [H0 [[i0 Hi0] H1]].
  fold finite in H0, H1. split; [split|].
  - intros i Hi. split; now apply H0.
  - exists i0. now split.
  - intros Hr. destruct (H1 Hr) as [H1' [i1 Hi1]]. split.
    + intros i Hi. split; now apply H1'.
    + exists i1. now split.
Qed.

Lemma norm_reaches_zero_and_one_witness :
  nth_error (LorenzFunky.norm [of_Z 2; NaN; of_Z 1; of_Z 5]) 2 = Some (of_Z 0) /\
  nth_error (LorenzFunky.norm [of_Z 2; NaN; of_Z 1; of_Z 5]) 3 = Some (of_Z 1).
Proof.
  assert (Hn : numbers [of_Z 2; NaN; of_Z 1; of_Z 5])
    by (repeat constructor; vm_compute; reflexivity).
  assert (Hne : filter isFinite [of_Z 2; NaN; of_Z 1; of_Z 5] <> [])
    by (vm_compute; discriminate).
  assert (Heq : strict_eq (Math_min (filter isFinite [of_Z 2; NaN; of_Z 1; of_Z 5]))
                          (Math_max (filter isFinite [of_Z 2; NaN; of_Z 1; of_Z 5])) = false)
    by (vm_compute; reflexivity).
  destruct (norm_reaches_zero_and_one [of_Z 2; NaN; of_Z 1; of_Z 5] Hn Hne Heq)
    as [[H0 _] H1].
  split.
  - refine (proj1 (H0 2%nat _)). vm_compute. reflexivity.
  - assert (Hr : isFinite (Math_max (filter isFinite [of_Z 2; NaN; of_Z 1; of_Z 5])
                           - Math_min (filter isFinite [of_Z 2; NaN; of_Z 1; of_Z 5]))%js
                 = true) by (vm_compute; reflexivity).
    refine (proj1 (proj1 (H1 Hr) 3%nat _)). vm_compute. reflexivity.
Defined.

(** X11: in [src/lorenz-funky.js] the melody never leaves the scale:
    whatever the normalized coordinates, every element of [NOTES_SAFE]
    is a whole MIDI note between 36 and 94, and every element of
    [PAD_NOTES_SAFE] one between 36 and 84, whose pitch class is a
    degree of the C minor pentatonic scale (0, 3, 5, 7 or 10 semitones
    above C); this holds of the lower bound 36 that stands for a note
    out of range and of the upper bound 84 of the pad. *)
Theorem notes_stay_in_scale :
  (forall xs ys : list number,
      Forall (midi_in_scale 94)
             (LorenzFunky.clampArr (Arr (LorenzFunky.notes_of xs ys)) (of_Z 36) (of_Z 96)) /\
      Forall (midi_in_scale 84)
             (LorenzFunky.clampArr (Arr (every_nth 16 (LorenzFunky.notes_of xs ys)))
                                   (of_Z 36) (of_Z 84))) /\
  Forall (midi_in_scale 94) LorenzFunky.NOTES_SAFE /\
  Forall (midi_in_scale 84) LorenzFunky.PAD_NOTES_SAFE.
Proof.
  split; [exact notes_of_in_scale|].
  unfold LorenzFunky.NOTES_SAFE, LorenzFunky.PAD_NOTES_SAFE, LorenzFunky.padNotes,
    LorenzFunky.notes.
  exact (notes_of_in_scale LorenzFunky.xs LorenzFunky.ys).
Qed.






Lemma funky_pad_lengths :
  length LorenzFunky.padNotes = 256%nat /\ length LorenzFunky.padCut = 256%nat.
Proof.
  destruct (funky_series_lengths (fun v => v) (fun v _ => v) (fun v _ => v))
    as [_ [_ [_ [_ [_ [Hn [Hc _]]]]]]].
  unfold LorenzFunky.padNotes, LorenzFunky.padCut.
  split; apply every_nth_spec; lia.
Qed.

Lemma part000_roots_length : length Part000.roots = 192%nat.
Proof.
  destruct (part000_series_lengths (fun v _ => v))
    as [_ [_ [_ [_ [_ [_ [Hn _]]]]]]].
  unfold Part000.roots. rewrite length_map.
  apply every_nth_spec; [lia | exact Hn].
Qed.

(** X14: the pad of [src/lorenz-funky.js] holds every 16th note and
    cutoff: 256 of each, the one at index [j] taken from index [16 j];
    the chord wash of the second script holds every 8th note, clamped:
    192 roots, thirds and fifths, the root at index [j] taken from
    index [8 j]. *)
Theorem pads_take_every_kth :
  ((forall j, nth_error LorenzFunky.padNotes j = nth_error LorenzFunky.notes (16 * j)) /\
   (forall j, nth_error LorenzFunky.padCut j = nth_error LorenzFunky.cut (16 * j)) /\
   length LorenzFunky.PAD_NOTES_SAFE = 256%nat /\
   length LorenzFunky.PAD_CUT_SAFE = 256%nat) /\
  ((forall j, nth_error Part000.roots j
              = option_map (fun n => Part000.clamp n (of_Z 36) (of_Z 84))
                           (nth_error Part000.notes (8 * j))) /\
   length Part000.ROOTS_SAFE = 192%nat /\
   length Part000.THIRDS_SAFE = 192%nat /\
   length Part000.FIFTHS_SAFE = 192%nat).
Proof.
  split; [split; [|split; [|split]] | split; [|split; [|split]]].
  - intros j. unfold LorenzFunky.padNotes. apply every_nth_spec. lia.
  - intros j. unfold LorenzFunky.padCut. apply every_nth_spec. lia.
  - unfold LorenzFunky.PAD_NOTES_SAFE.
    rewrite (proj1 (clampArr_length _ _ _)). exact (proj1 funky_pad_lengths).
  - unfold LorenzFunky.PAD_CUT_SAFE.
    rewrite (proj1 (clampArr_length _ _ _)). exact (proj2 funky_pad_lengths).
  - intros j. unfold Part000.roots. rewrite nth_error_map. f_equal.
    apply every_nth_spec. lia.
  - unfold Part000.ROOTS_SAFE.
    rewrite (proj2 (clampArr_length _ _ _)). exact part000_roots_length.
  - unfold Part000.THIRDS_SAFE, Part000.thirds.
    rewrite (proj2 (clampArr_length _ _ _)), length_map. exact part000_roots_length.
  - unfold Part000.FIFTHS_SAFE, Part000.fifths.
    rewrite (proj2 (clampArr_length _ _ _)), length_map. exact part000_roots_length.
Qed.

(** X15: [ensureFinite] settles at once: applied to its own result
    with the same default it changes nothing, whatever the default;
    and it returns unchanged an array whose numbers are all finite. *)
Theorem ensureFinite_settles :
  (forall (arr : option (list Part000.item)) (defaultVal : option number),
      Part000.ensureFinite (Some (Part000.ensureFinite arr defaultVal)) defaultVal
      = Part000.ensureFinite arr defaultVal) /\
  (forall (arr : list Part000.item) (defaultVal : option number),
      Forall (fun it => match it with
                        | Part000.Scalar v => isFinite v = true
                        | Part000.Nested l => finite_series l
                        end) arr ->
      Part000.ensureFinite (Some arr) defaultVal = arr).
Proof. split; [exact ensureFinite_idempotent | exact ensureFinite_keeps_finite]. Qed.

Lemma ensureFinite_settles_witness :
  Part000.ensureFinite (Some [Part000.Scalar (of_Z 1); Part000.Nested [of_Z 2; of_Z 3]]) None
  = [Part000.Scalar (of_Z 1); Part000.Nested [of_Z 2; of_Z 3]].
Proof.
  refine (proj2 ensureFinite_settles
            [Part000.Scalar (of_Z 1); Part000.Nested [of_Z 2; of_Z 3]] None _).
  repeat constructor; vm_compute; reflexivity.
Defined.

(** X16: the helpers the two scripts both define are the same
    functions: [pick], [safeNum], [safeArr], [clampArr], [norm] and
    [diff] return the same result on the same arguments. *)
Theorem helpers_same_in_both :
  (forall avail cands, LorenzFunky.pick avail cands = Part000.pick avail cands) /\
  (forall v def, LorenzFunky.safeNum v def = Part000.safeNum v def) /\
  (forall arr def, LorenzFunky.safeArr arr def = Part000.safeArr arr def) /\
  (forall arr lo hi, LorenzFunky.clampArr arr lo hi = Part000.clampArr arr lo hi) /\
  (forall arr, LorenzFunky.norm arr = Part000.norm arr) /\
  (forall max_arguments arr,
      LorenzFunky.norm_call max_arguments arr = Part000.norm_call max_arguments arr) /\
  (forall arr, LorenzFunky.diff arr = Part000.diff arr).
Proof. repeat split. Qed.
